(** * Fidelity susceptibility of the 1D transverse-field Ising model

    A shallow embedding of [TFIM/TFIM_chiF.py]: the four evaluators of the
    fidelity susceptibility chi_F(g) and the sweep that drives them.

    Conventions of the embedding.
    - Arithmetic is exact: a finite float64 is a real number of [R].  What a
      division by zero produces (inf or nan) is the one value [NotReal] of
      [float]; the logarithm and the quotients of the differentiated
      evaluators are those of [R] and mean what torch computes for a
      positive overlap.  The single narrowing of the script,
      [torch.Tensor([x])] (float32), is kept as the rounding [float32].
      Where the rounding of float64 decides an outcome, the lines are
      written once more over the binary64 numbers of the kernel
      ([Binary64]).
    - A 1-D tensor is a [list R], a 2-D tensor a list of rows.  The 2-D
      tensors handed over by the collaborators are taken to be well shaped
      (the shape hypotheses of the theorems); indices are checked.
    - A tensor attached to the autograd graph of the leaf [model.g] is a
      jet [J2]: its value and its first two derivatives with respect to g
      (the script differentiates twice, never more).
    - The model object, the process-wide configuration of the sparse solver
      and the calls and console lines, in program order, are the components
      of a [World] threaded through a state-and-exception monad [Py]; what
      was written before an exception stays written.
    - The class [TFIM], [torch.symeig] and the primitives of
      [DominantSparseEigenAD] are collaborators of the script, gathered in
      the class [Imports]. *)

From Stdlib Require Import String.
From Stdlib Require Import Reals List Lia Lra Psatz Bool Arith.
From Stdlib Require Floats.PrimFloat.
Import ListNotations.
Open Scope R_scope.

Set Implicit Arguments.

(** ** Tensors over exact reals *)

Definition Vec := list R.
Definition Matrix := list (list R).

(** a float64 that came out of a division *)
Inductive float : Type :=
| Real (x : R)
| NotReal.

Definition sqr (x : R) : R := x * x.

(** [t.sum()] *)
Definition vsum (v : Vec) : R := fold_right Rplus 0 v.

(** elementwise binary operation on two 1-D tensors of one shape *)
Fixpoint map2 {A B C : Type} (f : A -> B -> C) (u : list A) (v : list B) : list C :=
  match u, v with
  | a :: u', b :: v' => f a b :: map2 f u' v'
  | _, _ => []
  end.

Definition vsub (u v : Vec) : Vec := map2 Rminus u v.
Definition vneg (v : Vec) : Vec := map Ropp v.
Definition vscale (c : R) (v : Vec) : Vec := map (Rmult c) v.
(** broadcast [c - t] and [t ** 2] *)
Definition ssub (c : R) (v : Vec) : Vec := map (fun e => c - e) v.
Definition vpow2 (v : Vec) : Vec := map sqr v.

(** [a / b]: no exception, a zero denominator gives inf or nan *)
Definition fdiv (a b : R) : float :=
  if Req_dec_T b 0 then NotReal else Real (a / b).
Definition fadd (x y : float) : float :=
  match x, y with
  | Real a, Real b => Real (a + b)
  | _, _ => NotReal
  end.
Definition vdiv (u v : Vec) : list float := map2 fdiv u v.
Definition fsum (l : list float) : float := fold_right fadd (Real 0) l.

(** [torch.matmul] of two 1-D tensors *)
Definition dot (u v : Vec) : R := vsum (map2 Rmult u v).

(** [M[:, j]] *)
Definition col (j : nat) (M : Matrix) : Vec := map (fun row => nth j row 0) M.

Definition ncols (M : Matrix) : nat :=
  match M with
  | [] => O
  | row :: _ => length row
  end.

(** [v.matmul(M)] for 1-D [v] and 2-D [M]: entry j is sum_i v[i] * M[i][j] *)
Definition vecmat (v : Vec) (M : Matrix) : Vec :=
  map (fun j => dot v (col j M)) (seq 0 (ncols M)).

(** [M.matmul(v)]: entry i is sum_j M[i][j] * v[j] *)
Definition matvec (M : Matrix) (v : Vec) : Vec := map (fun row => dot row v) M.

(** [t[1:]] *)
Definition from1 {A : Type} (l : list A) : list A := skipn 1 l.

(** ** Jets: tensors attached to the graph of the leaf g *)

Record J2 : Type := mkJ { jv : R; jd1 : R; jd2 : R }.

(** [torch.Tensor([x]).to(float64)] followed by [requires_grad_(True)] *)
Definition leaf (x : R) : J2 := mkJ x 1 0.

(** [t.detach()]: the value, cut from the graph *)
Definition detach (t : J2) : R := jv t.

Definition jzero : J2 := mkJ 0 0 0.
Definition jadd (a b : J2) : J2 :=
  mkJ (jv a + jv b) (jd1 a + jd1 b) (jd2 a + jd2 b).
(** a constant times a graph tensor *)
Definition jscale (c : R) (a : J2) : J2 := mkJ (c * jv a) (c * jd1 a) (c * jd2 a).
(** product of two graph tensors (Leibniz) *)
Definition jmul (a b : J2) : J2 :=
  mkJ (jv a * jv b)
      (jd1 a * jv b + jv a * jd1 b)
      (jd2 a * jv b + 2 * (jd1 a * jd1 b) + jv a * jd2 b).
(** [torch.log] *)
Definition jlog (a : J2) : J2 :=
  mkJ (ln (jv a)) (jd1 a / jv a) (jd2 a / jv a - sqr (jd1 a / jv a)).

Definition jsum (l : list J2) : J2 := fold_right jadd jzero l.
(** [c.matmul(t)] for a detached 1-D tensor [c] and a graph tensor [t] *)
Definition cdot (c : Vec) (t : list J2) : J2 := jsum (map2 jscale c t).
(** [u.matmul(t)] for two graph tensors *)
Definition jdot (u t : list J2) : J2 := jsum (map2 jmul u t).
(** [M.matmul(t)] for a 2-D and a 1-D graph tensor *)
Definition jmatvec (M : list (list J2)) (t : list J2) : list J2 :=
  map (fun row => jdot row t) M.

(** The result of one reverse pass: with [create_graph=True] the gradient
    is itself attached to the graph, otherwise it is a plain number. *)
Inductive Grad : Type :=
| WithGraph (v d : R)
| Plain (v : R).

(** ** The model object *)

Record Model : Type := mkModel {
  N : nat;
  dim : nat;
  g : J2;
  Hmatrix : option (list (list J2));
  pHpgmatrix : option Matrix
}.

Definition with_g (t : J2) (m : Model) : Model :=
  mkModel (N m) (dim m) t (Hmatrix m) (pHpgmatrix m).
Definition with_Hmatrix (H : list (list J2)) (m : Model) : Model :=
  mkModel (N m) (dim m) (g m) (Some H) (pHpgmatrix m).
Definition with_pHpgmatrix (P : Matrix) (m : Model) : Model :=
  mkModel (N m) (dim m) (g m) (Hmatrix m) (Some P).

(** the values of a 2-D graph tensor *)
Definition mvalues (H : list (list J2)) : Matrix := map (map jv) H.

(** ** Process-wide configuration of the sparse solver

    [setDominantSparseSymeig(model.H, model.Hadjoint_to_gadjoint)] stores two
    bound methods.  A bound method reads the model when it is called, so the
    stored pair is a pair of functions of the live model. *)
Record Wiring : Type := mkWiring {
  wA : Model -> Vec -> Vec;
  wAadjoint : Model -> Vec -> Vec -> R
}.

(** ** Console and collaborator calls, in program order *)

Inductive Item : Type :=
| Str (s : string)
| Num (x : float).

Inductive Event : Type :=
| EvNewModel (n : nat)
| EvSetG (x : R)
| EvRequiresGrad
| EvSetHmatrix
| EvSetpHpg
| EvSymeig
| EvDominantSymeig (k : nat)
| EvSetDominantSparseSymeig
| EvDominantSparseSymeig (k d : nat)
| EvGrad (create_graph : bool)
| EvCG
| EvPrint (line : list Item)
| EvPlot (xs : list R) (ys : list float) (label : string)
| EvLegend
| EvXlabel (s : string)
| EvYlabel (s : string)
| EvTitle (n : nat)
| EvShow.

Record World : Type := mkWorld {
  model : Model;
  lanczos : option Wiring;
  trace : list Event
}.

(** ** Exceptions and the state monad *)

Inductive Exn : Type := AttributeError | IndexError | RuntimeError.

Inductive Result (A : Type) : Type :=
| Ok (a : A)
| Raise (e : Exn).
Arguments Ok {A} a.
Arguments Raise {A} e.

Definition Py (A : Type) : Type := World -> Result A * World.

Definition ret {A : Type} (a : A) : Py A := fun w => (Ok a, w).
Definition bind {A B : Type} (c : Py A) (k : A -> Py B) : Py B :=
  fun w =>
    match c w with
    | (Ok a, w') => k a w'
    | (Raise e, w') => (Raise e, w')
    end.
Definition raise {A : Type} (e : Exn) : Py A := fun w => (Raise e, w).

Declare Scope py_scope.
Delimit Scope py_scope with py.
Notation "x <- c ;; k" := (bind c (fun x => k))
  (at level 61, c at next level, right associativity) : py_scope.
Notation "' p <- c ;; k" := (bind c (fun x => match x with p => k end))
  (at level 61, p pattern, c at next level, right associativity) : py_scope.
Notation "c ;; k" := (bind c (fun _ => k))
  (at level 61, right associativity) : py_scope.
Open Scope py_scope.

Definition get_model : Py Model := fun w => (Ok (model w), w).
Definition put_model (m : Model) : Py unit :=
  fun w => (Ok tt, mkWorld m (lanczos w) (trace w)).
Definition get_lanczos : Py (option Wiring) := fun w => (Ok (lanczos w), w).
Definition put_lanczos (c : Wiring) : Py unit :=
  fun w => (Ok tt, mkWorld (model w) (Some c) (trace w)).
Definition emit (e : Event) : Py unit :=
  fun w => (Ok tt, mkWorld (model w) (lanczos w) (trace w ++ [e])).

(** reading an attribute that may not have been set yet *)
Definition attr {A : Type} (o : option A) : Py A :=
  match o with
  | Some a => ret a
  | None => raise AttributeError
  end.

(** a library call that may fail *)
Definition call {A : Type} (r : Result A) : Py A :=
  match r with
  | Ok a => ret a
  | Raise e => raise e
  end.

(** [a[i]] *)
Definition index {A : Type} (a : list A) (i : nat) : Py A :=
  match nth_error a i with
  | Some x => ret x
  | None => raise IndexError
  end.

(** [a[i] = x] *)
Fixpoint array_set {A : Type} (a : list A) (i : nat) (x : A) : list A :=
  match a, i with
  | [], _ => []
  | _ :: a', O => x :: a'
  | y :: a', S i' => y :: array_set a' i' x
  end.
Definition store {A : Type} (a : list A) (i : nat) (x : A) : Py (list A) :=
  if (i <? length a)%nat then ret (array_set a i x) else raise IndexError.

(** [M[:, j]] *)
Definition column (M : Matrix) (j : nat) : Py Vec :=
  if (j <? ncols M)%nat then ret (col j M) else raise IndexError.

(** [torch.autograd.grad(y, model.g, create_graph=...)] on a graph tensor *)
Definition autograd_grad (create_graph : bool) (y : J2) : Py Grad :=
  emit (EvGrad create_graph) ;;
  ret (if create_graph then WithGraph (jd1 y) (jd2 y) else Plain (jd1 y)).

(** [torch.autograd.grad(y, model.g)] on the result of an earlier pass: a
    gradient that was computed without a graph cannot be differentiated. *)
Definition autograd_grad_again (y : Grad) : Py R :=
  emit (EvGrad false) ;;
  match y with
  | WithGraph _ d => ret d
  | Plain _ => raise RuntimeError
  end.

(** [np.linspace(start, stop, num=n)] *)
Definition linspace (start stop : R) (n : nat) : list R :=
  map (fun i => start + INR i * ((stop - start) / INR (n - 1))) (seq 0 n).

(** ** The script *)

(** What the script imports.  [torch.Tensor([x])] builds a float32 tensor,
    so [float32 x] is the rounding of x.  [np.empty(n)] returns n cells of
    arbitrary content: [junk a i] is what cell i of the a-th array of the
    script holds before it is written.  The class [TFIM] gives the
    constructor and what its methods compute from the construction
    parameters and the current g.  [symeig] is
    [torch.symeig(A, eigenvectors=True)]: eigenvalues in ascending
    order and the matrix whose columns are the eigenvectors.  The last three
    fields are [DominantSymeig.apply], [DominantSparseSymeig.apply] and
    [CGSubspaceSparse.apply] of [DominantSparseEigenAD]; the sparse ones
    receive no operator among the arguments of the call, what they compute
    with is the process-wide configuration applied to the live model. *)
Class Imports : Type := mkImports {
  float32 : R -> R;
  junk : nat -> nat -> float;
  TFIM_new : nat -> Model;
  Hmatrix_of : nat -> nat -> J2 -> list (list J2);
  pHpgmatrix_of : nat -> nat -> J2 -> Matrix;
  TFIM_H : nat -> nat -> J2 -> Vec -> Vec;
  TFIM_pHpg : nat -> nat -> J2 -> Vec -> Vec;
  TFIM_Hadjoint_to_gadjoint : nat -> nat -> J2 -> Vec -> Vec -> R;
  symeig : Matrix -> Result (Vec * Matrix);
  DominantSymeig_apply : list (list J2) -> nat -> Result (J2 * list J2);
  DominantSparseSymeig_apply :
    (Vec -> Vec) -> (Vec -> Vec -> R) -> J2 -> nat -> nat -> Result (J2 * list J2);
  CGSubspaceSparse_apply :
    option ((Vec -> Vec) * (Vec -> Vec -> R)) -> J2 -> R -> Vec -> Vec -> Result Vec
}.

Section Script.

Context {L : Imports}.

Definition np_empty (a n : nat) : list float := map (junk a) (seq 0 n).

(** *** Methods of the model *)

(** Modelled from the spec: [TFIM.setHmatrix], whose body is not among the
    sources.  The dense matrix is rebuilt from the current field value g
    and is the only attribute written. *)
Definition setHmatrix : Py unit :=
  m <- get_model ;;
  emit EvSetHmatrix ;;
  put_model (with_Hmatrix (Hmatrix_of (N m) (dim m) (g m)) m).

(** Modelled from the spec: [TFIM.setpHpg], whose body is not among the
    sources.  It stores the matrix of the derivative of the Hamiltonian
    with respect to g and writes no other attribute. *)
Definition setpHpg : Py unit :=
  m <- get_model ;;
  emit EvSetpHpg ;;
  put_model (with_pHpgmatrix (pHpgmatrix_of (N m) (dim m) (g m)) m).

(** the bound methods [model.H], [model.pHpg], [model.Hadjoint_to_gadjoint] *)
Definition model_H (m : Model) : Vec -> Vec := TFIM_H (N m) (dim m) (g m).
Definition model_pHpg (m : Model) : Vec -> Vec := TFIM_pHpg (N m) (dim m) (g m).
Definition model_Hadjoint_to_gadjoint (m : Model) : Vec -> Vec -> R :=
  TFIM_Hadjoint_to_gadjoint (N m) (dim m) (g m).

(** *** The process-wide configuration *)

Definition setDominantSparseSymeig (A : Model -> Vec -> Vec)
    (Aadjoint : Model -> Vec -> Vec -> R) : Py unit :=
  emit EvSetDominantSparseSymeig ;;
  put_lanczos (mkWiring A Aadjoint).

(** [lanczos.DominantSparseSymeig.apply]: the primitive exists once the
    setup call has run. *)
Definition dominant_sparse_symeig (t : J2) (k d : nat) : Py (J2 * list J2) :=
  c <- get_lanczos ;;
  w <- attr c ;;
  m <- get_model ;;
  emit (EvDominantSparseSymeig k d) ;;
  call (DominantSparseSymeig_apply (wA w m) (wAadjoint w m) t k d).

Definition configured (w : World) : option ((Vec -> Vec) * (Vec -> Vec -> R)) :=
  match lanczos w with
  | Some c => Some (wA c (model w), wAadjoint c (model w))
  | None => None
  end.

Definition cg (t : J2) (E0 : R) (b psi0 : Vec) : Py Vec :=
  emit EvCG ;;
  (fun w => call (CGSubspaceSparse_apply (configured w) t E0 b psi0) w).

(** *** The four evaluators *)

(** lines 19 and 20 *)
Definition numerators (psi0 : Vec) (P psis : Matrix) : Vec :=
  vpow2 (from1 (vecmat (vecmat psi0 P) psis)).
Definition denominators (E0 : R) (Es : Vec) : Vec :=
  vpow2 (ssub E0 (from1 Es)).

Definition chiF_perturbation : Py float :=
  m <- get_model ;;
  H <- attr (Hmatrix m) ;;
  emit EvSymeig ;;
  ' (Es, psis) <- call (symeig (mvalues H)) ;;
  psi0 <- column psis 0 ;;
  setpHpg ;;
  m' <- get_model ;;
  P <- attr (pHpgmatrix m') ;;
  E0 <- index Es 0 ;;
  ret (fsum (vdiv (numerators psi0 P psis) (denominators E0 Es))).

Definition chiF_matrixAD (k : nat) : Py R :=
  m <- get_model ;;
  H <- attr (Hmatrix m) ;;
  emit (EvDominantSymeig k) ;;
  ' (E0, psi0) <- call (DominantSymeig_apply H k) ;;
  let logF := jlog (cdot (map detach psi0) psi0) in
  dlogF <- autograd_grad true logF ;;
  d2logF <- autograd_grad_again dlogF ;;
  ret (- d2logF).

Definition chiF_sparseAD (k : nat) : Py (J2 * list J2 * R) :=
  setDominantSparseSymeig model_H model_Hadjoint_to_gadjoint ;;
  m <- get_model ;;
  ' (E0, psi0) <- dominant_sparse_symeig (g m) k (dim m) ;;
  let logF := jlog (cdot (map detach psi0) psi0) in
  dlogF <- autograd_grad true logF ;;
  d2logF <- autograd_grad_again dlogF ;;
  ret (E0, psi0, - d2logF).

(** Only [.item()] of a product leaves [chiF_geometric], so the values of
    [E0] and [psi0] are all that enters. *)
Definition chiF_geometric (E0 : J2) (psi0 : list J2) : Py R :=
  m <- get_model ;;
  let psi0 := map jv psi0 in
  let b := vneg (model_pHpg m psi0) in
  let b := vsub b (vscale (dot psi0 b) psi0) in
  dpsi0 <- cg (g m) (jv E0) b psi0 ;;
  ret (dot dpsi0 dpsi0).

(** *** The sweep *)

Record Arrays : Type := mkArrays {
  chiFs_perturbation : list float;
  chiFs_matrixAD : list float;
  chiFs_sparseAD : list float;
  chiFs_geometric : list float
}.

Definition print_line (x : R) (c1 c2 c3 c4 : float) : list Item :=
  [Str "g: "; Num (Real x);
   Str "chiF_perturbation: "; Num c1;
   Str "chiF_matrixAD: "; Num c2;
   Str "chiF_sparseAD: "; Num c3;
   Str "chiF_geometric: "; Num c4].

(** the body of [for i in range(Npoints)] *)
Definition sweep_body (k : nat) (gs : list R) (i : nat) (a : Arrays) : Py Arrays :=
  x <- index gs i ;;
  m <- get_model ;;
  emit (EvSetG (float32 x)) ;;
  put_model (with_g (leaf (float32 x)) m) ;;
  emit EvRequiresGrad ;;
  setHmatrix ;;
  c1 <- chiF_perturbation ;;
  a1 <- store (chiFs_perturbation a) i c1 ;;
  c2 <- chiF_matrixAD k ;;
  a2 <- store (chiFs_matrixAD a) i (Real c2) ;;
  ' (E0, psi0, c3) <- chiF_sparseAD k ;;
  a3 <- store (chiFs_sparseAD a) i (Real c3) ;;
  c4 <- chiF_geometric E0 psi0 ;;
  a4 <- store (chiFs_geometric a) i (Real c4) ;;
  x <- index gs i ;;
  p1 <- index a1 i ;;
  p2 <- index a2 i ;;
  p3 <- index a3 i ;;
  p4 <- index a4 i ;;
  emit (EvPrint (print_line x p1 p2 p3 p4)) ;;
  ret (mkArrays a1 a2 a3 a4).

Fixpoint for_range (body : nat -> Arrays -> Py Arrays) (range : list nat)
    (a : Arrays) : Py Arrays :=
  match range with
  | [] => ret a
  | i :: rest => a' <- body i a ;; for_range body rest a'
  end.

Definition script (n k Npoints : nat) (start stop : R) : Py Arrays :=
  emit (EvNewModel n) ;;
  put_model (TFIM_new n) ;;
  let gs := linspace start stop Npoints in
  let a := mkArrays (np_empty 0 Npoints) (np_empty 1 Npoints)
                    (np_empty 2 Npoints) (np_empty 3 Npoints) in
  a <- for_range (sweep_body k gs) (seq 0 Npoints) a ;;
  emit (EvPlot gs (chiFs_perturbation a) "perturbation") ;;
  emit (EvPlot gs (chiFs_matrixAD a) "AD: normal representation") ;;
  emit (EvPlot gs (chiFs_sparseAD a) "AD: sparse representation") ;;
  emit (EvPlot gs (chiFs_geometric a) "Forward AD") ;;
  emit EvLegend ;;
  emit (EvXlabel "$g$") ;;
  emit (EvYlabel "$\chi_F$") ;;
  m <- get_model ;;
  emit (EvTitle (N m)) ;;
  emit EvShow ;;
  ret a.

(** [if __name__ == "__main__"] *)
Definition main : Py Arrays := script 10 300 100 (45 / 100) (16 / 10).

End Script.

(** ** Shapes and index notation *)

Definition is_matrix {A : Type} (r c : nat) (M : list (list A)) : Prop :=
  length M = r /\ Forall (fun row => length row = c) M.

(** entry (i, j) of a 2-D tensor *)
Definition entry (M : Matrix) (i j : nat) : R := nth j (nth i M []) 0.

Definition symmetric (M : Matrix) : Prop :=
  forall i j, entry M i j = entry M j i.

(** sum of f over lo <= n < lo + len *)
Definition Sigma (lo len : nat) (f : nat -> R) : R := vsum (map f (seq lo len)).

(** ** The perturbation formula, as the docstring writes it

    chi_F = sum over n <> 0 of <psi_n| dH/dg |psi_0>^2 / (E_0 - E_n)^2,
    for d levels, eigenvalues [Es], eigenvectors the columns of [psis] and
    dH/dg the matrix [P]. *)

(** component i of the n-th eigenvector *)
Definition psi (psis : Matrix) (n i : nat) : R := entry psis i n.

(** <psi_n| P |psi_0> *)
Definition bracket (d : nat) (psis P : Matrix) (n : nat) : R :=
  Sigma 0 d (fun i => Sigma 0 d (fun j => psi psis n i * entry P i j * psi psis 0 j)).

Definition chiF_formula (d : nat) (Es : Vec) (psis P : Matrix) : R :=
  Sigma 1 (d - 1)
    (fun n => sqr (bracket d psis P n) / sqr (nth 0 Es 0 - nth n Es 0)).

(** no excited level has the ground energy *)
Definition nondegenerate (d : nat) (Es : Vec) : Prop :=
  forall n, (1 <= n < d)%nat -> nth n Es 0 <> nth 0 Es 0.

(** ** Index notation for vectors and operators of dimension d *)

(** (M v)_i and <u|v> *)
Definition mv (d : nat) (M : nat -> nat -> R) (v : nat -> R) (i : nat) : R :=
  Sigma 0 d (fun j => M i j * v j).
Definition ip (d : nat) (u v : nat -> R) : R := Sigma 0 d (fun i => u i * v i).

(** a 1-D tensor as a function of the index *)
Definition at_ (v : Vec) (i : nat) : R := nth i v 0.

(** the eigen-equation M(g) a(g) = e(g) a(g), order by order in g: [M0],
    [M1], [M2] are the operator and its first two derivatives, likewise
    [e0], [e1], [e2] and [a], [a1], [a2] *)
Definition eigen_order0 (d : nat) (M0 : nat -> nat -> R) (e0 : R) (a : nat -> R) : Prop :=
  forall i, (i < d)%nat -> mv d M0 a i = e0 * a i.
Definition eigen_order1 (d : nat) (M0 M1 : nat -> nat -> R) (e0 e1 : R)
    (a a1 : nat -> R) : Prop :=
  forall i, (i < d)%nat -> mv d M1 a i + mv d M0 a1 i = e1 * a i + e0 * a1 i.
Definition eigen_order2 (d : nat) (M0 M1 M2 : nat -> nat -> R) (e0 e1 e2 : R)
    (a a1 a2 : nat -> R) : Prop :=
  forall i, (i < d)%nat ->
    mv d M2 a i + 2 * mv d M1 a1 i + mv d M0 a2 i
    = e2 * a i + 2 * (e1 * a1 i) + e0 * a2 i.

(** the level e0 is not degenerate: its eigenvectors are the multiples of
    one of them *)
Definition simple_level (d : nat) (M0 : nat -> nat -> R) (e0 : R) : Prop :=
  forall u v, eigen_order0 d M0 e0 u -> eigen_order0 d M0 e0 v -> ip d u u <> 0 ->
    exists c, forall i, (i < d)%nat -> v i = c * u i.

(** no level lies below e0 *)
Definition lowest_level (d : nat) (M0 : nat -> nat -> R) (e0 : R) : Prop :=
  forall e v, ip d v v <> 0 -> eigen_order0 d M0 e v -> e0 <= e.

(** ** The contracts of the primitives *)

(** the first and the second derivative of a 2-D graph tensor *)
Definition mderiv1 (H : list (list J2)) : Matrix := map (map jd1) H.
Definition mderiv2 (H : list (list J2)) : Matrix := map (map jd2) H.

(** Modelled from the spec: the eigenvector that [DominantSymeig] and
    [DominantSparseSymeig] return, whose code is not among the sources, has
    unit norm whatever g is: as a graph tensor, t . t = 1. *)
Definition unit_norm (t : list J2) : Prop := jdot t t = mkJ 1 0 0.

(** Modelled from the spec: the contract of [DominantSymeig] and
    [DominantSparseSymeig], whose code is not among the sources.  The
    primitive returns an eigenvalue and an eigenvector of unit norm of the
    operator, with a differentiation rule with respect to g: as graph
    tensors in g, (E, t) satisfies H t = E t and t . t = 1, so the jets do. *)
Definition eigenjet (d : nat) (H : list (list J2)) (E : J2) (t : list J2) : Prop :=
  length t = d /\ jmatvec H t = map (jmul E) t /\ unit_norm t.

(** Modelled from the spec: the eigenvalue returned is the ground energy,
    the smallest eigenvalue of the operator [A]. *)
Definition lowest (d : nat) (A : Vec -> Vec) (E0 : R) : Prop :=
  forall E v, length v = d -> dot v v <> 0 -> A v = vscale E v -> E0 <= E.

(** the ground level of the matrix [H] is not degenerate *)
Definition simple (d : nat) (H : Matrix) (E0 : R) : Prop :=
  forall u v, length u = d -> length v = d ->
    matvec H u = vscale E0 u -> matvec H v = vscale E0 v -> dot u u <> 0 ->
    exists c, v = vscale c u.

(** Modelled from the spec: the contract of [CGSubspaceSparse], whose code
    is not among the sources.  The primitive returns the solution x of
    (A - E0) x = b in the subspace orthogonal to psi0. *)
Definition cg_solution (A : Vec -> Vec) (E0 : R) (b psi0 x : Vec) : Prop :=
  length x = length psi0 /\ vsub (A x) (vscale E0 x) = b /\ dot psi0 x = 0.

(** ** Names for what the evaluators compute *)

(** the overlap [psi0.detach().matmul(psi0)] and what the two reverse
    passes leave of its logarithm *)
Definition overlap (psi0 : list J2) : J2 := cdot (map detach psi0) psi0.
Definition chiF_AD (psi0 : list J2) : R := - jd2 (jlog (overlap psi0)).

Section Named.

Context {L : Imports}.

(** the right-hand side handed to the linear solver *)
Definition rhs (m : Model) (psi0 : Vec) : Vec :=
  let b := vneg (model_pHpg m psi0) in
  vsub b (vscale (dot psi0 b) psi0).

End Named.

(** the jets, at x, of a 1-D tensor whose component i is the function
    [f i] of g, with derivative [f1 i] and second derivative [f2 i] *)
Definition jet_at (f f1 f2 : nat -> R -> R) (d : nat) (x : R) : list J2 :=
  map (fun i => mkJ (f i x) (f1 i x) (f2 i x)) (seq 0 d).

(** symbolic execution of the monad *)
Ltac run :=
  repeat (unfold bind, ret, raise, get_model, put_model, get_lanczos, put_lanczos,
                 emit, attr, call, index, column, setpHpg, setHmatrix; simpl).

(** a store whose index is known to be in range *)
Ltac step_store :=
  match goal with
  | H : (?i < length ?a)%nat |- context [(?i <? length ?a)%nat] =>
      rewrite (proj2 (Nat.ltb_lt i (length a)) H)
  end.

(** ** One grid point, as a function of the grid value

    What the four evaluators return at the grid value x, for a model built
    with construction parameters n and d and truncation k: nothing else
    enters. *)
Section Point.

Context {L : Imports}.

(** the model after the evaluators have run at x *)
Definition point_model (n d : nat) (x : R) : Model :=
  let t := leaf (float32 x) in
  mkModel n d t (Some (Hmatrix_of n d t)) (Some (pHpgmatrix_of n d t)).

Definition point_wiring : Wiring := mkWiring model_H model_Hadjoint_to_gadjoint.

Definition point_values (n d k : nat) (x : R) : Result (float * float * float * float) :=
  let t := leaf (float32 x) in
  let m := point_model n d x in
  match symeig (mvalues (Hmatrix_of n d t)) with
  | Raise e => Raise e
  | Ok (Es, psis) =>
    if (0 <? ncols psis)%nat then
      match Es with
      | [] => Raise IndexError
      | E0 :: _ =>
        match DominantSymeig_apply (Hmatrix_of n d t) k with
        | Raise e => Raise e
        | Ok (_, psi0d) =>
          match DominantSparseSymeig_apply (model_H m) (model_Hadjoint_to_gadjoint m)
                                           t k d with
          | Raise e => Raise e
          | Ok (E0s, psi0s) =>
            match CGSubspaceSparse_apply
                    (Some (model_H m, model_Hadjoint_to_gadjoint m)) t (jv E0s)
                    (rhs m (map jv psi0s)) (map jv psi0s) with
            | Raise e => Raise e
            | Ok dpsi0 =>
              Ok (fsum (vdiv (numerators (col 0 psis) (pHpgmatrix_of n d t) psis)
                             (denominators E0 Es)),
                  Real (chiF_AD psi0d), Real (chiF_AD psi0s), Real (dot dpsi0 dpsi0))
            end
          end
        end
      end
    else Raise IndexError
  end.

(** the calls and the console line of one grid point, in program order *)
Definition point_events (k d : nat) (x : R) (c : float * float * float * float)
  : list Event :=
  let '(c1, c2, c3, c4) := c in
  [EvSetG (float32 x); EvRequiresGrad; EvSetHmatrix;
   EvSymeig; EvSetpHpg;
   EvDominantSymeig k; EvGrad true; EvGrad false;
   EvSetDominantSparseSymeig; EvDominantSparseSymeig k d; EvGrad true; EvGrad false;
   EvCG;
   EvPrint (print_line x c1 c2 c3 c4)].

(** cell i of the four arrays *)
Definition cells (i : nat) (a : Arrays) : float * float * float * float :=
  (nth i (chiFs_perturbation a) NotReal, nth i (chiFs_matrixAD a) NotReal,
   nth i (chiFs_sparseAD a) NotReal, nth i (chiFs_geometric a) NotReal).

(** what a run of the loop body leaves in cell i, or the exception *)
Definition values (i : nat) (r : Result Arrays * World)
  : Result (float * float * float * float) :=
  match fst r with
  | Ok a => Ok (cells i a)
  | Raise e => Raise e
  end.

Definition in_bounds (i : nat) (a : Arrays) : Prop :=
  (i < length (chiFs_perturbation a))%nat /\ (i < length (chiFs_matrixAD a))%nat /\
  (i < length (chiFs_sparseAD a))%nat /\ (i < length (chiFs_geometric a))%nat.

(** cell i written in the four arrays *)
Definition write_cells (i : nat) (c : float * float * float * float) (a : Arrays)
  : Arrays :=
  let '(c1, c2, c3, c4) := c in
  mkArrays (array_set (chiFs_perturbation a) i c1) (array_set (chiFs_matrixAD a) i c2)
           (array_set (chiFs_sparseAD a) i c3) (array_set (chiFs_geometric a) i c4).

(** the four arrays that hold [c i] in cell i *)
Definition table (c : nat -> float * float * float * float) (n : nat) : Arrays :=
  mkArrays (map (fun i => fst (fst (fst (c i)))) (seq 0 n))
           (map (fun i => snd (fst (fst (c i)))) (seq 0 n))
           (map (fun i => snd (fst (c i))) (seq 0 n))
           (map (fun i => snd (c i)) (seq 0 n)).

(** the figure: four labelled curves, the axis labels and the title,
    which names the N of the model *)
Definition plots (n : nat) (gs : list R) (a : Arrays) : list Event :=
  [EvPlot gs (chiFs_perturbation a) "perturbation";
   EvPlot gs (chiFs_matrixAD a) "AD: normal representation";
   EvPlot gs (chiFs_sparseAD a) "AD: sparse representation";
   EvPlot gs (chiFs_geometric a) "Forward AD";
   EvLegend; EvXlabel "$g$"; EvYlabel "$\chi_F$"; EvTitle n;
   EvShow].

End Point.

Section PointValues.

Context {L : Imports}.

(** the values of grid point i, when every collaborator answers there *)
Definition vals_of (n d k : nat) (gs : list R) (i : nat)
  : float * float * float * float :=
  match point_values n d k (nth i gs 0) with
  | Ok c => c
  | Raise _ => (NotReal, NotReal, NotReal, NotReal)
  end.

End PointValues.

(** the console: the printed lines, in order *)
Fixpoint console (evs : list Event) : list (list Item) :=
  match evs with
  | [] => []
  | EvPrint line :: rest => line :: console rest
  | _ :: rest => console rest
  end.

(** in a list of calls, the sparse primitive is applied only after the
    setup call ([configured] tells whether it has been seen already) *)
Fixpoint setup_before_apply (configured : bool) (evs : list Event) : bool :=
  match evs with
  | [] => true
  | EvSetDominantSparseSymeig :: rest => setup_before_apply true rest
  | EvDominantSparseSymeig _ _ :: rest => configured && setup_before_apply configured rest
  | _ :: rest => setup_before_apply configured rest
  end.

(** ** A two-level instance

    H(g) = diag(-1, 1) + g sigma_x at g = 0: the levels are -1 and 1, the
    ground state is (1, 0), and to second order in g the ground state is
    (1 - g^2/8, -g/2) with energy -1 - g^2/2. *)
Module Toy.

Definition H (t : J2) : list (list J2) := [[mkJ (-1) 0 0; t]; [t; mkJ 1 0 0]].
Definition P : Matrix := [[0; 1]; [1; 0]].
Definition E0 : J2 := mkJ (-1) 0 (-1).
Definition psi0 : list J2 := [mkJ 1 0 (- (1 / 4)); mkJ 0 (- (1 / 2)) 0].
Definition identity : Matrix := [[1; 0]; [0; 1]].

Definition imports : Imports :=
  mkImports
    (fun x => x)
    (fun _ _ => NotReal)
    (fun n => mkModel n 2 (leaf 0) None None)
    (fun _ _ t => H t)
    (fun _ _ _ => P)
    (fun _ _ t v => matvec (mvalues (H t)) v)
    (fun _ _ _ v => matvec P v)
    (fun _ _ _ v1 v2 => dot (matvec P v2) v1)
    (fun M => Ok ([entry M 0 0; entry M 1 1], identity))
    (fun _ _ => Ok (E0, psi0))
    (fun _ _ _ _ _ => Ok (E0, psi0))
    (fun _ _ _ _ _ => Ok [0; - (1 / 2)]).

Definition world : World :=
  mkWorld (mkModel 1 2 (leaf 0) (Some (H (leaf 0))) None) None [].

(** the same instance with a sparse primitive that returns the ground
    state with the other sign *)
Definition flipped : Imports :=
  mkImports
    (fun x => x)
    (fun _ _ => NotReal)
    (fun n => mkModel n 2 (leaf 0) None None)
    (fun _ _ t => H t)
    (fun _ _ _ => P)
    (fun _ _ t v => matvec (mvalues (H t)) v)
    (fun _ _ _ v => matvec P v)
    (fun _ _ _ v1 v2 => dot (matvec P v2) v1)
    (fun M => Ok ([entry M 0 0; entry M 1 1], identity))
    (fun _ _ => Ok (E0, psi0))
    (fun _ _ _ _ _ => Ok (E0, map (jscale (-1)) psi0))
    (fun _ _ _ _ _ => Ok [0; 1 / 2]).

(** a model whose two levels coincide *)
Definition degenerate : World :=
  mkWorld (mkModel 1 2 (leaf 0) (Some [[jzero; jzero]; [jzero; jzero]]) None) None [].

End Toy.

(** ** Lines 20 and 21 in binary64

    [(Es[0] - Es[1:]) ** 2], the quotients and their sum over the float64
    numbers themselves, with the subtraction, the product and the division
    of IEEE 754. *)
Module Binary64.

Import PrimFloat.

Definition float64 : Set := PrimFloat.float.

Definition zero : float64 := 0%float.
Definition one : float64 := 1%float.
(** 2^-600, a float64 whose square is below the smallest float64 *)
Definition tiny : float64 := 0x1p-600%float.

Definition denominators64 (E0 : float64) (Es : list float64) : list float64 :=
  map (fun e => let d := PrimFloat.sub E0 e in PrimFloat.mul d d) (from1 Es).
Definition vdiv64 (u v : list float64) : list float64 := map2 PrimFloat.div u v.
Definition sum64 (l : list float64) : float64 := fold_right PrimFloat.add zero l.

End Binary64.

(** ** A degenerate instance

    H(g) = 0 on two levels: every vector is a ground state.  The dense
    primitive returns the constant (1, 0), the sparse one the rotating
    (sin g, cos g) at g = 0; both are eigenvectors of unit norm for every
    g.  In [growing] the dense primitive returns (1 + g^2/2, 0), whose norm
    is 1 at g = 0 only. *)
Module Crossing.

Definition H : list (list J2) := [[jzero; jzero]; [jzero; jzero]].
Definition td : list J2 := [mkJ 1 0 0; mkJ 0 0 0].
Definition ts : list J2 := [mkJ 0 1 0; mkJ 1 0 (-1)].

Definition imports : Imports :=
  mkImports
    (fun x => x)
    (fun _ _ => NotReal)
    (fun n => mkModel n 2 (leaf 0) None None)
    (fun _ _ _ => H)
    (fun _ _ _ => Toy.identity)
    (fun _ _ _ v => matvec (mvalues H) v)
    (fun _ _ _ v => v)
    (fun _ _ _ v1 v2 => dot v2 v1)
    (fun M => Ok ([entry M 0 0; entry M 1 1], Toy.identity))
    (fun _ _ => Ok (jzero, td))
    (fun _ _ _ _ _ => Ok (jzero, ts))
    (fun _ _ _ _ _ => Ok [0; 0]).

Definition growing : Imports :=
  mkImports
    (fun x => x)
    (fun _ _ => NotReal)
    (fun n => mkModel n 2 (leaf 0) None None)
    (fun _ _ _ => H)
    (fun _ _ _ => Toy.identity)
    (fun _ _ _ v => matvec (mvalues H) v)
    (fun _ _ _ v => v)
    (fun _ _ _ v1 v2 => dot v2 v1)
    (fun M => Ok ([entry M 0 0; entry M 1 1], Toy.identity))
    (fun _ _ => Ok (jzero, [mkJ 1 0 1; mkJ 0 0 0]))
    (fun _ _ _ _ _ => Ok (jzero, ts))
    (fun _ _ _ _ _ => Ok [0; 0]).

Definition world : World :=
  mkWorld (mkModel 1 2 (leaf 0) (Some H) None) None [].

End Crossing.

(** ** Further names, for the properties of the evaluators and the sweep *)

(** lines 16 and 19-21: the value of [chiF_perturbation], from what
    [symeig] has returned and the matrix [P] that [setpHpg] has stored *)
Definition perturbation_value (Es : Vec) (psis P : Matrix) : float :=
  fsum (vdiv (numerators (col 0 psis) P psis) (denominators (nth 0 Es 0) Es)).

(** column j of a 2-D tensor multiplied by the j-th of the signs: the
    same eigenvectors with other signs *)
Definition flip_columns (signs : Vec) (M : Matrix) : Matrix :=
  map (map2 Rmult signs) M.

(** [c * M] and [c * x] *)
Definition mscale (c : R) (M : Matrix) : Matrix := map (vscale c) M.
Definition fscale (c : R) (x : float) : float :=
  match x with
  | Real a => Real (c * a)
  | NotReal => NotReal
  end.

(** line 62: [b - torch.matmul(psi0, b) * psi0] *)
Definition project (psi0 b : Vec) : Vec := vsub b (vscale (dot psi0 b) psi0).

(** an event that is a call into a collaborator: it writes neither on the
    console nor in the figure *)
Definition quiet (e : Event) : bool :=
  match e with
  | EvSetG _ | EvRequiresGrad | EvSetHmatrix | EvSetpHpg | EvSymeig
  | EvDominantSymeig _ | EvSetDominantSparseSymeig | EvDominantSparseSymeig _ _
  | EvGrad _ | EvCG => true
  | _ => false
  end.

(** ** Two more instances

    A one-level model, and collaborators that fail. *)
Module OneLevel.

Definition imports : Imports :=
  mkImports
    (fun x => x)
    (fun _ _ => NotReal)
    (fun n => mkModel n 1 (leaf 0) None None)
    (fun _ _ t => [[t]])
    (fun _ _ _ => [[1]])
    (fun _ _ t v => matvec [[jv t]] v)
    (fun _ _ _ v => v)
    (fun _ _ _ v1 v2 => dot v2 v1)
    (fun M => Ok ([entry M 0 0], [[1]]))
    (fun _ _ => Ok (leaf 0, [mkJ 1 0 0]))
    (fun _ _ _ _ _ => Ok (leaf 0, [mkJ 1 0 0]))
    (fun _ _ _ _ _ => Ok [0]).

Definition world : World :=
  mkWorld (mkModel 1 1 (leaf 0) (Some [[leaf 0]]) None) None [].

End OneLevel.

(** the two-level instance with a float32 so coarse that every grid value
    is narrowed to zero *)
Module Coarse.

Definition imports : Imports :=
  mkImports
    (fun _ => 0)
    (fun _ _ => NotReal)
    (fun n => mkModel n 2 (leaf 0) None None)
    (fun _ _ t => Toy.H t)
    (fun _ _ _ => Toy.P)
    (fun _ _ t v => matvec (mvalues (Toy.H t)) v)
    (fun _ _ _ v => matvec Toy.P v)
    (fun _ _ _ v1 v2 => dot (matvec Toy.P v2) v1)
    (fun M => Ok ([entry M 0 0; entry M 1 1], Toy.identity))
    (fun _ _ => Ok (Toy.E0, Toy.psi0))
    (fun _ _ _ _ _ => Ok (Toy.E0, Toy.psi0))
    (fun _ _ _ _ _ => Ok [0; - (1 / 2)]).

End Coarse.

Module Failing.

Definition imports : Imports :=
  mkImports
    (fun x => x)
    (fun _ _ => NotReal)
    (fun n => mkModel n 2 (leaf 0) None None)
    (fun _ _ t => Toy.H t)
    (fun _ _ _ => Toy.P)
    (fun _ _ t v => matvec (mvalues (Toy.H t)) v)
    (fun _ _ _ v => matvec Toy.P v)
    (fun _ _ _ v1 v2 => dot (matvec Toy.P v2) v1)
    (fun _ => Raise RuntimeError)
    (fun _ _ => Raise RuntimeError)
    (fun _ _ _ _ _ => Raise RuntimeError)
    (fun _ _ _ _ _ => Raise RuntimeError).

(** a diagonalisation that returns nothing *)
Definition empty : Imports :=
  mkImports
    (fun x => x)
    (fun _ _ => NotReal)
    (fun n => mkModel n 0 (leaf 0) None None)
    (fun _ _ _ => [])
    (fun _ _ _ => [])
    (fun _ _ _ v => v)
    (fun _ _ _ v => v)
    (fun _ _ _ _ _ => 0)
    (fun _ => Ok ([], []))
    (fun _ _ => Raise RuntimeError)
    (fun _ _ _ _ _ => Raise RuntimeError)
    (fun _ _ _ _ _ => Raise RuntimeError).

Definition world : World :=
  mkWorld (mkModel 1 0 (leaf 0) (Some []) None) None [].

(** the two-level instance with a diagonalisation that fails as soon as g
    is not zero *)
Definition late : Imports :=
  mkImports
    (fun x => x)
    (fun _ _ => NotReal)
    (fun n => mkModel n 2 (leaf 0) None None)
    (fun _ _ t => Toy.H t)
    (fun _ _ _ => Toy.P)
    (fun _ _ t v => matvec (mvalues (Toy.H t)) v)
    (fun _ _ _ v => matvec Toy.P v)
    (fun _ _ _ v1 v2 => dot (matvec Toy.P v2) v1)
    (fun M => if Req_dec_T (entry M 0 1) 0
              then Ok ([entry M 0 0; entry M 1 1], Toy.identity)
              else Raise RuntimeError)
    (fun _ _ => Ok (Toy.E0, Toy.psi0))
    (fun _ _ _ _ _ => Ok (Toy.E0, Toy.psi0))
    (fun _ _ _ _ _ => Ok [0; - (1 / 2)]).

End Failing.

(** ** The outcome of the sweep *)

(** the first exception in a list of outcomes *)
Fixpoint first_error {A : Type} (rs : list (Result A)) : option Exn :=
  match rs with
  | [] => None
  | Ok _ :: rest => first_error rest
  | Raise e :: _ => Some e
  end.

Section Outcome.

Context {L : Imports}.

(** what the loop of the script leaves, read off the grid: the exception
    of the first grid point that has one, the table of the values
    otherwise *)
Definition sweep_result (n d k : nat) (gs : list R) : Result Arrays :=
  match first_error (map (point_values n d k) gs) with
  | Some e => Raise e
  | None => Ok (table (vals_of n d k gs) (length gs))
  end.

End Outcome.

(** * Properties *)

Section Algebra.

Lemma map2_length {A B C : Type} (f : A -> B -> C) (u : list A) (v : list B) :
  length u = length v -> length (map2 f u v) = length u.
Proof.
  revert v; induction u as [|a u IH]; intros [|b v] E; simpl in *; try lia.
  rewrite IH; lia.
Qed.

Lemma map2_map {A B C X : Type} (f : A -> B -> C) (a : X -> A) (b : X -> B) (l : list X) :
  map2 f (map a l) (map b l) = map (fun x => f (a x) (b x)) l.
Proof. induction l as [|x l IH]; simpl; [reflexivity | now rewrite IH]. Qed.

(** a list is the table of its entries *)
Lemma list_as_table {A : Type} (d0 : A) (l : list A) :
  l = map (fun i => nth i l d0) (seq 0 (length l)).
Proof.
  induction l as [|x l IH]; simpl; [reflexivity|].
  f_equal. rewrite <- seq_shift, map_map. exact IH.
Qed.

Lemma from1_map_seq {A : Type} (f : nat -> A) (d : nat) :
  from1 (map f (seq 0 d)) = map f (seq 1 (d - 1)).
Proof.
  destruct d as [|d]; simpl; [reflexivity|].
  now rewrite Nat.sub_0_r.
Qed.

Lemma from1_table (d : nat) (l : Vec) :
  length l = d -> from1 l = map (fun n => nth n l 0) (seq 1 (d - 1)).
Proof.
  intros <-. rewrite <- from1_map_seq. f_equal. apply list_as_table.
Qed.

Lemma vsum_ext_seq (f h : nat -> R) (lo len : nat) :
  (forall n, (lo <= n < lo + len)%nat -> f n = h n) ->
  Sigma lo len f = Sigma lo len h.
Proof.
  unfold Sigma. revert lo; induction len as [|len IH]; intros lo E; simpl; [reflexivity|].
  rewrite E by lia. f_equal. apply IH. intros n Hn. apply E. lia.
Qed.

Lemma Sigma_scale (c : R) (f : nat -> R) (lo len : nat) :
  Sigma lo len (fun n => c * f n) = c * Sigma lo len f.
Proof.
  unfold Sigma. revert lo; induction len as [|len IH]; intros lo; simpl; [ring|].
  rewrite IH. ring.
Qed.

Lemma Sigma_scale_r (c : R) (f : nat -> R) (lo len : nat) :
  Sigma lo len (fun n => f n * c) = Sigma lo len f * c.
Proof.
  unfold Sigma. revert lo; induction len as [|len IH]; intros lo; simpl; [ring|].
  rewrite IH. ring.
Qed.

(** the product of two 1-D tensors of length d, entry by entry *)
Lemma dot_Sigma (d : nat) (u v : Vec) :
  length u = d -> length v = d ->
  dot u v = Sigma 0 d (fun i => nth i u 0 * nth i v 0).
Proof.
  intros Hu Hv. unfold dot, Sigma.
  rewrite (list_as_table 0 u) at 1. rewrite (list_as_table 0 v) at 1.
  rewrite Hu, Hv, map2_map. reflexivity.
Qed.

Lemma col_length (j : nat) (M : Matrix) : length (col j M) = length M.
Proof. apply length_map. Qed.

Lemma nth_col (j i : nat) (M : Matrix) : nth i (col j M) 0 = entry M i j.
Proof.
  unfold col, entry. revert i; induction M as [|row M IH]; intros [|i]; simpl; auto.
  all: destruct j; reflexivity.
Qed.

Lemma ncols_is_matrix (r c : nat) (M : Matrix) :
  is_matrix r c M -> (0 < r)%nat -> ncols M = c.
Proof.
  intros [Hr Hc] Hpos. destruct M as [|row M]; simpl in *; [lia|].
  now inversion Hc.
Qed.

End Algebra.

Section Perturbation.

Lemma nth_map_seq (f : nat -> R) (d j : nat) :
  (j < d)%nat -> nth j (map f (seq 0 d)) 0 = f j.
Proof.
  intros Hj. rewrite (nth_indep _ 0 (f 0%nat)) by (rewrite length_map, length_seq; exact Hj).
  rewrite (map_nth f), seq_nth by exact Hj. reflexivity.
Qed.

(** <psi_0| P applied on the left, then paired with psi_n, is the bracket
    of the formula when P is symmetric *)
Lemma code_bracket (d : nat) (psis P : Matrix) (n : nat) :
  (0 < d)%nat -> is_matrix d d psis -> is_matrix d d P -> symmetric P ->
  dot (vecmat (col 0 psis) P) (col n psis) = bracket d psis P n.
Proof.
  intros Hd Hpsis HP Hsym.
  assert (HcP : ncols P = d) by (eapply ncols_is_matrix; eauto).
  rewrite (dot_Sigma (d:=d)).
  2:{ unfold vecmat. now rewrite length_map, length_seq. }
  2:{ rewrite col_length. apply Hpsis. }
  unfold bracket. apply vsum_ext_seq. intros j Hj.
  unfold vecmat. rewrite HcP, nth_map_seq by lia.
  rewrite nth_col.
  rewrite (dot_Sigma (d:=d)).
  2:{ rewrite col_length. apply Hpsis. }
  2:{ rewrite col_length. apply HP. }
  rewrite <- Sigma_scale_r. apply vsum_ext_seq. intros i Hi.
  rewrite !nth_col. unfold psi. rewrite (Hsym j i). ring.
Qed.

Lemma fsum_real (a b : nat -> R) (l : list nat) :
  (forall n, In n l -> b n <> 0) ->
  fsum (map (fun n => fdiv (a n) (b n)) l) = Real (vsum (map (fun n => a n / b n) l)).
Proof.
  induction l as [|n l IH]; intros Hb; simpl; [reflexivity|].
  rewrite IH by (intros; apply Hb; now right).
  unfold fdiv. destruct (Req_dec_T (b n) 0) as [E|_]; [|reflexivity].
  exfalso. apply (Hb n); [now left | exact E].
Qed.

Lemma fsum_not_real (l : list float) : In NotReal l -> fsum l = NotReal.
Proof.
  induction l as [|x l IH]; simpl; [tauto|].
  intros [->|Hin]; [reflexivity|].
  rewrite (IH Hin). now destruct x.
Qed.

Lemma sqr_diff_zero (x y : R) : sqr (x - y) = 0 <-> y = x.
Proof.
  unfold sqr. split; [intros E | intros ->; ring].
  assert (x - y = 0) by nra. lra.
Qed.

(** lines 19-21 of the script, index by index *)
Lemma perturbation_quotients (d : nat) (Es : Vec) (psis P : Matrix) :
  (0 < d)%nat -> length Es = d -> is_matrix d d psis -> is_matrix d d P ->
  symmetric P ->
  vdiv (numerators (col 0 psis) P psis) (denominators (nth 0 Es 0) Es)
  = map (fun n => fdiv (sqr (bracket d psis P n)) (sqr (nth 0 Es 0 - nth n Es 0)))
        (seq 1 (d - 1)).
Proof.
  intros Hd HEs Hpsis HP Hsym.
  assert (Hc : ncols psis = d) by (eapply ncols_is_matrix; eauto).
  unfold numerators, denominators.
  unfold vecmat at 1. rewrite Hc, from1_map_seq, (@from1_table d Es HEs).
  unfold vdiv, vpow2, ssub. rewrite !map_map, map2_map.
  apply map_ext_in. intros n Hn.
  rewrite (@code_bracket d) by assumption. reflexivity.
Qed.

(** they compute the formula when no denominator is zero *)
Lemma perturbation_sum (d : nat) (Es : Vec) (psis P : Matrix) :
  (0 < d)%nat -> length Es = d -> is_matrix d d psis -> is_matrix d d P ->
  symmetric P -> nondegenerate d Es ->
  fsum (vdiv (numerators (col 0 psis) P psis) (denominators (nth 0 Es 0) Es))
  = Real (chiF_formula d Es psis P).
Proof.
  intros Hd HEs Hpsis HP Hsym Hnd.
  rewrite (@perturbation_quotients d) by assumption.
  rewrite fsum_real; [reflexivity|].
  intros n Hn%in_seq E. apply (proj1 (sqr_diff_zero _ _)) in E.
  apply (Hnd n); [lia | exact E].
Qed.

End Perturbation.

Section Evaluators.

Context {L : Imports}.

(** what [chiF_perturbation] does once the spectrum is known *)
Lemma chiF_perturbation_run (w : World) (H : list (list J2)) (Es : Vec)
    (psis : Matrix) (E0 : R) :
  Hmatrix (model w) = Some H ->
  symeig (mvalues H) = Ok (Es, psis) ->
  (0 < ncols psis)%nat ->
  nth_error Es 0 = Some E0 ->
  let m := model w in
  let P := pHpgmatrix_of (N m) (dim m) (g m) in
  chiF_perturbation w =
  (Ok (fsum (vdiv (numerators (col 0 psis) P psis) (denominators E0 Es))),
   mkWorld (with_pHpgmatrix P m) (lanczos w) (trace w ++ [EvSymeig; EvSetpHpg])).
Proof.
  intros HH Hs Hc HE m P. unfold chiF_perturbation. run.
  rewrite HH. run. rewrite Hs. run.
  destruct (Nat.ltb_spec 0 (ncols psis)) as [_|]; [|lia]. run.
  destruct Es as [|e Es]; inversion HE; subst e. run.
  rewrite <- app_assoc. reflexivity.
Qed.

Lemma vecmat_length (v : Vec) (M : Matrix) : length (vecmat v M) = ncols M.
Proof. unfold vecmat. now rewrite length_map, length_seq. Qed.

Lemma numerators_length (psi0 : Vec) (P psis : Matrix) :
  length (numerators psi0 P psis) = (ncols psis - 1)%nat.
Proof.
  unfold numerators, vpow2, from1.
  now rewrite length_map, length_skipn, vecmat_length.
Qed.

Lemma denominators_length (E0 : R) (Es : Vec) :
  length (denominators E0 Es) = (length Es - 1)%nat.
Proof.
  unfold denominators, vpow2, ssub, from1.
  now rewrite !length_map, length_skipn.
Qed.

(** the sum of the quotients is a real number exactly when no denominator
    is zero *)
Lemma fsum_vdiv_real (u v : Vec) :
  length u = length v ->
  (exists c, fsum (vdiv u v) = Real c) <-> Forall (fun x => x <> 0) v.
Proof.
  unfold vdiv.
  revert v; induction u as [|a u IH]; intros [|b v] E; simpl in E; try lia.
  - split; [constructor | exists 0; reflexivity].
  - specialize (IH v ltac:(lia)).
    change (fsum (map2 fdiv (a :: u) (b :: v)))
      with (fadd (fdiv a b) (fsum (map2 fdiv u v))).
    unfold fdiv at 1. destruct (Req_dec_T b 0) as [Hb|Hb].
    + split; [intros [c Hc]; simpl in Hc; discriminate Hc | intros Hf; inversion Hf; tauto].
    + destruct (fsum (map2 fdiv u v)) as [s|]; simpl.
      * split; [intros _ | intros _; now eexists].
        constructor; [exact Hb|]. apply IH. now exists s.
      * split; [intros [c Hc]; discriminate Hc|].
        intros Hf. inversion Hf as [|? ? _ Hv]; subst.
        apply IH in Hv as [s Hs]. discriminate Hs.
Qed.

Lemma denominators_nonzero (d : nat) (Es : Vec) :
  length Es = d ->
  Forall (fun x => x <> 0) (denominators (nth 0 Es 0) Es) <-> nondegenerate d Es.
Proof.
  intros HEs. unfold denominators, vpow2, ssub.
  rewrite (@from1_table d Es HEs), !map_map.
  rewrite Forall_forall. unfold nondegenerate. split.
  - intros Hf n Hn E. apply (Hf (sqr (nth 0 Es 0 - nth n Es 0))).
    + apply in_map_iff. exists n. split; [reflexivity | apply in_seq; lia].
    + now apply sqr_diff_zero.
  - intros Hnd x [n [<- Hn%in_seq]]%in_map_iff E.
    apply (proj1 (sqr_diff_zero _ _)) in E. apply (Hnd n); [lia | exact E].
Qed.

Lemma chiF_matrixAD_run (w : World) (H : list (list J2)) (k : nat)
    (E0 : J2) (psi0 : list J2) :
  Hmatrix (model w) = Some H ->
  DominantSymeig_apply H k = Ok (E0, psi0) ->
  chiF_matrixAD k w =
  (Ok (chiF_AD psi0),
   mkWorld (model w) (lanczos w)
           (trace w ++ [EvDominantSymeig k; EvGrad true; EvGrad false])).
Proof.
  intros HH Hp. unfold chiF_matrixAD, autograd_grad, autograd_grad_again. run.
  rewrite HH. run. rewrite Hp. run.
  rewrite <- !app_assoc. reflexivity.
Qed.

Lemma chiF_sparseAD_run (w : World) (k : nat) (E0 : J2) (psi0 : list J2) :
  let m := model w in
  DominantSparseSymeig_apply (model_H m) (model_Hadjoint_to_gadjoint m)
                             (g m) k (dim m) = Ok (E0, psi0) ->
  chiF_sparseAD k w =
  (Ok (E0, psi0, chiF_AD psi0),
   mkWorld m (Some (mkWiring model_H model_Hadjoint_to_gadjoint))
           (trace w ++ [EvSetDominantSparseSymeig; EvDominantSparseSymeig k (dim m);
                        EvGrad true; EvGrad false])).
Proof.
  intros m Hp.
  unfold chiF_sparseAD, setDominantSparseSymeig, dominant_sparse_symeig,
    autograd_grad, autograd_grad_again. run.
  fold m. rewrite Hp. run.
  rewrite <- !app_assoc. reflexivity.
Qed.

Lemma chiF_geometric_run (w : World) (E0 : J2) (psi0 : list J2) (x : Vec) :
  let m := model w in
  CGSubspaceSparse_apply (configured w) (g m) (jv E0) (rhs m (map jv psi0))
                         (map jv psi0) = Ok x ->
  chiF_geometric E0 psi0 w =
  (Ok (dot x x), mkWorld m (lanczos w) (trace w ++ [EvCG])).
Proof.
  intros m Hp. subst m. unfold chiF_geometric, cg. run.
  unfold rhs, configured in *. simpl in *. rewrite Hp. reflexivity.
Qed.

(** *** What each evaluator writes, whatever its outcome *)

Lemma chiF_perturbation_frame (w : World) :
  let m := model w in
  let w' := snd (chiF_perturbation w) in
  N (model w') = N m /\ dim (model w') = dim m /\ g (model w') = g m /\
  Hmatrix (model w') = Hmatrix m /\ lanczos w' = lanczos w /\
  (pHpgmatrix (model w') = pHpgmatrix m \/
   pHpgmatrix (model w') = Some (pHpgmatrix_of (N m) (dim m) (g m))) /\
  (forall c, fst (chiF_perturbation w) = Ok c ->
             pHpgmatrix (model w') = Some (pHpgmatrix_of (N m) (dim m) (g m))).
Proof.
  unfold chiF_perturbation. run.
  destruct (Hmatrix (model w)) as [H|] eqn:HH; run; [|intuition discriminate].
  destruct (symeig (mvalues H)) as [[Es psis]|e]; run; [|intuition discriminate].
  destruct (0 <? ncols psis)%nat; run; [|intuition discriminate].
  destruct Es as [|E0 Es]; run; rewrite HH; intuition discriminate.
Qed.

Lemma chiF_matrixAD_frame (k : nat) (w : World) :
  let w' := snd (chiF_matrixAD k w) in
  model w' = model w /\ lanczos w' = lanczos w.
Proof.
  unfold chiF_matrixAD, autograd_grad, autograd_grad_again. run.
  destruct (Hmatrix (model w)) as [H|]; run; [|tauto].
  destruct (DominantSymeig_apply H k) as [[E0 psi0]|e]; run; tauto.
Qed.

Lemma chiF_sparseAD_frame (k : nat) (w : World) :
  let w' := snd (chiF_sparseAD k w) in
  model w' = model w /\
  lanczos w' = Some (mkWiring model_H model_Hadjoint_to_gadjoint).
Proof.
  unfold chiF_sparseAD, setDominantSparseSymeig, dominant_sparse_symeig,
    autograd_grad, autograd_grad_again. run.
  destruct (DominantSparseSymeig_apply _ _ _ _ _) as [[E0 psi0]|e]; run; tauto.
Qed.

Lemma chiF_geometric_frame (E0 : J2) (psi0 : list J2) (w : World) :
  let w' := snd (chiF_geometric E0 psi0 w) in
  model w' = model w /\ lanczos w' = lanczos w.
Proof.
  unfold chiF_geometric, cg. run.
  destruct (CGSubspaceSparse_apply _ _ _ _ _) as [x|e]; run; tauto.
Qed.

End Evaluators.

(** ** Jets against derivatives *)

Section Jets.

Lemma cdot_jv (c : Vec) (t : list J2) : jv (cdot c t) = dot c (map jv t).
Proof.
  unfold cdot, dot. revert t; induction c as [|a c IH]; intros [|b t]; simpl; auto.
  now rewrite IH.
Qed.

Lemma cdot_jd1 (c : Vec) (t : list J2) : jd1 (cdot c t) = dot c (map jd1 t).
Proof.
  unfold cdot, dot. revert t; induction c as [|a c IH]; intros [|b t]; simpl; auto.
  now rewrite IH.
Qed.

Lemma cdot_jd2 (c : Vec) (t : list J2) : jd2 (cdot c t) = dot c (map jd2 t).
Proof.
  unfold cdot, dot. revert t; induction c as [|a c IH]; intros [|b t]; simpl; auto.
  now rewrite IH.
Qed.

(** the value and the two derivatives of the overlap: the detached copy
    contributes its values only *)
Lemma overlap_components (psi0 : list J2) :
  overlap psi0 = mkJ (dot (map jv psi0) (map jv psi0))
                     (dot (map jv psi0) (map jd1 psi0))
                     (dot (map jv psi0) (map jd2 psi0)).
Proof.
  unfold overlap, detach.
  rewrite <- cdot_jv, <- cdot_jd1, <- cdot_jd2. now destruct (cdot _ _).
Qed.

(** without [detach] both factors would be differentiated *)
Lemma jdot_components (t : list J2) :
  jdot t t = mkJ (dot (map jv t) (map jv t))
                 (2 * dot (map jv t) (map jd1 t))
                 (2 * dot (map jv t) (map jd2 t) + 2 * dot (map jd1 t) (map jd1 t)).
Proof.
  unfold jdot, dot. induction t as [|a t IH]; simpl.
  - unfold jzero. f_equal; ring.
  - rewrite IH. unfold jadd, jmul. simpl. f_equal; ring.
Qed.

Lemma derivable_pt_lim_eq (f h : R -> R) (x l l' : R) :
  (forall y, f y = h y) -> l = l' ->
  derivable_pt_lim f x l -> derivable_pt_lim h x l'.
Proof.
  intros E <- D eps Heps. destruct (D eps Heps) as [delta Hd].
  exists delta. intros y Hy Hlt. rewrite <- !E. now apply Hd.
Qed.

(** a product with constant coefficients is differentiated term by term *)
Lemma derivable_dot_const (c : Vec) (fs dfs : list (R -> R)) (x : R) :
  Forall2 (fun f df => derivable_pt_lim f x (df x)) fs dfs ->
  derivable_pt_lim (fun y => dot c (map (fun f => f y) fs)) x
                   (dot c (map (fun df => df x) dfs)).
Proof.
  intros HF. revert c. induction HF as [|f df fs dfs Hf HF IH]; intros c.
  - destruct c; apply (derivable_pt_lim_const 0).
  - destruct c as [|a c]; [apply (derivable_pt_lim_const 0)|].
    unfold dot in *. simpl.
    apply (derivable_pt_lim_plus (mult_real_fct a f) _ x).
    + now apply derivable_pt_lim_scal.
    + apply IH.
Qed.

Lemma Forall2_map_seq (lo d : nat) (f df : nat -> R -> R) (x : R) :
  (forall i, derivable_pt_lim (f i) x (df i x)) ->
  Forall2 (fun h dh => derivable_pt_lim h x (dh x))
          (map f (seq lo d)) (map df (seq lo d)).
Proof.
  intros Hf. revert lo; induction d as [|d IH]; intros lo; simpl; constructor; auto.
Qed.

Lemma derivable_dot_seq (c : Vec) (d : nat) (f df : nat -> R -> R) (x : R) :
  (forall i, derivable_pt_lim (f i) x (df i x)) ->
  derivable_pt_lim (fun y => dot c (map (fun i => f i y) (seq 0 d))) x
                   (dot c (map (fun i => df i x) (seq 0 d))).
Proof.
  intros Hf.
  apply (@derivable_pt_lim_eq
           (fun y => dot c (map (fun h => h y) (map f (seq 0 d)))) _ x
           (dot c (map (fun dh => dh x) (map df (seq 0 d)))) _).
  - intros y. now rewrite map_map.
  - now rewrite map_map.
  - apply derivable_dot_const. now apply Forall2_map_seq.
Qed.

(** [jlog (overlap psi0)] carries the first and the second derivative of
    g |-> log <psi0(g0)|psi0(g)> at g0 *)
Lemma log_overlap_derivatives (f f1 f2 : nat -> R -> R) (d : nat) (g0 : R) :
  (forall i x, derivable_pt_lim (f i) x (f1 i x)) ->
  (forall i x, derivable_pt_lim (f1 i) x (f2 i x)) ->
  let psi0 := jet_at f f1 f2 d g0 in
  let c := map detach psi0 in
  let F := fun x => dot c (map (fun i => f i x) (seq 0 d)) in
  let dF := fun x => dot c (map (fun i => f1 i x) (seq 0 d)) in
  0 < F g0 ->
  (forall x, 0 < F x -> derivable_pt_lim (fun y => ln (F y)) x (dF x / F x)) /\
  jd1 (jlog (overlap psi0)) = dF g0 / F g0 /\
  derivable_pt_lim (fun x => dF x / F x) g0 (jd2 (jlog (overlap psi0))).
Proof.
  intros Hf1 Hf2 psi0 c F dF Hpos.
  assert (HF : forall x, derivable_pt_lim F x (dF x))
    by (intros x; apply derivable_dot_seq; auto).
  assert (Hv : map jv psi0 = c) by reflexivity.
  assert (Hv0 : c = map (fun i => f i g0) (seq 0 d))
    by (unfold c, psi0, jet_at; now rewrite map_map).
  assert (Hv1 : map jd1 psi0 = map (fun i => f1 i g0) (seq 0 d))
    by (unfold psi0, jet_at; now rewrite map_map).
  assert (Hv2 : map jd2 psi0 = map (fun i => f2 i g0) (seq 0 d))
    by (unfold psi0, jet_at; now rewrite map_map).
  assert (Hj : overlap psi0 =
               mkJ (F g0) (dF g0) (dot c (map (fun i => f2 i g0) (seq 0 d)))).
  { rewrite overlap_components, Hv, Hv1, Hv2. unfold F, dF. now rewrite <- Hv0. }
  split; [|split].
  - intros x Hx.
    apply (@derivable_pt_lim_eq (comp ln F) _ x (/ F x * dF x) _).
    + reflexivity.
    + unfold Rdiv. ring.
    + apply derivable_pt_lim_comp; [apply HF | now apply derivable_pt_lim_ln].
  - now rewrite Hj.
  - rewrite Hj. simpl.
    apply (@derivable_pt_lim_eq (div_fct dF F) _ g0
             ((dot c (map (fun i => f2 i g0) (seq 0 d)) * F g0 - dF g0 * dF g0)
              / Rsqr (F g0)) _).
    + reflexivity.
    + unfold sqr, Rsqr. field. lra.
    + apply derivable_pt_lim_div; [|apply HF|lra].
      apply derivable_dot_seq; auto.
Qed.

End Jets.

(** ** Linear algebra in index notation *)

Unset Implicit Arguments.

Section Index.

Variable d : nat.

Lemma Sigma_plus (f h : nat -> R) (lo len : nat) :
  Sigma lo len (fun i => f i + h i) = Sigma lo len f + Sigma lo len h.
Proof.
  unfold Sigma. revert lo; induction len as [|len IH]; intros lo; simpl; [ring|].
  rewrite IH. ring.
Qed.

Lemma Sigma_zero (lo len : nat) : Sigma lo len (fun _ => 0) = 0.
Proof.
  unfold Sigma. revert lo; induction len as [|len IH]; intros lo; simpl; [ring|].
  rewrite IH. ring.
Qed.

Lemma Sigma_S (f : nat -> R) (lo len : nat) :
  Sigma lo (S len) f = f lo + Sigma (S lo) len f.
Proof. reflexivity. Qed.

Lemma Sigma_swap (f : nat -> nat -> R) (lo n lo' m : nat) :
  Sigma lo n (fun i => Sigma lo' m (fun j => f i j))
  = Sigma lo' m (fun j => Sigma lo n (fun i => f i j)).
Proof.
  revert lo; induction n as [|n IH]; intros lo.
  - symmetry. apply Sigma_zero.
  - rewrite Sigma_S, IH, <- Sigma_plus. reflexivity.
Qed.

Lemma Sigma_nonneg (f : nat -> R) (lo len : nat) :
  (forall i, 0 <= f i) -> 0 <= Sigma lo len f.
Proof.
  intros Hf. unfold Sigma. revert lo; induction len as [|len IH]; intros lo; simpl.
  - lra.
  - specialize (IH (S lo)). specialize (Hf lo). lra.
Qed.

(** (M v)_i depends on the first d entries of v only, and is linear in v *)
Lemma mv_ext (M : nat -> nat -> R) (u v : nat -> R) (i : nat) :
  (forall j, (j < d)%nat -> u j = v j) -> mv d M u i = mv d M v i.
Proof.
  intros E. unfold mv. apply vsum_ext_seq. intros j Hj. rewrite E by lia. reflexivity.
Qed.

Lemma mv_lin (M : nat -> nat -> R) (a b : R) (u v : nat -> R) (i : nat) :
  mv d M (fun j => a * u j + b * v j) i = a * mv d M u i + b * mv d M v i.
Proof.
  unfold mv. rewrite <- !Sigma_scale, <- Sigma_plus.
  apply vsum_ext_seq. intros j _. ring.
Qed.

Lemma ip_ext (u u' v v' : nat -> R) :
  (forall i, (i < d)%nat -> u i = u' i) -> (forall i, (i < d)%nat -> v i = v' i) ->
  ip d u v = ip d u' v'.
Proof.
  intros Eu Ev. unfold ip. apply vsum_ext_seq. intros i Hi.
  rewrite Eu, Ev by lia. reflexivity.
Qed.

Lemma ip_sym (u v : nat -> R) : ip d u v = ip d v u.
Proof. unfold ip. apply vsum_ext_seq. intros i _. ring. Qed.

Lemma ip_lin_r (a b : R) (u v w : nat -> R) :
  ip d u (fun i => a * v i + b * w i) = a * ip d u v + b * ip d u w.
Proof.
  unfold ip. rewrite <- !Sigma_scale, <- Sigma_plus.
  apply vsum_ext_seq. intros i _. ring.
Qed.

Lemma ip_self_nonneg (u : nat -> R) : 0 <= ip d u u.
Proof. unfold ip. apply Sigma_nonneg. intros i. nra. Qed.

(** a symmetric operator moves across the product *)
Lemma ip_mv_sym (M : nat -> nat -> R) (u v : nat -> R) :
  (forall i j, (i < d)%nat -> (j < d)%nat -> M i j = M j i) ->
  ip d u (mv d M v) = ip d (mv d M u) v.
Proof.
  intros Hsym. unfold ip, mv.
  transitivity (Sigma 0 d (fun i => Sigma 0 d (fun j => u i * M i j * v j))).
  { apply vsum_ext_seq. intros i _. rewrite <- Sigma_scale.
    apply vsum_ext_seq. intros j _. ring. }
  rewrite Sigma_swap. apply vsum_ext_seq. intros j Hj.
  rewrite <- Sigma_scale_r. apply vsum_ext_seq. intros i Hi.
  rewrite (Hsym i j) by lia. ring.
Qed.

End Index.

(** ** Perturbation theory of a non-degenerate level *)

Section Perturbative.

Variable d : nat.
Variables M0 M1 M2 : nat -> nat -> R.
Hypothesis M0_sym : forall i j, (i < d)%nat -> (j < d)%nat -> M0 i j = M0 j i.

Lemma mv_scale (M : nat -> nat -> R) (c : R) (u v : nat -> R) (i : nat) :
  (forall j, (j < d)%nat -> v j = c * u j) -> mv d M v i = c * mv d M u i.
Proof.
  intros E. rewrite (mv_ext d M v (fun j => c * u j + 0 * u j) i).
  - rewrite mv_lin. ring.
  - intros j Hj. rewrite E by exact Hj. ring.
Qed.

Lemma ip_scale_r (c : R) (u v w : nat -> R) :
  (forall i, (i < d)%nat -> w i = c * v i) -> ip d u w = c * ip d u v.
Proof.
  intros E. rewrite (ip_ext d u u w (fun i => c * v i + 0 * v i)).
  - rewrite ip_lin_r. ring.
  - reflexivity.
  - intros i Hi. rewrite E by exact Hi. ring.
Qed.

Lemma ip_scale_l (c : R) (u v w : nat -> R) :
  (forall i, (i < d)%nat -> w i = c * u i) -> ip d w v = c * ip d u v.
Proof.
  intros E. rewrite (ip_sym d w v), (ip_sym d u v). now apply ip_scale_r.
Qed.

(** the right-hand side of a solvable shifted system is orthogonal to the
    eigenvector *)
Lemma shifted_rhs_orthogonal (e0 : R) (a x r : nat -> R) :
  eigen_order0 d M0 e0 a ->
  (forall i, (i < d)%nat -> mv d M0 x i - e0 * x i = r i) ->
  ip d a r = 0.
Proof.
  intros Ha Hx.
  rewrite (ip_ext d a a r (fun i => 1 * mv d M0 x i + (- e0) * x i)).
  - rewrite ip_lin_r.
    change (ip d a (fun i => mv d M0 x i)) with (ip d a (mv d M0 x)).
    rewrite (ip_mv_sym d M0 a x M0_sym).
    rewrite (ip_scale_l e0 a x (mv d M0 a) Ha). ring.
  - reflexivity.
  - intros i Hi. rewrite <- Hx by exact Hi. ring.
Qed.

(** an eigenvector of a simple level that is orthogonal to it vanishes *)
Lemma simple_kernel (e0 : R) (a x : nat -> R) :
  simple_level d M0 e0 ->
  eigen_order0 d M0 e0 a -> ip d a a = 1 ->
  eigen_order0 d M0 e0 x -> ip d a x = 0 ->
  forall i, (i < d)%nat -> x i = 0.
Proof.
  intros Hsimple Ha Hn Hx Hax.
  destruct (Hsimple a x Ha Hx ltac:(lra)) as [c Hc].
  rewrite (ip_scale_r c a a x Hc), Hn in Hax.
  intros i Hi. rewrite Hc by exact Hi. nra.
Qed.

(** two solutions of the shifted system with the same component along the
    eigenvector are equal: the system has one solution at most in the
    subspace orthogonal to the eigenvector *)
Lemma shifted_system_unique (e0 : R) (a x y r : nat -> R) :
  simple_level d M0 e0 ->
  eigen_order0 d M0 e0 a -> ip d a a = 1 ->
  (forall i, (i < d)%nat -> mv d M0 x i - e0 * x i = r i) ->
  (forall i, (i < d)%nat -> mv d M0 y i - e0 * y i = r i) ->
  ip d a x = ip d a y ->
  forall i, (i < d)%nat -> x i = y i.
Proof.
  intros Hsimple Ha Hn Hx Hy Hxy i Hi.
  assert (Hz : forall j, (j < d)%nat -> (fun j => 1 * x j + (-1) * y j) j = 0).
  { apply (simple_kernel e0 a _ Hsimple Ha Hn).
    - intros j Hj. rewrite mv_lin. specialize (Hx j Hj). specialize (Hy j Hj). lra.
    - rewrite ip_lin_r. lra. }
  specialize (Hz i Hi). simpl in Hz. lra.
Qed.

(** Hellmann-Feynman: the first derivative of the energy *)
Lemma energy_order1 (e0 e1 : R) (a a1 : nat -> R) :
  eigen_order0 d M0 e0 a -> eigen_order1 d M0 M1 e0 e1 a a1 -> ip d a a = 1 ->
  e1 = ip d a (mv d M1 a).
Proof.
  intros H0 H1 Hn.
  pose proof (shifted_rhs_orthogonal e0 a a1
                (fun i => e1 * a i + (-1) * mv d M1 a i) H0) as Hr.
  rewrite ip_lin_r, Hn in Hr.
  change (ip d a (fun i => mv d M1 a i)) with (ip d a (mv d M1 a)) in Hr.
  enough (e1 * 1 + -1 * ip d a (mv d M1 a) = 0) by lra.
  apply Hr. intros i Hi. specialize (H1 i Hi). lra.
Qed.

(** the second derivative of the energy *)
Lemma energy_order2 (e0 e1 e2 : R) (a a1 a2 : nat -> R) :
  eigen_order0 d M0 e0 a -> eigen_order2 d M0 M1 M2 e0 e1 e2 a a1 a2 ->
  ip d a a = 1 -> ip d a a1 = 0 ->
  e2 = ip d a (mv d M2 a) + 2 * ip d a (mv d M1 a1).
Proof.
  intros H0 H2 Hn Hn1.
  pose proof (shifted_rhs_orthogonal e0 a a2
     (fun i => 1 * (e2 * a i + (2 * e1) * a1 i)
               + (-1) * (1 * mv d M2 a i + 2 * mv d M1 a1 i)) H0) as Hr.
  rewrite !ip_lin_r, Hn, Hn1 in Hr.
  change (ip d a (fun i => mv d M2 a i)) with (ip d a (mv d M2 a)) in Hr.
  change (ip d a (fun i => mv d M1 a1 i)) with (ip d a (mv d M1 a1)) in Hr.
  enough (1 * (e2 * 1 + 2 * e1 * 0)
          + -1 * (1 * ip d a (mv d M2 a) + 2 * ip d a (mv d M1 a1)) = 0) by lra.
  apply Hr. intros i Hi. specialize (H2 i Hi). lra.
Qed.

(** two solutions of the eigen-problem of the lowest, simple level agree
    to second order in g, up to one sign *)
Lemma eigenjet_unique (e0 e1 e2 f0 f1 f2 : R) (a a1 a2 b b1 b2 : nat -> R) :
  simple_level d M0 e0 -> lowest_level d M0 e0 -> lowest_level d M0 f0 ->
  eigen_order0 d M0 e0 a -> eigen_order1 d M0 M1 e0 e1 a a1 ->
  eigen_order2 d M0 M1 M2 e0 e1 e2 a a1 a2 ->
  ip d a a = 1 -> ip d a a1 = 0 -> ip d a a2 + ip d a1 a1 = 0 ->
  eigen_order0 d M0 f0 b -> eigen_order1 d M0 M1 f0 f1 b b1 ->
  eigen_order2 d M0 M1 M2 f0 f1 f2 b b1 b2 ->
  ip d b b = 1 -> ip d b b1 = 0 -> ip d b b2 + ip d b1 b1 = 0 ->
  f0 = e0 /\ f1 = e1 /\ f2 = e2 /\
  exists s, (s = 1 \/ s = -1) /\
    forall i, (i < d)%nat -> b i = s * a i /\ b1 i = s * a1 i /\ b2 i = s * a2 i.
Proof.
  intros Hsimple Hlow_e Hlow_f Ha0 Ha1 Ha2 Na0 Na1 Na2 Hb0 Hb1 Hb2 Nb0 Nb1 Nb2.
  (* the energies *)
  assert (E0 : f0 = e0).
  { apply Rle_antisym.
    - apply (Hlow_f e0 a); [lra | exact Ha0].
    - apply (Hlow_e f0 b); [lra | exact Hb0]. }
  subst f0.
  (* the states *)
  destruct (Hsimple a b Ha0 Hb0 ltac:(lra)) as [s Hs].
  assert (Hs2 : s * s = 1).
  { rewrite (ip_scale_r s b a b Hs), (ip_scale_l s a a b Hs), Na0 in Nb0. lra. }
  assert (Hsign : s = 1 \/ s = -1).
  { assert ((s - 1) * (s + 1) = 0) as [H|H]%Rmult_integral by lra; [left | right]; lra. }
  assert (HM1b : forall i, mv d M1 b i = s * mv d M1 a i)
    by (intros i; now apply mv_scale).
  assert (HM2b : forall i, mv d M2 b i = s * mv d M2 a i)
    by (intros i; now apply mv_scale).
  (* first order *)
  assert (E1 : f1 = e1).
  { rewrite (energy_order1 e0 f1 b b1 Hb0 Hb1 Nb0), (energy_order1 e0 e1 a a1 Ha0 Ha1 Na0).
    rewrite (ip_scale_r s b (mv d M1 a) (mv d M1 b) (fun i _ => HM1b i)).
    rewrite (ip_scale_l s a (mv d M1 a) b Hs). nra. }
  subst f1.
  assert (Nab1 : ip d a b1 = 0).
  { rewrite (ip_scale_l s a b1 b Hs) in Nb1. nra. }
  assert (S1 : forall i, (i < d)%nat -> b1 i = s * a1 i).
  { apply (shifted_system_unique e0 a b1 (fun i => s * a1 i)
             (fun i => e1 * b i - mv d M1 b i) Hsimple Ha0 Na0).
    - intros i Hi. specialize (Hb1 i Hi). lra.
    - intros i Hi. rewrite (mv_scale M0 s a1 (fun j => s * a1 j) i) by reflexivity.
      rewrite HM1b, (Hs i Hi). specialize (Ha1 i Hi).
      destruct Hsign; subst s; lra.
    - rewrite (ip_scale_r s a a1 (fun i => s * a1 i)) by reflexivity.
      rewrite Na1, Nab1. ring. }
  assert (HM1b1 : forall i, mv d M1 b1 i = s * mv d M1 a1 i)
    by (intros i; now apply mv_scale).
  (* second order *)
  assert (E2 : f2 = e2).
  { rewrite (energy_order2 e0 e1 f2 b b1 b2 Hb0 Hb2 Nb0 Nb1),
            (energy_order2 e0 e1 e2 a a1 a2 Ha0 Ha2 Na0 Na1).
    rewrite (ip_scale_r s b (mv d M2 a) (mv d M2 b) (fun i _ => HM2b i)).
    rewrite (ip_scale_r s b (mv d M1 a1) (mv d M1 b1) (fun i _ => HM1b1 i)).
    rewrite !(ip_scale_l s a _ b Hs). nra. }
  subst f2.
  assert (Nb11 : ip d b1 b1 = ip d a1 a1).
  { rewrite (ip_scale_r s b1 a1 b1 S1), (ip_scale_l s a1 a1 b1 S1). nra. }
  assert (Nab2 : ip d a b2 = s * - ip d a1 a1).
  { rewrite (ip_scale_l s a b2 b Hs), Nb11 in Nb2. nra. }
  assert (S2 : forall i, (i < d)%nat -> b2 i = s * a2 i).
  { apply (shifted_system_unique e0 a b2 (fun i => s * a2 i)
             (fun i => e2 * b i + 2 * (e1 * b1 i) - mv d M2 b i - 2 * mv d M1 b1 i)
             Hsimple Ha0 Na0).
    - intros i Hi. specialize (Hb2 i Hi). lra.
    - intros i Hi. rewrite (mv_scale M0 s a2 (fun j => s * a2 j) i) by reflexivity.
      rewrite HM2b, HM1b1, (Hs i Hi), (S1 i Hi). specialize (Ha2 i Hi).
      destruct Hsign; subst s; lra.
    - rewrite (ip_scale_r s a a2 (fun i => s * a2 i)) by reflexivity.
      rewrite Nab2. destruct Hsign; subst s; lra. }
  repeat split; auto.
  exists s. split; [exact Hsign|]. intros i Hi. auto.
Qed.

End Perturbative.

(** ** From tensors to index notation *)

Section Bridge.

Variable d : nat.

Lemma at_table (v : nat -> R) (i : nat) :
  (i < d)%nat -> at_ (map v (seq 0 d)) i = v i.
Proof. intros Hi. unfold at_. now apply nth_map_seq. Qed.

Lemma dot_ip (u v : Vec) :
  length u = d -> length v = d -> dot u v = ip d (at_ u) (at_ v).
Proof. intros Hu Hv. unfold ip, at_. now apply dot_Sigma. Qed.

Lemma vec_ext (u v : Vec) :
  length u = d -> length v = d ->
  (forall i, (i < d)%nat -> at_ u i = at_ v i) -> u = v.
Proof.
  intros Hu Hv E. apply (nth_ext u v 0 0); [congruence|].
  intros i Hi. apply E. lia.
Qed.

Lemma vscale_at (c : R) (v : Vec) (i : nat) : at_ (vscale c v) i = c * at_ v i.
Proof.
  unfold at_, vscale. revert i; induction v as [|x v IH]; intros [|i]; simpl;
    try ring; auto.
Qed.

Lemma matvec_at (M : Matrix) (v : Vec) (i : nat) :
  at_ (matvec M v) i = dot (nth i M []) v.
Proof.
  unfold at_, matvec. revert i; induction M as [|row M IH]; intros [|i]; simpl; auto.
Qed.

Lemma row_length {A : Type} (M : list (list A)) (i : nat) :
  is_matrix d d M -> (i < d)%nat -> length (nth i M []) = d.
Proof.
  intros [Hr Hc] Hi. rewrite Forall_forall in Hc. apply Hc, nth_In. lia.
Qed.

Lemma matvec_mv (M : Matrix) (v : Vec) (i : nat) :
  is_matrix d d M -> length v = d -> (i < d)%nat ->
  at_ (matvec M v) i = mv d (entry M) (at_ v) i.
Proof.
  intros HM Hv Hi. rewrite matvec_at.
  rewrite (@dot_Sigma d (nth i M []) v (row_length M i HM Hi) Hv). reflexivity.
Qed.

Lemma matvec_length (M : Matrix) (v : Vec) : length (matvec M v) = length M.
Proof. apply length_map. Qed.

Lemma vscale_length (c : R) (v : Vec) : length (vscale c v) = length v.
Proof. apply length_map. Qed.

(** the eigen-equation of tensors, in index notation and back *)
Lemma eigen_list_index (M : Matrix) (e : R) (v : Vec) :
  is_matrix d d M -> length v = d ->
  (matvec M v = vscale e v <-> eigen_order0 d (entry M) e (at_ v)).
Proof.
  intros HM Hv. split.
  - intros E i Hi. rewrite <- (matvec_mv M v i HM Hv Hi), E. apply vscale_at.
  - intros E. apply vec_ext.
    + rewrite matvec_length. apply HM.
    + now rewrite vscale_length.
    + intros i Hi. rewrite (matvec_mv M v i HM Hv Hi), vscale_at. now apply E.
Qed.

Lemma table_length (v : nat -> R) : length (map v (seq 0 d)) = d.
Proof. now rewrite length_map, length_seq. Qed.

Lemma eigen_order0_ext (M : nat -> nat -> R) (e : R) (u v : nat -> R) :
  (forall i, (i < d)%nat -> u i = v i) ->
  eigen_order0 d M e u -> eigen_order0 d M e v.
Proof.
  intros E Hu i Hi. rewrite <- (mv_ext d M u v i E), <- (E i Hi). now apply Hu.
Qed.

Lemma lowest_index (M : Matrix) (e0 : R) :
  is_matrix d d M -> lowest d (matvec M) e0 -> lowest_level d (entry M) e0.
Proof.
  intros HM Hlow e v Hn Hv.
  apply (Hlow e (map v (seq 0 d)) (table_length v)).
  - rewrite (dot_ip _ _ (table_length v) (table_length v)).
    rewrite (ip_ext d _ v _ v (at_table v) (at_table v)). exact Hn.
  - apply (eigen_list_index M e _ HM (table_length v)).
    apply (eigen_order0_ext _ _ v); [|exact Hv].
    intros i Hi. symmetry. now apply at_table.
Qed.

Lemma simple_index (M : Matrix) (e0 : R) :
  is_matrix d d M -> simple d M e0 -> simple_level d (entry M) e0.
Proof.
  intros HM Hsimple u v Hu Hv Hn.
  destruct (Hsimple (map u (seq 0 d)) (map v (seq 0 d))
              (table_length u) (table_length v)) as [c Hc].
  - apply (eigen_list_index M e0 _ HM (table_length u)).
    apply (eigen_order0_ext _ _ u); [|exact Hu].
    intros i Hi. symmetry. now apply at_table.
  - apply (eigen_list_index M e0 _ HM (table_length v)).
    apply (eigen_order0_ext _ _ v); [|exact Hv].
    intros i Hi. symmetry. now apply at_table.
  - rewrite (dot_ip _ _ (table_length u) (table_length u)).
    rewrite (ip_ext d _ u _ u (at_table u) (at_table u)). exact Hn.
  - exists c. intros i Hi.
    rewrite <- (at_table v i Hi), Hc, vscale_at, (at_table u i Hi). reflexivity.
Qed.

Lemma jdot_general (r t : list J2) :
  jdot r t =
  mkJ (dot (map jv r) (map jv t))
      (dot (map jd1 r) (map jv t) + dot (map jv r) (map jd1 t))
      (dot (map jd2 r) (map jv t) + 2 * dot (map jd1 r) (map jd1 t)
       + dot (map jv r) (map jd2 t)).
Proof.
  unfold jdot, dot. revert t; induction r as [|x r IH]; intros [|y t]; simpl;
    try (unfold jzero; f_equal; ring).
  rewrite IH. unfold jadd, jmul. simpl. f_equal; ring.
Qed.

Lemma jmatvec_nth (H : list (list J2)) (t : list J2) (i : nat) :
  nth i (jmatvec H t) jzero = jdot (nth i H []) t.
Proof.
  unfold jmatvec. revert i; induction H as [|row H IH]; intros [|i]; simpl; auto.
Qed.

Lemma jmul_nth (E : J2) (t : list J2) (i : nat) :
  (i < length t)%nat -> nth i (map (jmul E) t) jzero = jmul E (nth i t jzero).
Proof.
  revert i; induction t as [|x t IH]; intros [|i] Hi; simpl in *; try lia; auto.
  apply IH. lia.
Qed.

Lemma at_map (f : J2 -> R) (t : list J2) (i : nat) :
  f jzero = 0 -> at_ (map f t) i = f (nth i t jzero).
Proof.
  intros Hf. unfold at_. rewrite <- Hf. apply map_nth.
Qed.

Lemma is_matrix_map {A B : Type} (f : A -> B) (M : list (list A)) :
  is_matrix d d M -> is_matrix d d (map (map f) M).
Proof.
  intros [Hr Hc]. split; [now rewrite length_map|].
  rewrite Forall_forall in *. intros row [r [<- Hin]]%in_map_iff.
  rewrite length_map. now apply Hc.
Qed.

Lemma mv_mapped (f : J2 -> R) (H : list (list J2)) (v : Vec) (i : nat) :
  is_matrix d d H -> length v = d -> (i < d)%nat ->
  mv d (entry (map (map f) H)) (at_ v) i = dot (map f (nth i H [])) v.
Proof.
  intros HH Hv Hi.
  rewrite <- (matvec_mv _ v i (is_matrix_map f H HH) Hv Hi), matvec_at.
  f_equal. change (@nil R) with (map f []). apply map_nth.
Qed.

(** the contract of the primitives, order by order *)
Lemma eigenjet_orders (H : list (list J2)) (E : J2) (t : list J2) :
  is_matrix d d H -> eigenjet d H E t ->
  let a := at_ (map jv t) in
  let a1 := at_ (map jd1 t) in
  let a2 := at_ (map jd2 t) in
  eigen_order0 d (entry (mvalues H)) (jv E) a /\
  eigen_order1 d (entry (mvalues H)) (entry (mderiv1 H)) (jv E) (jd1 E) a a1 /\
  eigen_order2 d (entry (mvalues H)) (entry (mderiv1 H)) (entry (mderiv2 H))
               (jv E) (jd1 E) (jd2 E) a a1 a2 /\
  ip d a a = 1 /\ ip d a a1 = 0 /\ ip d a a2 + ip d a1 a1 = 0.
Proof.
  intros HH (Ht & Heq & Hnorm) a a1 a2.
  assert (Lv : length (map jv t) = d) by now rewrite length_map.
  assert (Lv1 : length (map jd1 t) = d) by now rewrite length_map.
  assert (Lv2 : length (map jd2 t) = d) by now rewrite length_map.
  assert (Hrow : forall i, (i < d)%nat ->
            jdot (nth i H []) t = jmul E (nth i t jzero)).
  { intros i Hi. rewrite <- jmatvec_nth, Heq. apply jmul_nth. lia. }
  assert (Ha : forall i, a i = jv (nth i t jzero)) by (intros; now apply at_map).
  assert (Ha1 : forall i, a1 i = jd1 (nth i t jzero)) by (intros; now apply at_map).
  assert (Ha2 : forall i, a2 i = jd2 (nth i t jzero)) by (intros; now apply at_map).
  unfold unit_norm in Hnorm.
  rewrite jdot_components in Hnorm. injection Hnorm as N0 N1 N2.
  repeat split.
  - intros i Hi. unfold a, mvalues. rewrite (mv_mapped jv H _ i HH Lv Hi).
    pose proof (f_equal jv (Hrow i Hi)) as Hc. rewrite jdot_general in Hc.
    simpl in Hc. rewrite Hc. fold a. now rewrite Ha.
  - intros i Hi. unfold a, a1, mvalues, mderiv1.
    rewrite (mv_mapped jd1 H _ i HH Lv Hi), (mv_mapped jv H _ i HH Lv1 Hi).
    pose proof (f_equal jd1 (Hrow i Hi)) as Hc. rewrite jdot_general in Hc.
    simpl in Hc. rewrite Hc. fold a a1. now rewrite Ha, Ha1.
  - intros i Hi. unfold a, a1, a2, mvalues, mderiv1, mderiv2.
    rewrite (mv_mapped jd2 H _ i HH Lv Hi), (mv_mapped jd1 H _ i HH Lv1 Hi),
      (mv_mapped jv H _ i HH Lv2 Hi).
    pose proof (f_equal jd2 (Hrow i Hi)) as Hc. rewrite jdot_general in Hc.
    simpl in Hc. rewrite Hc. fold a a1 a2. now rewrite Ha, Ha1, Ha2.
  - unfold a. now rewrite <- (dot_ip _ _ Lv Lv).
  - unfold a, a1. rewrite <- (dot_ip _ _ Lv Lv1). lra.
  - unfold a, a1, a2. rewrite <- (dot_ip _ _ Lv Lv2), <- (dot_ip _ _ Lv1 Lv1). lra.
Qed.

Lemma jscale_nth (c : R) (t : list J2) (i : nat) :
  (i < length t)%nat -> nth i (map (jscale c) t) jzero = jscale c (nth i t jzero).
Proof.
  revert i; induction t as [|x t IH]; intros [|i] Hi; simpl in *; try lia; auto.
  apply IH. lia.
Qed.

(** two pairs that meet the contract for the same operator, whose ground
    level is simple, are the same up to the sign of the eigenvector *)
Lemma eigenjet_agree (H : list (list J2)) (Ed Es : J2) (td ts : list J2) :
  is_matrix d d H -> symmetric (mvalues H) ->
  eigenjet d H Ed td -> eigenjet d H Es ts ->
  lowest d (matvec (mvalues H)) (jv Ed) -> lowest d (matvec (mvalues H)) (jv Es) ->
  simple d (mvalues H) (jv Ed) ->
  Es = Ed /\ exists s, (s = 1 \/ s = -1) /\ ts = map (jscale s) td.
Proof.
  intros HH Hsym Hd Hs Ld Ls Hsimple.
  pose proof (is_matrix_map jv H HH) as HM. fold (mvalues H) in HM.
  destruct (eigenjet_orders H Ed td HH Hd) as (A0 & A1 & A2 & NA0 & NA1 & NA2).
  destruct (eigenjet_orders H Es ts HH Hs) as (B0 & B1 & B2 & NB0 & NB1 & NB2).
  destruct (eigenjet_unique d (entry (mvalues H)) (entry (mderiv1 H))
              (entry (mderiv2 H)) (fun i j _ _ => Hsym i j)
              (jv Ed) (jd1 Ed) (jd2 Ed) (jv Es) (jd1 Es) (jd2 Es)
              _ _ _ _ _ _
              (simple_index _ _ HM Hsimple) (lowest_index _ _ HM Ld)
              (lowest_index _ _ HM Ls)
              A0 A1 A2 NA0 NA1 NA2 B0 B1 B2 NB0 NB1 NB2)
    as (E0 & E1 & E2 & s & Hsign & Hpt).
  split.
  - destruct Es, Ed. simpl in *. congruence.
  - exists s. split; [exact Hsign|].
    destruct Hd as (Ltd & _). destruct Hs as (Lts & _).
    apply (nth_ext ts (map (jscale s) td) jzero jzero);
      [rewrite length_map; congruence|].
    intros i Hi. rewrite jscale_nth by lia.
    destruct (Hpt i ltac:(lia)) as (P0 & P1 & P2).
    rewrite !at_map in P0, P1, P2 by reflexivity.
    destruct (nth i ts jzero), (nth i td jzero). unfold jscale. simpl in *.
    congruence.
Qed.

Lemma dot_vscale (c : R) (u v : Vec) :
  dot (vscale c u) (vscale c v) = c * c * dot u v.
Proof.
  unfold dot, vscale. revert v; induction u as [|x u IH]; intros [|y v]; simpl;
    try ring.
  rewrite IH. ring.
Qed.

Lemma map_jscale (f : J2 -> R) (c : R) (t : list J2) :
  (forall x, f (jscale c x) = c * f x) -> map f (map (jscale c) t) = vscale c (map f t).
Proof.
  intros Hf. unfold vscale. rewrite !map_map. apply map_ext. exact Hf.
Qed.

(** the sign of the eigenvector does not enter chi_F *)
Lemma chiF_AD_sign (s : R) (t : list J2) :
  s = 1 \/ s = -1 -> chiF_AD (map (jscale s) t) = chiF_AD t.
Proof.
  intros Hsign. unfold chiF_AD. rewrite !overlap_components.
  rewrite (map_jscale jv s t), (map_jscale jd1 s t), (map_jscale jd2 s t)
    by reflexivity.
  rewrite !dot_vscale.
  assert (Hs2 : s * s = 1) by (destruct Hsign; subst s; ring).
  rewrite Hs2, !Rmult_1_l. reflexivity.
Qed.

Lemma dot_self_nonneg (v : Vec) : 0 <= dot v v.
Proof.
  unfold dot. induction v as [|x v IH]; simpl; [lra | nra].
Qed.

(** for an eigenvector of unit norm in g, what the two reverse passes
    return is the squared norm of its derivative *)
Lemma chiF_AD_unit_norm (t : list J2) :
  unit_norm t -> chiF_AD t = dot (map jd1 t) (map jd1 t).
Proof.
  unfold unit_norm. rewrite jdot_components. intros [= N0 N1 N2].
  unfold chiF_AD. rewrite overlap_components. simpl.
  rewrite N0. replace (dot (map jv t) (map jd1 t)) with 0 by lra.
  replace (dot (map jv t) (map jd2 t)) with (- dot (map jd1 t) (map jd1 t)) by lra.
  unfold sqr. field.
Qed.

Lemma map2_at (f : R -> R -> R) (u v : Vec) (i : nat) :
  (i < length u)%nat -> (i < length v)%nat ->
  at_ (map2 f u v) i = f (at_ u i) (at_ v i).
Proof.
  unfold at_. revert v i; induction u as [|x u IH]; intros [|y v] [|i] Hu Hv;
    simpl in *; try lia; auto.
  apply IH; lia.
Qed.

Lemma vneg_at (v : Vec) (i : nat) : at_ (vneg v) i = - at_ v i.
Proof.
  unfold at_, vneg. revert i; induction v as [|x v IH]; intros [|i]; simpl;
    try ring; auto.
Qed.

Lemma dot_vneg_r (u v : Vec) : dot u (vneg v) = - dot u v.
Proof.
  unfold dot, vneg. revert v; induction u as [|x u IH]; intros [|y v]; simpl;
    try ring.
  rewrite IH. ring.
Qed.

Lemma dot_vscale_r (c : R) (u v : Vec) : dot u (vscale c v) = c * dot u v.
Proof.
  unfold dot, vscale. revert v; induction u as [|x u IH]; intros [|y v]; simpl;
    try ring.
  rewrite IH. ring.
Qed.

Lemma dot_vsub_r (u v w : Vec) :
  length v = length w -> dot u (vsub v w) = dot u v - dot u w.
Proof.
  unfold dot, vsub. revert v w; induction u as [|x u IH]; intros [|y v] [|z w] E;
    simpl in *; try lia; try ring.
  rewrite IH by lia. ring.
Qed.

(** the projected right-hand side is orthogonal to a psi0 of unit norm *)
Lemma projected_orthogonal (b psi0 : Vec) :
  length b = length psi0 -> dot psi0 psi0 = 1 ->
  dot psi0 (vsub b (vscale (dot psi0 b) psi0)) = 0.
Proof.
  intros Hlen Hn.
  rewrite dot_vsub_r by (now rewrite vscale_length).
  rewrite dot_vscale_r, Hn. ring.
Qed.

(** the solution of the shifted system in the orthogonal subspace is the
    first derivative of the eigenvector *)
Lemma cg_solution_derivative (H : list (list J2)) (A P : Vec -> Vec) (E0 : J2)
    (psi0 : list J2) (x : Vec) :
  is_matrix d d H -> symmetric (mvalues H) ->
  (forall u, length u = d -> A u = matvec (mvalues H) u) ->
  (forall u, length u = d -> P u = matvec (mderiv1 H) u) ->
  eigenjet d H E0 psi0 -> simple d (mvalues H) (jv E0) ->
  let v := map jv psi0 in
  let b := vneg (P v) in
  cg_solution A (jv E0) (vsub b (vscale (dot v b) v)) v x ->
  x = map jd1 psi0.
Proof.
  intros HH Hsym HA HP Hjet Hsimple v b (Lx & Hx & Hox).
  pose proof (is_matrix_map jv H HH) as HM0. fold (mvalues H) in HM0.
  pose proof (is_matrix_map jd1 H HH) as HM1. fold (mderiv1 H) in HM1.
  destruct (eigenjet_orders H E0 psi0 HH Hjet) as (A0 & A1 & _ & N0 & N1 & _).
  destruct Hjet as (Lt & _ & _).
  assert (Lv : length v = d) by (unfold v; now rewrite length_map).
  assert (Lx' : length x = d) by congruence.
  assert (Lv1 : length (map jd1 psi0) = d) by now rewrite length_map.
  assert (LP : length (P v) = d).
  { rewrite (HP v Lv), matvec_length. apply HM1. }
  fold v in A0, A1, N0, N1.
  pose proof (energy_order1 d (entry (mvalues H)) (entry (mderiv1 H))
                (fun i j _ _ => Hsym i j) (jv E0) (jd1 E0) (at_ v)
                (at_ (map jd1 psi0)) A0 A1 N0) as He1.
  assert (HPv : forall i, (i < d)%nat -> at_ (P v) i = mv d (entry (mderiv1 H)) (at_ v) i).
  { intros i Hi. rewrite (HP v Lv). now apply matvec_mv. }
  assert (Hvb : dot v b = - jd1 E0).
  { unfold b. rewrite dot_vneg_r, (dot_ip v (P v) Lv LP), He1.
    f_equal. apply ip_ext; [reflexivity | exact HPv]. }
  apply vec_ext; [exact Lx' | exact Lv1 |].
  apply (shifted_system_unique d (entry (mvalues H))
           (jv E0) (at_ v) (at_ x) (at_ (map jd1 psi0))
           (fun i => jd1 E0 * at_ v i - mv d (entry (mderiv1 H)) (at_ v) i)
           (simple_index _ _ HM0 Hsimple) A0 N0).
  - intros i Hi.
    pose proof (f_equal (fun l => at_ l i) Hx) as Hxi. cbv beta in Hxi.
    unfold vsub in Hxi. rewrite map2_at in Hxi
      by (rewrite ?vscale_length, ?(HA x Lx'), ?matvec_length; destruct HM0; lia).
    rewrite vscale_at, (HA x Lx'), (matvec_mv _ x i HM0 Lx' Hi) in Hxi.
    rewrite Hxi, Hvb.
    rewrite map2_at by (unfold b, vneg, vscale; rewrite ?length_map; lia).
    unfold b. rewrite vscale_at, vneg_at, (HPv i Hi). ring.
  - intros i Hi. specialize (A1 i Hi). lra.
  - rewrite <- (dot_ip v x Lv Lx'), Hox. symmetry. exact N1.
Qed.

(** a sum of quotients of squares that is a real number is not negative *)
Lemma fsum_squares_nonneg (u v : Vec) (c : R) :
  fsum (vdiv (vpow2 u) (vpow2 v)) = Real c -> 0 <= c.
Proof.
  unfold vdiv, vpow2. revert v c; induction u as [|x u IH]; intros [|y v] c; simpl;
    try (intros [= <-]; lra).
  unfold fdiv at 1. destruct (Req_dec_T (sqr y) 0) as [_|Hy]; [discriminate|].
  destruct (fsum (map2 fdiv (map sqr u) (map sqr v))) as [r|] eqn:Er; [|discriminate].
  intros [= <-]. specialize (IH v r Er).
  assert (0 <= sqr x / sqr y).
  { unfold sqr in *. apply Rmult_le_pos; [nra|].
    apply Rlt_le, Rinv_0_lt_compat. nra. }
  lra.
Qed.

End Bridge.

Set Implicit Arguments.

(** ** The sweep *)

Section Sweep.

Context {L : Imports}.

Lemma array_set_length {A : Type} (a : list A) (i : nat) (x : A) :
  length (array_set a i x) = length a.
Proof.
  revert i; induction a as [|y a IH]; intros [|i]; simpl; auto.
Qed.

Lemma nth_error_array_set {A : Type} (a : list A) (i : nat) (x : A) :
  (i < length a)%nat -> nth_error (array_set a i x) i = Some x.
Proof.
  revert i; induction a as [|y a IH]; intros [|i] Hi; simpl in *; try lia; auto.
  apply IH. lia.
Qed.

Lemma nth_array_set {A : Type} (a : list A) (i j : nat) (x d : A) :
  (i < length a)%nat ->
  nth j (array_set a i x) d = if (j =? i)%nat then x else nth j a d.
Proof.
  revert i j; induction a as [|y a IH]; intros [|i] [|j] Hi; simpl in *;
    try lia; auto.
  apply IH. lia.
Qed.

(** one pass through the loop body, when every collaborator answers *)
Lemma sweep_body_ok (k : nat) (gs : list R) (i : nat) (a : Arrays) (w : World)
    (x : R) (c : float * float * float * float) :
  let n := N (model w) in
  let d := dim (model w) in
  nth_error gs i = Some x ->
  in_bounds i a ->
  point_values n d k x = Ok c ->
  sweep_body k gs i a w =
  (Ok (write_cells i c a),
   mkWorld (point_model n d x) (Some point_wiring) (trace w ++ point_events k d x c)).
Proof.
  intros n d Hx (B1 & B2 & B3 & B4) Hc.
  unfold point_values in Hc.
  unfold sweep_body, chiF_perturbation, chiF_matrixAD, chiF_sparseAD,
    chiF_geometric, cg, setDominantSparseSymeig, dominant_sparse_symeig,
    autograd_grad, autograd_grad_again, store. run.
  rewrite Hx. run. fold n d.
  destruct (symeig _) as [[Es psis]|e]; [|discriminate]. run.
  destruct (0 <? ncols psis)%nat; [|discriminate]. run.
  destruct Es as [|E0 Es]; [discriminate|]. run.
  step_store. run.
  destruct (DominantSymeig_apply _ _) as [[E0d psi0d]|e]; [|discriminate]. run.
  step_store. run.
  unfold point_model in Hc. simpl in Hc.
  destruct (DominantSparseSymeig_apply _ _ _ _ _) as [[E0s psi0s]|e]; [|discriminate].
  run. step_store. run.
  unfold configured. simpl. unfold rhs in Hc. simpl in Hc.
  destruct (CGSubspaceSparse_apply _ _ _ _ _) as [dpsi0|e]; [|discriminate].
  run. step_store. run.
  rewrite !nth_error_array_set by assumption. run.
  injection Hc as <-. unfold write_cells, point_model, point_wiring, point_events.
  simpl. rewrite <- !app_assoc. reflexivity.
Qed.

(** ... and when one of them raises *)
Lemma sweep_body_raise (k : nat) (gs : list R) (i : nat) (a : Arrays) (w : World)
    (x : R) (e : Exn) :
  nth_error gs i = Some x ->
  in_bounds i a ->
  point_values (N (model w)) (dim (model w)) k x = Raise e ->
  fst (sweep_body k gs i a w) = Raise e.
Proof.
  intros Hx (B1 & B2 & B3 & B4) Hc.
  unfold point_values in Hc.
  unfold sweep_body, chiF_perturbation, chiF_matrixAD, chiF_sparseAD,
    chiF_geometric, cg, setDominantSparseSymeig, dominant_sparse_symeig,
    autograd_grad, autograd_grad_again, store. run.
  rewrite Hx. run.
  destruct (symeig _) as [[Es psis]|e']; [|simpl; congruence]. run.
  destruct (0 <? ncols psis)%nat; [|simpl; congruence]. run.
  destruct Es as [|E0 Es]; [simpl; congruence|]. run.
  step_store. run.
  destruct (DominantSymeig_apply _ _) as [[E0d psi0d]|e']; [|simpl; congruence]. run.
  step_store. run.
  unfold point_model in Hc. simpl in Hc.
  destruct (DominantSparseSymeig_apply _ _ _ _ _) as [[E0s psi0s]|e'];
    [|simpl; congruence].
  run. step_store. run.
  unfold configured. simpl. unfold rhs in Hc. simpl in Hc.
  destruct (CGSubspaceSparse_apply _ _ _ _ _) as [dpsi0|e']; [|simpl; congruence].
  discriminate Hc.
Qed.

Lemma cells_write_cells (i : nat) (c : float * float * float * float) (a : Arrays) :
  in_bounds i a -> cells i (write_cells i c a) = c.
Proof.
  intros (B1 & B2 & B3 & B4). destruct c as [[[c1 c2] c3] c4].
  unfold cells, write_cells. simpl.
  rewrite !nth_array_set, Nat.eqb_refl by assumption. reflexivity.
Qed.

(** the values of a grid point are a function of the grid value, the
    construction parameters and k *)
Lemma sweep_body_values (k : nat) (gs : list R) (i : nat) (a : Arrays) (w : World)
    (x : R) :
  nth_error gs i = Some x ->
  in_bounds i a ->
  values i (sweep_body k gs i a w) = point_values (N (model w)) (dim (model w)) k x.
Proof.
  intros Hx Hb.
  destruct (point_values (N (model w)) (dim (model w)) k x) as [c|e] eqn:Hc.
  - unfold values. rewrite (@sweep_body_ok k gs i a w x c Hx Hb Hc). simpl.
    now rewrite cells_write_cells.
  - unfold values. now rewrite (@sweep_body_raise k gs i a w x e Hx Hb Hc).
Qed.

Lemma write_cells_in_bounds (i j : nat) (c : float * float * float * float)
    (a : Arrays) :
  in_bounds j a -> in_bounds j (write_cells i c a).
Proof.
  destruct c as [[[c1 c2] c3] c4]. unfold in_bounds, write_cells. simpl.
  now rewrite !array_set_length.
Qed.

(** the loop over a range of indices, when every point answers *)
Lemma for_range_ok (n d k : nat) (gs : list R)
    (vals : nat -> float * float * float * float) (len : nat) :
  forall (lo : nat) (a : Arrays) (w : World),
    N (model w) = n -> dim (model w) = d ->
    (forall i, (lo <= i < lo + len)%nat ->
       nth_error gs i = Some (nth i gs 0) /\ in_bounds i a /\
       point_values n d k (nth i gs 0) = Ok (vals i)) ->
    exists w',
      for_range (sweep_body k gs) (seq lo len) a w =
        (Ok (fold_left (fun a i => write_cells i (vals i) a) (seq lo len) a), w') /\
      N (model w') = n /\ dim (model w') = d /\
      trace w' = trace w ++
                 flat_map (fun i => point_events k d (nth i gs 0) (vals i)) (seq lo len).
Proof.
  induction len as [|len IH]; intros lo a w Hn Hd Hpts.
  - exists w. simpl. now rewrite app_nil_r.
  - destruct (Hpts lo ltac:(lia)) as (Hx & Hb & Hc).
    rewrite <- Hn, <- Hd in Hc.
    pose proof (@sweep_body_ok k gs lo a w _ _ Hx Hb Hc) as Hbody.
    cbv zeta in Hbody. rewrite Hn, Hd in Hbody.
    assert (Hrest : forall i, (S lo <= i < S lo + len)%nat ->
              nth_error gs i = Some (nth i gs 0) /\
              in_bounds i (write_cells lo (vals lo) a) /\
              point_values n d k (nth i gs 0) = Ok (vals i)).
    { intros i Hi. destruct (Hpts i ltac:(lia)) as (Hx' & Hb' & Hc').
      split; [exact Hx'|]. split; [now apply write_cells_in_bounds | exact Hc']. }
    destruct (IH (S lo) (write_cells lo (vals lo) a)
                 (mkWorld (point_model n d (nth lo gs 0)) (Some point_wiring)
                          (trace w ++ point_events k d (nth lo gs 0) (vals lo)))
                 eq_refl eq_refl Hrest)
      as (w' & Hrun & Hn' & Hd' & Ht').
    exists w'. simpl. unfold bind at 1. rewrite Hbody, Hrun.
    repeat split; auto. rewrite Ht'. simpl trace. now rewrite <- app_assoc.
Qed.

Lemma array_set_app {A : Type} (p r : list A) (x y : A) (n : nat) :
  length p = n -> array_set (p ++ y :: r) n x = p ++ x :: r.
Proof.
  intros <-. induction p as [|z p IH]; simpl; [reflexivity | now rewrite IH].
Qed.

Lemma skipn_nth {A : Type} (l : list A) (n : nat) (d : A) :
  (n < length l)%nat -> skipn n l = nth n l d :: skipn (S n) l.
Proof.
  revert n; induction l as [|y l IH]; intros [|n] Hn; simpl in *; try lia; auto.
  apply IH. lia.
Qed.

(** writing cells 0..len-1 in order fills the front of the array *)
Lemma fold_array_set {A : Type} (v : nat -> A) (arr : list A) (len : nat) :
  (len <= length arr)%nat ->
  fold_left (fun a i => array_set a i (v i)) (seq 0 len) arr
  = map v (seq 0 len) ++ skipn len arr.
Proof.
  induction len as [|len IH]; intros Hlen; [reflexivity|].
  rewrite seq_S, fold_left_app, IH by lia.
  destruct arr as [|y0 arr0] eqn:Ea; [simpl in Hlen; lia|]. rewrite <- Ea in *.
  rewrite (skipn_nth arr y0) by lia.
  cbn [fold_left Nat.add].
  rewrite (@array_set_app _ (map v (seq 0 len)) (skipn (S len) arr) (v len)
             (nth len arr y0) len) by now rewrite length_map, length_seq.
  rewrite map_app, <- app_assoc. reflexivity.
Qed.

Lemma fold_write_cells (vals : nat -> float * float * float * float)
    (l : list nat) (a : Arrays) :
  fold_left (fun a i => write_cells i (vals i) a) l a =
  mkArrays
    (fold_left (fun r i => array_set r i (fst (fst (fst (vals i))))) l (chiFs_perturbation a))
    (fold_left (fun r i => array_set r i (snd (fst (fst (vals i))))) l (chiFs_matrixAD a))
    (fold_left (fun r i => array_set r i (snd (fst (vals i)))) l (chiFs_sparseAD a))
    (fold_left (fun r i => array_set r i (snd (vals i))) l (chiFs_geometric a)).
Proof.
  revert a; induction l as [|i l IH]; intros a; simpl; [now destruct a|].
  rewrite IH. destruct (vals i) as [[[c1 c2] c3] c4]. reflexivity.
Qed.

(** after the loop the arrays hold the table of the values *)
Lemma fold_write_cells_table (vals : nat -> float * float * float * float) (n : nat) :
  fold_left (fun a i => write_cells i (vals i) a) (seq 0 n)
            (mkArrays (np_empty 0 n) (np_empty 1 n) (np_empty 2 n) (np_empty 3 n))
  = table vals n.
Proof.
  rewrite fold_write_cells. unfold table, np_empty. simpl.
  rewrite !fold_array_set by (rewrite length_map, length_seq; lia).
  rewrite !skipn_all2 by (rewrite length_map, length_seq; lia).
  now rewrite !app_nil_r.
Qed.

Lemma linspace_length (start stop : R) (n : nat) : length (linspace start stop n) = n.
Proof. unfold linspace. now rewrite length_map, length_seq. Qed.

Lemma linspace_nth (start stop : R) (n i : nat) :
  (i < n)%nat ->
  nth i (linspace start stop n) 0 = start + INR i * ((stop - start) / INR (n - 1)).
Proof.
  intros Hi. unfold linspace. now rewrite nth_map_seq.
Qed.

Lemma console_app (e1 e2 : list Event) : console (e1 ++ e2) = console e1 ++ console e2.
Proof.
  induction e1 as [|e e1 IH]; simpl; [reflexivity|].
  destruct e; simpl; now rewrite ?IH.
Qed.

Lemma console_points (k d : nat) (gs : list R)
    (vals : nat -> float * float * float * float) (l : list nat) :
  console (flat_map (fun i => point_events k d (nth i gs 0) (vals i)) l)
  = map (fun i => let '(c1, c2, c3, c4) := vals i in
                  print_line (nth i gs 0) c1 c2 c3 c4) l.
Proof.
  induction l as [|i l IH]; simpl; [reflexivity|].
  rewrite console_app, IH. now destruct (vals i) as [[[c1 c2] c3] c4].
Qed.

(** a loop that ends without an exception has had an answer at every point *)
Lemma for_range_inv (n d k : nat) (gs : list R) (len : nat) :
  forall (lo : nat) (a a' : Arrays) (w w' : World),
    N (model w) = n -> dim (model w) = d ->
    (forall i, (lo <= i < lo + len)%nat ->
       nth_error gs i = Some (nth i gs 0) /\ in_bounds i a) ->
    for_range (sweep_body k gs) (seq lo len) a w = (Ok a', w') ->
    forall i, (lo <= i < lo + len)%nat ->
      exists c, point_values n d k (nth i gs 0) = Ok c.
Proof.
  induction len as [|len IH]; intros lo a a' w w' Hn Hd Hpts Hrun i Hi; [lia|].
  destruct (Hpts lo ltac:(lia)) as (Hx & Hb).
  simpl in Hrun. unfold bind at 1 in Hrun.
  destruct (point_values n d k (nth lo gs 0)) as [c|e] eqn:Hc.
  - destruct (Nat.eq_dec i lo) as [->|Hne]; [now exists c|].
    rewrite <- Hn, <- Hd in Hc.
    rewrite (@sweep_body_ok k gs lo a w _ _ Hx Hb Hc) in Hrun.
    apply (IH (S lo) _ a' _ w') with (i := i) in Hrun; auto; [|lia].
    intros j Hj. destruct (Hpts j ltac:(lia)) as (Hx' & Hb').
    split; [exact Hx' | now apply write_cells_in_bounds].
  - exfalso. rewrite <- Hn, <- Hd in Hc.
    pose proof (@sweep_body_raise k gs lo a w _ e Hx Hb Hc) as Hr.
    destruct (sweep_body k gs lo a w) as [[a0|e0] w0]; simpl in Hr; congruence.
Qed.

Lemma nth_error_nth_lt {A : Type} (l : list A) (i : nat) (d : A) :
  (i < length l)%nat -> nth_error l i = Some (nth i l d).
Proof.
  revert i; induction l as [|y l IH]; intros [|i] Hi; simpl in *; try lia; auto.
  apply IH. lia.
Qed.

Lemma np_empty_in_bounds (Npoints i : nat) :
  (i < Npoints)%nat ->
  in_bounds i (mkArrays (np_empty 0 Npoints) (np_empty 1 Npoints)
                        (np_empty 2 Npoints) (np_empty 3 Npoints)).
Proof.
  intros Hi. unfold in_bounds, np_empty. simpl.
  now rewrite !length_map, !length_seq.
Qed.

Lemma nth_table {A : Type} (f : nat -> A) (d j : nat) (x : A) :
  (j < d)%nat -> nth j (map f (seq 0 d)) x = f j.
Proof.
  intros Hj. rewrite (nth_indep _ x (f O)) by (rewrite length_map, length_seq; exact Hj).
  rewrite (map_nth f), seq_nth by exact Hj. reflexivity.
Qed.

Lemma cells_table (vals : nat -> float * float * float * float) (n i : nat) :
  (i < n)%nat -> cells i (table vals n) = vals i.
Proof.
  intros Hi. unfold cells, table. simpl. rewrite !nth_table by exact Hi.
  now destruct (vals i) as [[[c1 c2] c3] c4].
Qed.

(** the whole script, when every grid point answers *)
Lemma script_ok (n k Npoints : nat) (start stop : R) (w : World)
    (vals : nat -> float * float * float * float) :
  let d := dim (TFIM_new n) in
  let gs := linspace start stop Npoints in
  (forall i, (i < Npoints)%nat ->
     point_values (N (TFIM_new n)) d k (nth i gs 0) = Ok (vals i)) ->
  exists w',
    script n k Npoints start stop w = (Ok (table vals Npoints), w') /\
    trace w' = trace w ++ EvNewModel n ::
               flat_map (fun i => point_events k d (nth i gs 0) (vals i))
                        (seq 0 Npoints)
               ++ plots (N (TFIM_new n)) gs (table vals Npoints).
Proof.
  intros d gs Hpts.
  destruct (@for_range_ok (N (TFIM_new n)) d k gs vals Npoints 0
              (mkArrays (np_empty 0 Npoints) (np_empty 1 Npoints)
                        (np_empty 2 Npoints) (np_empty 3 Npoints))
              (mkWorld (TFIM_new n) (lanczos w) (trace w ++ [EvNewModel n]))
              eq_refl eq_refl)
    as (w1 & Hrun & HN & _ & Ht).
  { intros i Hi. split; [|split].
    - apply nth_error_nth_lt. unfold gs. rewrite linspace_length. lia.
    - apply np_empty_in_bounds. lia.
    - apply Hpts. lia. }
  rewrite fold_write_cells_table in Hrun.
  unfold script. run. fold gs. rewrite Hrun. run.
  eexists. split; [reflexivity|]. simpl. rewrite Ht, HN. simpl.
  unfold plots. rewrite <- !app_assoc. reflexivity.
Qed.

(** a script that ends without an exception has recorded, at every index,
    the values of that grid point *)
Lemma script_inv (n k Npoints : nat) (start stop : R) (w : World) (a : Arrays) :
  let gs := linspace start stop Npoints in
  fst (script n k Npoints start stop w) = Ok a ->
  forall i, (i < Npoints)%nat ->
    point_values (N (TFIM_new n)) (dim (TFIM_new n)) k (nth i gs 0) = Ok (cells i a).
Proof.
  intros gs Hok.
  assert (Hall : forall i, (i < Npoints)%nat ->
            exists c, point_values (N (TFIM_new n)) (dim (TFIM_new n)) k (nth i gs 0)
                      = Ok c).
  { unfold script in Hok. revert Hok. run. fold gs.
    destruct (for_range _ _ _ _) as [[a0|e] w0] eqn:Hrun; [|discriminate].
    intros _ i Hi.
    apply (@for_range_inv _ _ k gs Npoints 0 _ a0 _ w0 eq_refl eq_refl) with (i := i)
      in Hrun; [exact Hrun| |lia].
    intros j Hj. split.
    - apply nth_error_nth_lt. unfold gs. rewrite linspace_length. lia.
    - apply np_empty_in_bounds. lia. }
  assert (Hvals : forall i, (i < Npoints)%nat ->
            point_values (N (TFIM_new n)) (dim (TFIM_new n)) k (nth i gs 0)
            = Ok (vals_of (N (TFIM_new n)) (dim (TFIM_new n)) k gs i)).
  { intros i Hi. destruct (Hall i Hi) as [c Hc]. unfold vals_of. now rewrite Hc. }
  destruct (@script_ok n k Npoints start stop w _ Hvals) as (w' & Hrun & _).
  rewrite Hrun in Hok. injection Hok as <-.
  intros i Hi. rewrite (Hvals i Hi). f_equal. symmetry. now apply cells_table.
Qed.

(** the run of the script as it stands: N = 10, k = 300, 100 points from
    0.45 to 1.6, hence 100 lines on the console *)
Lemma main_console (w : World) (vals : nat -> float * float * float * float) :
  let gs := linspace (45 / 100) (16 / 10) 100 in
  (forall i, (i < 100)%nat ->
     point_values (N (TFIM_new 10)) (dim (TFIM_new 10)) 300 (nth i gs 0) = Ok (vals i)) ->
  fst (main w) = Ok (table vals 100) /\
  nth 0 gs 0 = 45 / 100 /\ nth 99 gs 0 = 16 / 10 /\
  length (console (trace (snd (main w)))) = (length (console (trace w)) + 100)%nat.
Proof.
  intros gs Hpts. unfold main.
  destruct (@script_ok 10 300 100 (45 / 100) (16 / 10) w vals Hpts) as (w' & Hrun & Ht).
  rewrite Hrun. simpl fst. simpl snd. split; [reflexivity|].
  split; [|split].
  - unfold gs. rewrite linspace_nth by lia. simpl. lra.
  - unfold gs. rewrite linspace_nth by lia.
    change (100 - 1)%nat with 99%nat.
    replace (INR 99) with 99 by (rewrite INR_IZR_INZ; reflexivity). field.
  - rewrite Ht, console_app.
    change (EvNewModel 10 :: ?l) with ([EvNewModel 10] ++ l).
    rewrite !console_app, console_points, !length_app, length_map, length_seq.
    simpl. lia.
Qed.

End Sweep.

(** * The claims *)

Section Claims.

Context {L : Imports}.

(** C1.  [chiF_perturbation] diagonalises the dense Hamiltonian with
    [symeig], takes the first column of the eigenvectors as ground state, and
    returns the sum over the excited levels n = 1..d-1 of
    <psi_n| dH/dg |psi_0>^2 / (E_0 - E_n)^2, a scalar.  ([P] is the matrix that
    [setpHpg] stores, a symmetric d x d matrix; no excited level has the
    ground energy, so that every quotient is a real number.) *)
Theorem chiF_perturbation_formula (w : World) (H : list (list J2)) (Es : Vec)
    (psis : Matrix) (d : nat) :
  let m := model w in
  let P := pHpgmatrix_of (N m) (dim m) (g m) in
  Hmatrix m = Some H ->
  symeig (mvalues H) = Ok (Es, psis) ->
  (0 < d)%nat -> length Es = d -> is_matrix d d psis ->
  is_matrix d d P -> symmetric P ->
  nondegenerate d Es ->
  fst (chiF_perturbation w) = Ok (Real (chiF_formula d Es psis P)) /\
  trace (snd (chiF_perturbation w)) = trace w ++ [EvSymeig; EvSetpHpg].
Proof.
  intros m P HH Hs Hd HEs Hpsis HP Hsym Hnd.
  assert (Hc : ncols psis = d) by (eapply ncols_is_matrix; eauto).
  assert (HE0 : nth_error Es 0 = Some (nth 0 Es 0))
    by (destruct Es; simpl in *; [lia | reflexivity]).
  rewrite (chiF_perturbation_run w HH Hs ltac:(lia) HE0). simpl.
  split; [|reflexivity].
  f_equal. fold m. fold P. now apply perturbation_sum.
Qed.

(** C6.  The division of [chiF_perturbation] is not guarded.  For a
    symmetric Hamiltonian, on which [symeig] returns d eigenvalues and d
    eigenvectors, and with the squared gaps computed exactly (no rounding),
    no denominator (E_0 - E_n)^2, n = 1..d-1, is zero exactly when no
    excited energy equals the ground energy, and exactly then the evaluator
    returns a real number; with a degenerate ground energy it divides by
    zero and what it returns is not a real number.  (In float64 a squared
    gap may round to zero between two different levels.) *)
Theorem chiF_perturbation_division (w : World) (H : list (list J2)) (d : nat) :
  Hmatrix (model w) = Some H ->
  (0 < d)%nat ->
  symmetric (mvalues H) ->
  (symmetric (mvalues H) ->
   exists Es psis, symeig (mvalues H) = Ok (Es, psis) /\
                   length Es = d /\ is_matrix d d psis) ->
  exists Es psis,
    symeig (mvalues H) = Ok (Es, psis) /\
    (Forall (fun x => x <> 0) (denominators (nth 0 Es 0) Es) <-> nondegenerate d Es) /\
    ((exists c, fst (chiF_perturbation w) = Ok (Real c)) <-> nondegenerate d Es) /\
    (~ nondegenerate d Es -> fst (chiF_perturbation w) = Ok NotReal).
Proof.
  intros HH Hd Hsym Hcontract.
  destruct (Hcontract Hsym) as (Es & psis & Hs & HEs & Hpsis).
  exists Es, psis. split; [exact Hs|].
  assert (Hc : ncols psis = d) by (eapply ncols_is_matrix; eauto).
  assert (HE0 : nth_error Es 0 = Some (nth 0 Es 0))
    by (destruct Es; simpl in *; [lia | reflexivity]).
  rewrite (chiF_perturbation_run w HH Hs ltac:(lia) HE0). simpl.
  set (nums := numerators _ _ _). set (dens := denominators _ _).
  assert (Hlen : length nums = length dens).
  { unfold nums, dens. rewrite numerators_length, denominators_length. lia. }
  pose proof (fsum_vdiv_real nums dens Hlen) as Hreal.
  pose proof (@denominators_nonzero d Es HEs) as Hden. fold dens in Hden.
  split; [exact Hden|]. split.
  - rewrite <- Hden, <- Hreal. split; intros [c Hc']; exists c; congruence.
  - intros Hdeg. destruct (fsum (vdiv nums dens)) as [c|] eqn:Ef; [|reflexivity].
    exfalso. apply Hdeg, Hden, Hreal. now exists c.
Qed.

(** C2.  [chiF_matrixAD] takes (E0, psi0) from the dominant-eigenpair
    primitive, forms log(psi0.detach() . psi0), in which the detached copy
    enters by its values only, runs two reverse passes one after the other,
    the first with [create_graph=True], and returns the negated second
    derivative: with F, F', F'' the overlap of the values of psi0 with psi0,
    with its first and with its second derivative, -(F''/F - (F'/F)^2).  Had
    the first pass not kept the graph the second would raise.  When the jets
    of psi0 are those of functions of g, that number is the negated second
    derivative at g0 of g |-> log <psi0(g0)|psi0(g)>. *)
Theorem chiF_matrixAD_spec (w : World) (H : list (list J2)) (k : nat)
    (E0 : J2) (psi0 : list J2) :
  Hmatrix (model w) = Some H ->
  DominantSymeig_apply H k = Ok (E0, psi0) ->
  let v := map jv psi0 in
  let F := dot v v in
  let F1 := dot v (map jd1 psi0) in
  let F2 := dot v (map jd2 psi0) in
  chiF_matrixAD k w =
    (Ok (- (F2 / F - sqr (F1 / F))),
     mkWorld (model w) (lanczos w)
             (trace w ++ [EvDominantSymeig k; EvGrad true; EvGrad false])) /\
  fst ((dlogF <- autograd_grad false (jlog (overlap psi0)) ;;
        autograd_grad_again dlogF) w) = Raise RuntimeError /\
  (forall (f f1 f2 : nat -> R -> R) (g0 : R),
     (forall i x, derivable_pt_lim (f i) x (f1 i x)) ->
     (forall i x, derivable_pt_lim (f1 i) x (f2 i x)) ->
     psi0 = jet_at f f1 f2 (length psi0) g0 ->
     0 < F ->
     let O := fun x => dot v (map (fun i => f i x) (seq 0 (length psi0))) in
     let dO := fun x => dot v (map (fun i => f1 i x) (seq 0 (length psi0))) in
     (forall x, 0 < O x -> derivable_pt_lim (fun y => ln (O y)) x (dO x / O x)) /\
     derivable_pt_lim (fun x => dO x / O x) g0 (F2 / F - sqr (F1 / F))).
Proof.
  intros HH Hp v F F1 F2.
  assert (Hchi : chiF_AD psi0 = - (F2 / F - sqr (F1 / F)))
    by (unfold chiF_AD; rewrite overlap_components; reflexivity).
  split; [|split].
  - rewrite (chiF_matrixAD_run w k HH Hp). now rewrite Hchi.
  - reflexivity.
  - intros f f1 f2 g0 Hf1 Hf2 Hpsi HF O dO.
    pose proof (@log_overlap_derivatives f f1 f2 (length psi0) g0 Hf1 Hf2) as Hlog.
    cbv zeta in Hlog. rewrite <- Hpsi in Hlog.
    assert (Hv : v = map (fun i => f i g0) (seq 0 (length psi0))).
    { unfold v. rewrite Hpsi at 1. unfold jet_at. now rewrite map_map. }
    assert (HO : O g0 = F) by (unfold O, F; now rewrite <- Hv).
    assert (Hpos : 0 < O g0) by (rewrite HO; exact HF).
    destruct (Hlog Hpos) as (Hln & _ & Hd2).
    split; [exact Hln|].
    replace (F2 / F - sqr (F1 / F)) with (jd2 (jlog (overlap psi0))); [exact Hd2|].
    rewrite overlap_components. reflexivity.
Qed.

(** C9.  In every call of [chiF_sparseAD], whatever the state it starts
    from and whatever its outcome, the setup call
    [setDominantSparseSymeig] is the first thing done and the sparse
    primitive is applied next, to the operator the setup call has just
    configured: never before the setup call of the same invocation. *)
Theorem chiF_sparseAD_setup_first (w : World) (k : nat) :
  let m := model w in
  let w' := snd (chiF_sparseAD k w) in
  exists evs,
    trace w' = trace w ++ evs /\
    setup_before_apply false evs = true /\
    nth_error evs 0 = Some EvSetDominantSparseSymeig /\
    nth_error evs 1 = Some (EvDominantSparseSymeig k (dim m)) /\
    lanczos w' = Some (mkWiring model_H model_Hadjoint_to_gadjoint) /\
    (forall r,
       DominantSparseSymeig_apply (model_H m) (model_Hadjoint_to_gadjoint m)
                                  (g m) k (dim m) = Ok r ->
       exists c, fst (chiF_sparseAD k w) = Ok (r, c)).
Proof.
  intros m w'. subst w'.
  unfold chiF_sparseAD, setDominantSparseSymeig, dominant_sparse_symeig,
    autograd_grad, autograd_grad_again. run. fold m.
  destruct (DominantSparseSymeig_apply _ _ _ _ _) as [[E0 psi0]|e]; run.
  - exists [EvSetDominantSparseSymeig; EvDominantSparseSymeig k (dim m);
            EvGrad true; EvGrad false].
    rewrite <- !app_assoc. simpl. repeat split; try reflexivity.
    intros r [= <-]. now eexists.
  - exists [EvSetDominantSparseSymeig; EvDominantSparseSymeig k (dim m)].
    rewrite <- !app_assoc. simpl. repeat split; try reflexivity.
    intros r [=].
Qed.

(** C10.  [chiF_perturbation] writes the model: it calls [setpHpg], which
    rebuilds the parameter-derivative matrix, and leaves the field value g,
    the dense matrix [Hmatrix] and the construction parameters as they
    were.  The other three evaluators write no attribute of the model
    (whatever their outcome). *)
Theorem evaluators_frame (w : World) (k : nat) (E0 : J2) (psi0 : list J2) :
  let m := model w in
  (let m' := model (snd (chiF_perturbation w)) in
   N m' = N m /\ dim m' = dim m /\ g m' = g m /\ Hmatrix m' = Hmatrix m /\
   (forall c, fst (chiF_perturbation w) = Ok c ->
      pHpgmatrix m' = Some (pHpgmatrix_of (N m) (dim m) (g m)) /\
      In EvSetpHpg (trace (snd (chiF_perturbation w))))) /\
  model (snd (chiF_matrixAD k w)) = m /\
  model (snd (chiF_sparseAD k w)) = m /\
  model (snd (chiF_geometric E0 psi0 w)) = m.
Proof.
  intros m. split; [|split; [|split]].
  - destruct (chiF_perturbation_frame w) as (HN & Hdim & Hg & HH & _ & _ & HP).
    cbv zeta. repeat (split; [assumption|]).
    intros c Hc. split; [now apply (HP c)|].
    revert Hc. unfold chiF_perturbation. run.
    destruct (Hmatrix (model w)) as [H|]; run; [|discriminate].
    destruct (symeig (mvalues H)) as [[Es psis]|e]; run; [|discriminate].
    destruct (0 <? ncols psis)%nat; run; [|discriminate].
    destruct Es as [|e Es]; run; [discriminate|].
    intros _. apply in_or_app. right. now left.
  - apply chiF_matrixAD_frame.
  - apply chiF_sparseAD_frame.
  - apply chiF_geometric_frame.
Qed.

(** C8.  The driver sweeps the linear grid [linspace start stop Npoints]
    (entry i is start + i (stop - start) / (Npoints - 1)).  When the
    collaborators answer at every grid point, it does at the points 0, 1, ...
    in this order: set [model.g] to the grid value (narrowed to float32) and
    mark it as requiring gradients, rebuild the dense matrix, run the four
    evaluators (perturbation, dense AD, sparse AD, geometric), record their
    values in cell i of the four arrays, and print one line: the label
    "g: " and the grid value, then for each evaluator its label and the
    value recorded in cell i; the console holds exactly one line per point,
    in grid order. *)
Theorem script_sweep (n k Npoints : nat) (start stop : R) (w : World)
    (vals : nat -> float * float * float * float) :
  let d := dim (TFIM_new n) in
  let gs := linspace start stop Npoints in
  (forall i, (i < Npoints)%nat ->
     point_values (N (TFIM_new n)) d k (nth i gs 0) = Ok (vals i)) ->
  let r := script n k Npoints start stop w in
  length gs = Npoints /\
  (forall i, (i < Npoints)%nat ->
     nth i gs 0 = start + INR i * ((stop - start) / INR (Npoints - 1))) /\
  fst r = Ok (table vals Npoints) /\
  trace (snd r) =
    trace w ++ EvNewModel n ::
    flat_map (fun i => point_events k d (nth i gs 0) (vals i)) (seq 0 Npoints)
    ++ plots (N (TFIM_new n)) gs (table vals Npoints) /\
  console (trace (snd r)) =
    console (trace w) ++
    map (fun i => let '(c1, c2, c3, c4) := vals i in
                  [Str "g: "; Num (Real (nth i gs 0));
                   Str "chiF_perturbation: "; Num c1;
                   Str "chiF_matrixAD: "; Num c2;
                   Str "chiF_sparseAD: "; Num c3;
                   Str "chiF_geometric: "; Num c4]) (seq 0 Npoints) /\
  (forall i, (i < Npoints)%nat -> cells i (table vals Npoints) = vals i).
Proof.
  intros d gs Hpts r.
  destruct (@script_ok _ n k Npoints start stop w vals Hpts) as (w' & Hrun & Ht).
  subst r. rewrite Hrun. simpl.
  split; [apply linspace_length|].
  split; [intros i Hi; now apply linspace_nth|].
  split; [reflexivity|]. split; [exact Ht|].
  split; [|intros i Hi; now apply cells_table].
  rewrite Ht, console_app. f_equal.
  change (EvNewModel n :: ?l) with ([EvNewModel n] ++ l).
  rewrite !console_app, console_points. simpl. rewrite app_nil_r.
  apply map_ext. intros i. destruct (vals i) as [[[c1 c2] c3] c4]. reflexivity.
Qed.

(** C7.  No state crosses from one grid point to another.  Whatever the
    model attributes, the process-wide configuration, the arrays and the
    console are when the loop body starts, the four values it records at a
    grid value x are the same function of x, of the construction parameters
    of the model and of k; so two passes at the same grid value, in whatever
    states, record the same values (or raise the same exception), and a second
    pass at a point records what the first did.  In two runs of the script,
    on whatever grids, the cells of two indices with the same grid value
    hold the same four values. *)
Theorem no_cross_point_state (k : nat) (x : R) :
  (forall gs1 gs2 i j a1 a2 w1 w2,
     N (model w1) = N (model w2) -> dim (model w1) = dim (model w2) ->
     nth_error gs1 i = Some x -> nth_error gs2 j = Some x ->
     in_bounds i a1 -> in_bounds j a2 ->
     values i (sweep_body k gs1 i a1 w1) = point_values (N (model w1)) (dim (model w1)) k x /\
     values i (sweep_body k gs1 i a1 w1) = values j (sweep_body k gs2 j a2 w2) /\
     (forall a' w', sweep_body k gs1 i a1 w1 = (Ok a', w') ->
        values i (sweep_body k gs1 i a' w') = Ok (cells i a'))) /\
  (forall n Np1 Np2 s1 e1 s2 e2 w1 w2 a1 a2 i j,
     fst (script n k Np1 s1 e1 w1) = Ok a1 ->
     fst (script n k Np2 s2 e2 w2) = Ok a2 ->
     (i < Np1)%nat -> (j < Np2)%nat ->
     nth i (linspace s1 e1 Np1) 0 = x -> nth j (linspace s2 e2 Np2) 0 = x ->
     cells i a1 = cells j a2).
Proof.
  split.
  - intros gs1 gs2 i j a1 a2 w1 w2 HN Hd Hx1 Hx2 Hb1 Hb2.
    pose proof (@sweep_body_values _ k gs1 i a1 w1 x Hx1 Hb1) as H1.
    pose proof (@sweep_body_values _ k gs2 j a2 w2 x Hx2 Hb2) as H2.
    split; [exact H1|]. split; [rewrite H1, H2; now rewrite HN, Hd|].
    intros a' w' Hrun.
    destruct (point_values (N (model w1)) (dim (model w1)) k x) as [c|e] eqn:Hc.
    + rewrite (@sweep_body_ok _ k gs1 i a1 w1 x c Hx1 Hb1 Hc) in Hrun.
      injection Hrun as <- <-.
      rewrite (@sweep_body_values _ k gs1 i _ _ x Hx1 (write_cells_in_bounds i c Hb1)).
      simpl. rewrite Hc. now rewrite cells_write_cells.
    + pose proof (@sweep_body_raise _ k gs1 i a1 w1 x e Hx1 Hb1 Hc) as Hr.
      rewrite Hrun in Hr. discriminate Hr.
  - intros n Np1 Np2 s1 e1 s2 e2 w1 w2 a1 a2 i j Hok1 Hok2 Hi Hj Hx1 Hx2.
    pose proof (@script_inv _ n k Np1 s1 e1 w1 a1 Hok1 i Hi) as H1.
    pose proof (@script_inv _ n k Np2 s2 e2 w2 a2 Hok2 j Hj) as H2.
    cbv zeta in H1, H2. rewrite Hx1 in H1. rewrite Hx2 in H2. congruence.
Qed.

(** C3.  [chiF_sparseAD] and [chiF_matrixAD] meet the same contract.  When
    the matrix-free operator [model.H] is the dense matrix [model.Hmatrix]
    (d x d, symmetric, with a non-degenerate ground level) and both
    primitives return what their contract says, a ground eigenpair of unit
    norm as graph tensors in g, then the two eigenvalues are equal, the two
    eigenvectors are equal up to one sign, the two evaluators compute the
    same chi_F, and [chiF_sparseAD] returns the triple (E0, psi0, chi_F). *)
Theorem sparse_dense_agree (w : World) (k d : nat) (H : list (list J2))
    (Ed Es : J2) (td ts : list J2) :
  let m := model w in
  Hmatrix m = Some H -> is_matrix d d H -> symmetric (mvalues H) ->
  (forall v, length v = d -> model_H m v = matvec (mvalues H) v) ->
  DominantSymeig_apply H k = Ok (Ed, td) ->
  DominantSparseSymeig_apply (model_H m) (model_Hadjoint_to_gadjoint m)
                             (g m) k (dim m) = Ok (Es, ts) ->
  eigenjet d H Ed td -> lowest d (matvec (mvalues H)) (jv Ed) ->
  eigenjet d H Es ts -> lowest d (model_H m) (jv Es) ->
  simple d (mvalues H) (jv Ed) ->
  Es = Ed /\
  (exists s, (s = 1 \/ s = -1) /\ ts = map (jscale s) td) /\
  exists c, fst (chiF_matrixAD k w) = Ok c /\
            fst (chiF_sparseAD k w) = Ok (Es, ts, c).
Proof.
  intros m HH HM Hsym Hsame Hpd Hps Hjd Hld Hjs Hls Hsimple.
  assert (Hls' : lowest d (matvec (mvalues H)) (jv Es)).
  { intros E v Lv Hn Hv. apply (Hls E v Lv Hn). now rewrite Hsame. }
  destruct (eigenjet_agree d H Ed Es td ts HM Hsym Hjd Hjs Hld Hls' Hsimple)
    as (HE & s & Hsign & Hts).
  split; [exact HE|]. split; [now exists s|].
  exists (chiF_AD td).
  rewrite (chiF_matrixAD_run w k HH Hpd), (chiF_sparseAD_run w k Hps). simpl.
  split; [reflexivity|].
  rewrite Hts at 2. now rewrite (chiF_AD_sign s td Hsign).
Qed.

(** C4.  [chiF_geometric] forms b = -(dH/dg) psi0 and subtracts its psi0
    component, which makes b orthogonal to a psi0 of unit norm; it hands b
    to the conjugate-gradient primitive and returns the squared norm of
    what the primitive returns.  When the primitive meets its contract (the
    solution of (H - E0) x = b orthogonal to psi0) and (E0, psi0) is the
    ground eigenpair of [model.H], with [model.pHpg] its derivative in g,
    the solution is the first derivative of psi0 in g, so that chi_F is the
    squared norm of that derivative. *)
Theorem chiF_geometric_spec (w : World) (d : nat) (E0 : J2) (psi0 : list J2)
    (x : Vec) :
  let m := model w in
  let v := map jv psi0 in
  let b := vneg (model_pHpg m v) in
  length v = d -> length (model_pHpg m v) = d ->
  CGSubspaceSparse_apply (configured w) (g m) (jv E0)
                         (vsub b (vscale (dot v b) v)) v = Ok x ->
  fst (chiF_geometric E0 psi0 w) = Ok (dot x x) /\
  0 <= dot x x /\
  (dot v v = 1 -> dot v (vsub b (vscale (dot v b) v)) = 0) /\
  (forall H,
     is_matrix d d H -> symmetric (mvalues H) ->
     (forall u, length u = d -> model_H m u = matvec (mvalues H) u) ->
     (forall u, length u = d -> model_pHpg m u = matvec (mderiv1 H) u) ->
     eigenjet d H E0 psi0 -> simple d (mvalues H) (jv E0) ->
     cg_solution (model_H m) (jv E0) (vsub b (vscale (dot v b) v)) v x ->
     x = map jd1 psi0 /\ dot x x = chiF_AD psi0).
Proof.
  intros m v b Lv Lb Hcg.
  split; [|split; [|split]].
  - rewrite (chiF_geometric_run w E0 psi0 Hcg). reflexivity.
  - apply dot_self_nonneg.
  - intros Hn. apply projected_orthogonal; [|exact Hn].
    unfold b, vneg. rewrite length_map. congruence.
  - intros H HM Hsym HA HP Hjet Hsimple Hsol.
    assert (Hx : x = map jd1 psi0)
      by exact (cg_solution_derivative d H (model_H m) (model_pHpg m) E0 psi0 x
                  HM Hsym HA HP Hjet Hsimple Hsol).
    split; [exact Hx|].
    rewrite Hx. symmetry. apply chiF_AD_unit_norm. apply Hjet.
Qed.

(** C5.  What each of the four evaluators returns is not negative:
    [chiF_perturbation] returns a sum of quotients of squares (when it is a
    real number at all), [chiF_geometric] a squared norm, and the two
    differentiated evaluators, for an eigenvector that the primitive keeps
    of unit norm in g, the squared norm of the derivative of the
    eigenvector. *)
Theorem chiF_nonnegative (w : World) (k : nat) (E0 : J2) (psi0 : list J2) :
  (forall c, fst (chiF_perturbation w) = Ok (Real c) -> 0 <= c) /\
  (forall c, fst (chiF_geometric E0 psi0 w) = Ok c -> 0 <= c) /\
  (forall H E t c,
     Hmatrix (model w) = Some H -> DominantSymeig_apply H k = Ok (E, t) ->
     unit_norm t ->
     fst (chiF_matrixAD k w) = Ok c ->
     c = dot (map jd1 t) (map jd1 t) /\ 0 <= c) /\
  (forall E t r,
     DominantSparseSymeig_apply (model_H (model w))
       (model_Hadjoint_to_gadjoint (model w)) (g (model w)) k (dim (model w))
     = Ok (E, t) ->
     unit_norm t ->
     fst (chiF_sparseAD k w) = Ok r ->
     snd r = dot (map jd1 t) (map jd1 t) /\ 0 <= snd r).
Proof.
  split; [|split; [|split]].
  - intros c. unfold chiF_perturbation. run.
    destruct (Hmatrix (model w)) as [H|]; run; [|discriminate].
    destruct (symeig (mvalues H)) as [[Es psis]|e]; run; [|discriminate].
    destruct (0 <? ncols psis)%nat; run; [|discriminate].
    destruct Es as [|e Es]; run; [discriminate|].
    intros [= Hc]. unfold numerators, denominators in Hc.
    now apply fsum_squares_nonneg in Hc.
  - intros c. unfold chiF_geometric, cg. run.
    destruct (CGSubspaceSparse_apply _ _ _ _ _) as [x|e]; run; [|discriminate].
    intros [= <-]. apply dot_self_nonneg.
  - intros H E t c HH Hp Hn. rewrite (chiF_matrixAD_run w k HH Hp). simpl.
    intros [= <-]. rewrite (chiF_AD_unit_norm t Hn).
    split; [reflexivity | apply dot_self_nonneg].
  - intros E t r Hp Hn. rewrite (chiF_sparseAD_run w k Hp). simpl.
    intros [= <-]. simpl. rewrite (chiF_AD_unit_norm t Hn).
    split; [reflexivity | apply dot_self_nonneg].
Qed.

End Claims.

Lemma toy_P_symmetric : symmetric Toy.P.
Proof.
  intros i j. unfold entry, Toy.P.
  destruct i as [|[|[|i]]]; destruct j as [|[|[|j]]]; reflexivity.
Qed.

Lemma toy_nondegenerate : nondegenerate 2 [-1; 1].
Proof.
  intros n Hn. assert (n = 1%nat) as -> by lia. simpl. lra.
Qed.

Lemma chiF_perturbation_formula_witness :
  fst (chiF_perturbation (L := Toy.imports) Toy.world)
  = Ok (Real (chiF_formula 2 [-1; 1] Toy.identity Toy.P)).
Proof.
  apply (chiF_perturbation_formula (L := Toy.imports) Toy.world (d := 2)
           (H := Toy.H (leaf 0)) (Es := [-1; 1]) (psis := Toy.identity)).
  - reflexivity.
  - reflexivity.
  - lia.
  - reflexivity.
  - split; [reflexivity | repeat constructor].
  - split; [reflexivity | repeat constructor].
  - exact toy_P_symmetric.
  - exact toy_nondegenerate.
Defined.

Lemma toy_H_symmetric : symmetric (mvalues (Toy.H (leaf 0))).
Proof.
  intros i j. unfold entry, Toy.H, mvalues.
  destruct i as [|[|[|i]]]; destruct j as [|[|[|j]]]; reflexivity.
Qed.

Lemma chiF_perturbation_division_witness :
  exists Es psis,
    @symeig Toy.imports (mvalues (Toy.H (leaf 0))) = Ok (Es, psis) /\
    (Forall (fun x => x <> 0) (denominators (nth 0 Es 0) Es) <-> nondegenerate 2 Es) /\
    ((exists c, fst (chiF_perturbation (L := Toy.imports) Toy.world) = Ok (Real c))
     <-> nondegenerate 2 Es) /\
    (~ nondegenerate 2 Es ->
     fst (chiF_perturbation (L := Toy.imports) Toy.world) = Ok NotReal).
Proof.
  apply (chiF_perturbation_division (L := Toy.imports) Toy.world
           (H := Toy.H (leaf 0)) (d := 2)).
  - reflexivity.
  - lia.
  - exact toy_H_symmetric.
  - intros _. exists [-1; 1], Toy.identity.
    split; [reflexivity|]. split; [reflexivity|].
    split; [reflexivity | repeat constructor].
Defined.

Lemma chiF_matrixAD_spec_witness :
  fst (chiF_matrixAD (L := Toy.imports) 300 Toy.world) = Ok (1 / 4).
Proof.
  destruct (chiF_matrixAD_spec (L := Toy.imports) Toy.world 300
              (H := Toy.H (leaf 0)) (E0 := Toy.E0) (psi0 := Toy.psi0)
              eq_refl eq_refl) as [Hrun _].
  rewrite Hrun. simpl. f_equal. unfold dot, sqr. simpl. field.
Defined.

(** every grid point of the two-level instance answers, with 1/4 four times *)
Lemma toy_point (n k : nat) (x : R) :
  point_values (L := Toy.imports) n 2 k x
  = Ok (Real (1 / 4), Real (1 / 4), Real (1 / 4), Real (1 / 4)).
Proof.
  unfold point_values. simpl.
  unfold numerators, denominators, vecmat, vdiv, vpow2, ssub, from1, dot, entry. simpl.
  unfold fdiv. destruct (Req_dec_T _ 0) as [E|_].
  - exfalso. unfold sqr in E. lra.
  - unfold chiF_AD, overlap, cdot, sqr, Toy.psi0. simpl.
    assert (Hfour : forall a b c d a' b' c' d' : R,
              a = a' -> b = b' -> c = c' -> d = d' ->
              @Ok (float * float * float * float) (Real a, Real b, Real c, Real d)
              = Ok (Real a', Real b', Real c', Real d'))
      by (intros; subst; reflexivity).
    apply Hfour; unfold sqr; field.
Qed.

Lemma script_sweep_witness :
  fst (script (L := Toy.imports) 1 300 2 0 0 Toy.world)
  = Ok (table (fun _ => (Real (1 / 4), Real (1 / 4), Real (1 / 4), Real (1 / 4))) 2).
Proof.
  destruct (@script_sweep Toy.imports 1 300 2 0 0 Toy.world
              (fun _ => (Real (1 / 4), Real (1 / 4), Real (1 / 4), Real (1 / 4))))
    as (_ & _ & Hr & _).
  - intros i Hi. apply toy_point.
  - exact Hr.
Defined.

Lemma no_cross_point_state_witness :
  values 0 (sweep_body (L := Toy.imports) 300 [0] 0
              (mkArrays [NotReal] [NotReal] [NotReal] [NotReal]) Toy.world)
  = values 1 (sweep_body (L := Toy.imports) 300 [5; 0] 1
                (mkArrays [Real 1; Real 2] [Real 3; Real 4] [Real 5; Real 6]
                          [Real 7; Real 8])
                (mkWorld (mkModel 1 2 (leaf 7) None (Some Toy.identity))
                         (Some (mkWiring (fun _ v => v) (fun _ _ _ => 0)))
                         [EvShow])).
Proof.
  destruct (@no_cross_point_state Toy.imports 300 0) as [Hbody _].
  apply (Hbody [0] [5; 0] 0%nat 1%nat).
  - reflexivity.
  - reflexivity.
  - reflexivity.
  - reflexivity.
  - unfold in_bounds. simpl. lia.
  - unfold in_bounds. simpl. lia.
Defined.

Lemma toy_H_matrix : is_matrix 2 2 (Toy.H (leaf 0)).
Proof. split; [reflexivity | repeat constructor]. Qed.

Lemma J2_eq (a b c a' b' c' : R) :
  a = a' -> b = b' -> c = c' -> mkJ a b c = mkJ a' b' c'.
Proof. now intros -> -> ->. Qed.

Lemma toy_eigenjet : eigenjet 2 (Toy.H (leaf 0)) Toy.E0 Toy.psi0.
Proof.
  split; [reflexivity|]. split.
  - unfold jmatvec, jdot, jsum, jmul, jadd, Toy.H, Toy.E0, Toy.psi0, leaf. simpl.
    f_equal; [apply J2_eq; field | f_equal; apply J2_eq; field].
  - unfold unit_norm, jdot, jsum, jmul, jadd, Toy.psi0. simpl. apply J2_eq; field.
Qed.

Lemma toy_lowest : lowest 2 (matvec (mvalues (Toy.H (leaf 0)))) (-1).
Proof.
  intros E v Lv Hn Hv.
  destruct v as [|x [|y [|z v]]]; simpl in Lv; try discriminate Lv.
  unfold matvec, mvalues, vscale, dot in *. simpl in *. injection Hv as H1 H2.
  destruct (Req_dec x 0) as [Hx|Hx].
  - assert (Hy : y <> 0) by (intros ->; apply Hn; subst x; ring).
    assert (E = 1) by (apply (Rmult_eq_reg_r y); [lra | exact Hy]). lra.
  - assert (E = -1) by (apply (Rmult_eq_reg_r x); [lra | exact Hx]). lra.
Qed.

Lemma toy_simple : simple 2 (mvalues (Toy.H (leaf 0))) (-1).
Proof.
  intros u v Lu Lv Hu Hv Hn.
  destruct u as [|x [|y [|z u]]]; simpl in Lu; try discriminate Lu.
  destruct v as [|x' [|y' [|z' v]]]; simpl in Lv; try discriminate Lv.
  unfold matvec, mvalues, vscale, dot in *. simpl in *.
  injection Hu as _ Hy. injection Hv as _ Hy'.
  assert (y = 0) by lra. assert (y' = 0) by lra. subst y y'.
  assert (Hx : x <> 0) by (intros ->; apply Hn; ring).
  exists (x' / x). f_equal; [field; exact Hx|]. f_equal. ring.
Qed.

Lemma toy_eigenjet_flipped :
  eigenjet 2 (Toy.H (leaf 0)) Toy.E0 (map (jscale (-1)) Toy.psi0).
Proof.
  split; [reflexivity|]. split.
  - unfold jmatvec, jdot, jsum, jmul, jadd, jscale, Toy.H, Toy.E0, Toy.psi0, leaf.
    simpl. f_equal; [apply J2_eq; field | f_equal; apply J2_eq; field].
  - unfold unit_norm, jdot, jsum, jmul, jadd, jscale, Toy.psi0. simpl.
    apply J2_eq; field.
Qed.

Lemma sparse_dense_agree_witness :
  Toy.E0 = Toy.E0 /\
  (exists s, (s = 1 \/ s = -1) /\ map (jscale (-1)) Toy.psi0 = map (jscale s) Toy.psi0) /\
  exists c, fst (chiF_matrixAD (L := Toy.flipped) 300 Toy.world) = Ok c /\
            fst (chiF_sparseAD (L := Toy.flipped) 300 Toy.world)
            = Ok (Toy.E0, map (jscale (-1)) Toy.psi0, c).
Proof.
  apply (@sparse_dense_agree Toy.flipped Toy.world 300 2 (Toy.H (leaf 0))
           Toy.E0 Toy.E0 Toy.psi0 (map (jscale (-1)) Toy.psi0)).
  - reflexivity.
  - exact toy_H_matrix.
  - exact toy_H_symmetric.
  - reflexivity.
  - reflexivity.
  - reflexivity.
  - exact toy_eigenjet.
  - exact toy_lowest.
  - exact toy_eigenjet_flipped.
  - exact toy_lowest.
  - exact toy_simple.
Defined.

Lemma toy_cg_solution :
  cg_solution (model_H (L := Toy.imports) (model Toy.world)) (jv Toy.E0)
    (rhs (L := Toy.imports) (model Toy.world) (map jv Toy.psi0))
    (map jv Toy.psi0) [0; - (1 / 2)].
Proof.
  split; [reflexivity|]. split.
  - unfold rhs, model_H, model_pHpg, vsub, vscale, vneg, matvec. simpl.
    unfold dot. simpl. f_equal; [field | f_equal; field].
  - unfold dot. simpl. field.
Qed.

Lemma chiF_geometric_spec_witness :
  fst (chiF_geometric (L := Toy.imports) Toy.E0 Toy.psi0 Toy.world)
  = Ok (dot [0; - (1 / 2)] [0; - (1 / 2)]) /\
  [0; - (1 / 2)] = map jd1 Toy.psi0.
Proof.
  destruct (@chiF_geometric_spec Toy.imports Toy.world 2 Toy.E0 Toy.psi0
              [0; - (1 / 2)] eq_refl eq_refl eq_refl)
    as (Hrun & _ & _ & Hderiv).
  split; [exact Hrun|].
  apply (Hderiv (Toy.H (leaf 0))).
  - exact toy_H_matrix.
  - exact toy_H_symmetric.
  - reflexivity.
  - reflexivity.
  - exact toy_eigenjet.
  - exact toy_simple.
  - exact toy_cg_solution.
Defined.

Lemma chiF_nonnegative_witness :
  chiF_AD Toy.psi0 = dot (map jd1 Toy.psi0) (map jd1 Toy.psi0) /\
  0 <= chiF_AD Toy.psi0.
Proof.
  destruct (@chiF_nonnegative Toy.imports Toy.world 300 Toy.E0 Toy.psi0)
    as (_ & _ & Hdense & _).
  apply (Hdense (Toy.H (leaf 0)) Toy.E0 Toy.psi0 (chiF_AD Toy.psi0)).
  - reflexivity.
  - reflexivity.
  - apply toy_eigenjet.
  - reflexivity.
Defined.

(** with two levels at the same energy the division is by zero *)
Lemma chiF_perturbation_degenerate :
  fst (chiF_perturbation (L := Toy.imports) Toy.degenerate) = Ok NotReal.
Proof.
  rewrite (@chiF_perturbation_run Toy.imports Toy.degenerate
             [[jzero; jzero]; [jzero; jzero]] [0; 0] Toy.identity 0
             eq_refl eq_refl ltac:(simpl; lia) eq_refl).
  simpl. f_equal.
  unfold fdiv. destruct (Req_dec_T _ 0) as [_|Hne]; [reflexivity|].
  exfalso. apply Hne. unfold sqr. ring.
Qed.

(** ** Where the claims stop

    A degenerate ground level, an eigenvector whose norm is not kept, and
    the rounding of float64. *)

Lemma crossing_H_symmetric : symmetric (mvalues Crossing.H).
Proof.
  intros i j. unfold entry, Crossing.H, mvalues.
  destruct i as [|[|[|i]]]; destruct j as [|[|[|j]]]; reflexivity.
Qed.

Lemma crossing_eigenjet_dense : eigenjet 2 Crossing.H jzero Crossing.td.
Proof.
  split; [reflexivity|]. split.
  - unfold jmatvec, jdot, jsum, jmul, jadd, Crossing.H, Crossing.td, jzero. simpl.
    f_equal; [apply J2_eq; ring | f_equal; apply J2_eq; ring].
  - unfold unit_norm, jdot, jsum, jmul, jadd, Crossing.td, jzero. simpl.
    apply J2_eq; ring.
Qed.

Lemma crossing_eigenjet_sparse : eigenjet 2 Crossing.H jzero Crossing.ts.
Proof.
  split; [reflexivity|]. split.
  - unfold jmatvec, jdot, jsum, jmul, jadd, Crossing.H, Crossing.ts, jzero. simpl.
    f_equal; [apply J2_eq; ring | f_equal; apply J2_eq; ring].
  - unfold unit_norm, jdot, jsum, jmul, jadd, Crossing.ts, jzero. simpl.
    apply J2_eq; ring.
Qed.

Lemma crossing_lowest : lowest 2 (matvec (mvalues Crossing.H)) 0.
Proof.
  intros E v Lv Hn Hv.
  destruct v as [|x [|y [|z v]]]; simpl in Lv; try discriminate Lv.
  unfold matvec, mvalues, vscale, dot in *. simpl in *. injection Hv as H1 H2.
  destruct (Req_dec x 0) as [Hx|Hx].
  - assert (Hy : y <> 0) by (intros ->; apply Hn; subst x; ring).
    assert (E = 0) by (apply (Rmult_eq_reg_r y); [lra | exact Hy]). lra.
  - assert (E = 0) by (apply (Rmult_eq_reg_r x); [lra | exact Hx]). lra.
Qed.

Lemma crossing_chiF_dense : chiF_AD Crossing.td = 0.
Proof.
  rewrite (chiF_AD_unit_norm Crossing.td (proj2 (proj2 crossing_eigenjet_dense))).
  unfold dot. simpl. ring.
Qed.

Lemma crossing_chiF_sparse : chiF_AD Crossing.ts = 1.
Proof.
  rewrite (chiF_AD_unit_norm Crossing.ts (proj2 (proj2 crossing_eigenjet_sparse))).
  unfold dot. simpl. ring.
Qed.

(** At a degenerate ground level the two primitives may meet their
    contract with different ground states: on H = 0 the dense one returns
    the constant (1, 0) and the sparse one the rotating (sin g, cos g), both
    eigenvectors of unit norm with the ground energy 0; the eigenvectors do
    not agree up to a sign, and the two evaluators return 0 and 1. *)
Lemma sparse_dense_agree_counterexample :
  (Hmatrix (model Crossing.world) = Some Crossing.H /\
   is_matrix 2 2 Crossing.H /\ symmetric (mvalues Crossing.H) /\
   (forall v, length v = 2%nat ->
      @model_H Crossing.imports (model Crossing.world) v
      = matvec (mvalues Crossing.H) v)) /\
  (@DominantSymeig_apply Crossing.imports Crossing.H 300 = Ok (jzero, Crossing.td) /\
   eigenjet 2 Crossing.H jzero Crossing.td /\
   lowest 2 (matvec (mvalues Crossing.H)) (jv jzero)) /\
  (@DominantSparseSymeig_apply Crossing.imports
     (@model_H Crossing.imports (model Crossing.world))
     (@model_Hadjoint_to_gadjoint Crossing.imports (model Crossing.world))
     (g (model Crossing.world)) 300 (dim (model Crossing.world))
   = Ok (jzero, Crossing.ts) /\
   eigenjet 2 Crossing.H jzero Crossing.ts /\
   lowest 2 (@model_H Crossing.imports (model Crossing.world)) (jv jzero)) /\
  ~ (exists s, (s = 1 \/ s = -1) /\ Crossing.ts = map (jscale s) Crossing.td) /\
  fst (@chiF_matrixAD Crossing.imports 300 Crossing.world) = Ok 0 /\
  fst (@chiF_sparseAD Crossing.imports 300 Crossing.world)
  = Ok (jzero, Crossing.ts, 1) /\
  0 <> 1.
Proof.
  split; [|split; [|split; [|split; [|split; [|split]]]]].
  - split; [reflexivity|]. split; [split; [reflexivity | repeat constructor]|].
    split; [exact crossing_H_symmetric | reflexivity].
  - split; [reflexivity|]. split; [exact crossing_eigenjet_dense | exact crossing_lowest].
  - split; [reflexivity|]. split; [exact crossing_eigenjet_sparse | exact crossing_lowest].
  - intros (s & Hs & E). unfold Crossing.ts, Crossing.td, jscale in E. simpl in E.
    injection E as E0 _ _ E1 _ _. destruct Hs as [-> | ->]; lra.
  - rewrite (@chiF_matrixAD_run Crossing.imports Crossing.world Crossing.H 300
               jzero Crossing.td eq_refl eq_refl).
    simpl. now rewrite crossing_chiF_dense.
  - rewrite (@chiF_sparseAD_run Crossing.imports Crossing.world 300
               jzero Crossing.ts eq_refl).
    simpl. now rewrite crossing_chiF_sparse.
  - lra.
Qed.

(** Two values that are not a number that is at least 0.  At a degenerate
    ground level with a vanishing numerator [chiF_perturbation] divides 0
    by 0: in the exact model the value is not a real number, and in float64
    the quotient is a nan, of which 0 <= nan is false.  For an eigenvector
    whose norm is not kept in g, here (1 + g^2/2, 0), [chiF_matrixAD]
    returns -1. *)
Lemma chiF_nonnegative_counterexample :
  (numerators (col 0 Toy.identity) Toy.identity Toy.identity = [0] /\
   denominators 0 [0; 0] = [0] /\
   fst (@chiF_perturbation Crossing.imports Crossing.world) = Ok NotReal) /\
  PrimFloat.leb Binary64.zero
    (Binary64.sum64 (Binary64.vdiv64 [Binary64.zero] [Binary64.zero])) = false /\
  fst (@chiF_matrixAD Crossing.growing 300 Crossing.world) = Ok (-1) /\
  -1 < 0.
Proof.
  split; [split; [|split] | split; [|split]].
  - unfold numerators, vecmat, vpow2, from1, col, dot, Toy.identity. simpl.
    f_equal. unfold sqr. ring.
  - unfold denominators, vpow2, ssub, from1. simpl. f_equal. unfold sqr. ring.
  - rewrite (@chiF_perturbation_run Crossing.imports Crossing.world Crossing.H
               [0; 0] Toy.identity 0 eq_refl eq_refl ltac:(simpl; lia) eq_refl).
    simpl. f_equal.
    unfold fdiv. destruct (Req_dec_T _ 0) as [_|Hne]; [reflexivity|].
    exfalso. apply Hne. unfold sqr. ring.
  - reflexivity.
  - rewrite (@chiF_matrixAD_run Crossing.growing Crossing.world Crossing.H 300
               jzero [mkJ 1 0 1; mkJ 0 0 0] eq_refl eq_refl).
    assert (Hchi : chiF_AD [mkJ 1 0 1; mkJ 0 0 0] = -1).
    { unfold chiF_AD. rewrite overlap_components. unfold jlog. simpl.
      unfold dot, sqr. simpl. field. }
    simpl. now rewrite Hchi.
  - lra.
Qed.

(** In float64 the levels 0 and 2^-600 are two different numbers, and the
    squared gap (0 - 2^-600)^2 is 0: the evaluator divides by zero, and with
    a numerator 1 it returns inf, although no excited level has the ground
    energy. *)
Lemma chiF_perturbation_division_counterexample :
  PrimFloat.eqb Binary64.zero Binary64.tiny = false /\
  Binary64.denominators64 Binary64.zero [Binary64.zero; Binary64.tiny]
  = [Binary64.zero] /\
  Binary64.sum64
    (Binary64.vdiv64 [Binary64.one]
       (Binary64.denominators64 Binary64.zero [Binary64.zero; Binary64.tiny]))
  = PrimFloat.infinity.
Proof.
  split; [|split]; reflexivity.
Qed.

(** * Further properties of the evaluators and of the sweep *)

Unset Implicit Arguments.

(** ** The perturbation sum *)

Section PerturbationValue.

Context {L : Imports}.

Lemma chiF_perturbation_value (w : World) (H : list (list J2)) (Es : Vec)
    (psis : Matrix) :
  Hmatrix (model w) = Some H ->
  symeig (mvalues H) = Ok (Es, psis) ->
  (0 < ncols psis)%nat -> Es <> [] ->
  fst (chiF_perturbation w)
  = Ok (perturbation_value Es psis
          (pHpgmatrix_of (N (model w)) (dim (model w)) (g (model w)))).
Proof.
  intros HH Hs Hc HEs.
  assert (HE0 : nth_error Es 0 = Some (nth 0 Es 0))
    by (destruct Es; [congruence | reflexivity]).
  rewrite (@chiF_perturbation_run L w H Es psis (nth 0 Es 0) HH Hs Hc HE0).
  reflexivity.
Qed.

Lemma dot_vscale_l (c : R) (u v : Vec) : dot (vscale c u) v = c * dot u v.
Proof.
  unfold dot, vscale. revert v; induction u as [|x u IH]; intros [|y v]; simpl;
    try ring.
  rewrite IH. ring.
Qed.

Lemma vecmat_vscale (c : R) (v : Vec) (M : Matrix) :
  vecmat (vscale c v) M = vscale c (vecmat v M).
Proof.
  unfold vecmat.
  change (vscale c (map (fun j => dot v (col j M)) (seq 0 (ncols M))))
    with (map (Rmult c) (map (fun j => dot v (col j M)) (seq 0 (ncols M)))).
  rewrite map_map. apply map_ext.
  intros j. apply dot_vscale_l.
Qed.

Lemma col_flip (d : nat) (signs : Vec) (M : Matrix) (j : nat) :
  Forall (fun row => length row = d) M -> length signs = d -> (j < d)%nat ->
  col j (flip_columns signs M) = vscale (nth j signs 0) (col j M).
Proof.
  intros HM Hs Hj. unfold col, flip_columns, vscale. rewrite !map_map.
  apply map_ext_in. intros row Hrow.
  rewrite Forall_forall in HM. specialize (HM row Hrow).
  apply (map2_at Rmult signs row j); lia.
Qed.

Lemma ncols_flip (d : nat) (signs : Vec) (M : Matrix) :
  is_matrix d d M -> length signs = d -> ncols (flip_columns signs M) = ncols M.
Proof.
  intros [Hr Hc] Hs. destruct M as [|row M]; [reflexivity|]. simpl.
  assert (Hrow : length row = d) by (now inversion Hc).
  rewrite (@map2_length _ _ _ Rmult signs row); congruence.
Qed.

Lemma sqr_sign (s t x : R) :
  s = 1 \/ s = -1 -> t = 1 \/ t = -1 -> sqr (s * (t * x)) = sqr x.
Proof. unfold sqr. intros [->| ->] [->| ->]; ring. Qed.

Lemma sign_nth (d : nat) (signs : Vec) (j : nat) :
  length signs = d -> Forall (fun s => s = 1 \/ s = -1) signs -> (j < d)%nat ->
  nth j signs 0 = 1 \/ nth j signs 0 = -1.
Proof.
  intros Hs Hf Hj. rewrite Forall_forall in Hf. apply Hf, nth_In. lia.
Qed.

(** the numerators are squares: the signs that [symeig] gives to the
    eigenvectors do not enter *)
Lemma numerators_flip (d : nat) (signs : Vec) (psis P : Matrix) :
  (0 < d)%nat -> is_matrix d d psis -> length signs = d ->
  Forall (fun s => s = 1 \/ s = -1) signs ->
  numerators (col 0 (flip_columns signs psis)) P (flip_columns signs psis)
  = numerators (col 0 psis) P psis.
Proof.
  intros Hd Hpsis Hs Hsigns.
  assert (Hc : ncols psis = d) by (apply (@ncols_is_matrix d d psis Hpsis Hd)).
  unfold numerators.
  rewrite (col_flip d signs psis 0 (proj2 Hpsis) Hs Hd), !vecmat_vscale.
  unfold vecmat at 1 3. rewrite (ncols_flip d signs psis Hpsis Hs), Hc.
  unfold vscale. rewrite map_map, !from1_map_seq.
  unfold vpow2. rewrite !map_map. apply map_ext_in. intros j Hj%in_seq.
  rewrite (col_flip d signs psis j (proj2 Hpsis) Hs ltac:(lia)), dot_vscale_r.
  apply sqr_sign; apply (sign_nth d); auto; lia.
Qed.

Lemma mscale_col (c : R) (M : Matrix) (j : nat) :
  col j (mscale c M) = vscale c (col j M).
Proof.
  unfold col, mscale, vscale. rewrite !map_map. apply map_ext.
  intros row. apply (vscale_at c row j).
Qed.

Lemma vecmat_mscale (c : R) (v : Vec) (M : Matrix) :
  vecmat v (mscale c M) = vscale c (vecmat v M).
Proof.
  assert (Hn : ncols (mscale c M) = ncols M).
  { destruct M as [|row M]; [reflexivity|]. apply length_map. }
  unfold vecmat. rewrite Hn.
  change (vscale c (map (fun j => dot v (col j M)) (seq 0 (ncols M))))
    with (map (Rmult c) (map (fun j => dot v (col j M)) (seq 0 (ncols M)))).
  rewrite map_map. apply map_ext.
  intros j. rewrite mscale_col. apply dot_vscale_r.
Qed.

Lemma fsum_fscale (k : R) (u v : Vec) :
  fsum (vdiv (map (Rmult k) u) v) = fscale k (fsum (vdiv u v)).
Proof.
  unfold vdiv. revert v; induction u as [|a u IH]; intros [|b v]; simpl;
    try (f_equal; ring).
  rewrite IH. unfold fdiv. destruct (Req_dec_T b 0); [reflexivity|].
  destruct (fsum (map2 _ u v)); simpl; [|reflexivity].
  f_equal. unfold Rdiv. ring.
Qed.

(** X1.  [chiF_perturbation] returns the sum of lines 19-21 on what
    [symeig] has returned, and this sum is the same whatever signs [symeig]
    gives to the eigenvectors: the numerators are squares. *)
Theorem perturbation_value_invariant (w : World) (H : list (list J2)) (d : nat)
    (Es : Vec) (psis : Matrix) (signs : Vec) :
  let P := pHpgmatrix_of (N (model w)) (dim (model w)) (g (model w)) in
  Hmatrix (model w) = Some H -> symeig (mvalues H) = Ok (Es, psis) ->
  (0 < d)%nat -> length Es = d -> is_matrix d d psis ->
  length signs = d -> Forall (fun s => s = 1 \/ s = -1) signs ->
  fst (chiF_perturbation w) = Ok (perturbation_value Es psis P) /\
  perturbation_value Es (flip_columns signs psis) P = perturbation_value Es psis P.
Proof.
  intros P HH Hsym Hd HEs Hpsis Hs Hsigns.
  assert (Hc : ncols psis = d) by (apply (@ncols_is_matrix d d psis Hpsis Hd)).
  split.
  - apply (chiF_perturbation_value w H Es psis HH Hsym); [lia|].
    destruct Es; simpl in HEs; [lia | discriminate].
  - unfold perturbation_value. now rewrite (numerators_flip d signs psis P).
Qed.

(** X2.  The sum is quadratic in the matrix of dH/dg: for c times the
    matrix it is c^2 times what it was (in particular the same for the
    opposite matrix), and it stays a division by zero where it was one. *)
Theorem perturbation_value_quadratic (c : R) (Es : Vec) (psis P : Matrix) :
  perturbation_value Es psis (mscale c P)
  = fscale (c * c) (perturbation_value Es psis P).
Proof.
  unfold perturbation_value, numerators.
  rewrite vecmat_mscale, vecmat_vscale.
  replace (vpow2 (from1 (vscale c (vecmat (vecmat (col 0 psis) P) psis))))
    with (map (Rmult (c * c)) (vpow2 (from1 (vecmat (vecmat (col 0 psis) P) psis)))).
  - apply fsum_fscale.
  - unfold vpow2, vscale, from1. rewrite skipn_map, !map_map.
    apply map_ext. intros x. unfold sqr. ring.
Qed.

(** X3.  With one level only there is no excited state: the sum is empty
    and [chiF_perturbation] returns 0, whatever the matrices. *)
Theorem chiF_perturbation_one_level (w : World) (H : list (list J2)) (Es : Vec)
    (psis : Matrix) :
  Hmatrix (model w) = Some H -> symeig (mvalues H) = Ok (Es, psis) ->
  is_matrix 1 1 psis -> Es <> [] ->
  fst (chiF_perturbation w) = Ok (Real 0).
Proof.
  intros HH Hsym Hpsis HEs.
  assert (Hc : ncols psis = 1%nat) by (apply (@ncols_is_matrix 1 1 psis Hpsis); lia).
  rewrite (chiF_perturbation_value w H Es psis HH Hsym ltac:(lia) HEs).
  f_equal. unfold perturbation_value, numerators.
  unfold vecmat at 1. rewrite Hc. reflexivity.
Qed.

End PerturbationValue.

Lemma perturbation_value_invariant_witness :
  fst (@chiF_perturbation Toy.imports Toy.world)
  = Ok (perturbation_value [-1; 1] Toy.identity Toy.P) /\
  perturbation_value [-1; 1] (flip_columns [1; -1] Toy.identity) Toy.P
  = perturbation_value [-1; 1] Toy.identity Toy.P.
Proof.
  apply (@perturbation_value_invariant Toy.imports Toy.world (Toy.H (leaf 0)) 2
           [-1; 1] Toy.identity [1; -1]).
  - reflexivity.
  - reflexivity.
  - lia.
  - reflexivity.
  - split; [reflexivity | repeat constructor].
  - reflexivity.
  - constructor; [left; reflexivity|].
    constructor; [right; reflexivity | constructor].
Defined.

Lemma chiF_perturbation_one_level_witness :
  fst (@chiF_perturbation OneLevel.imports OneLevel.world) = Ok (Real 0).
Proof.
  apply (@chiF_perturbation_one_level OneLevel.imports OneLevel.world [[leaf 0]]
           [0] [[1]]).
  - reflexivity.
  - reflexivity.
  - split; [reflexivity | repeat constructor].
  - discriminate.
Defined.

(** ** Exceptions *)

Section Exceptions.

Context {L : Imports}.

(** X4.  [chiF_perturbation] catches nothing.  When [symeig] raises, the
    exception leaves the evaluator; when [symeig] returns a matrix without
    a column (an empty Hamiltonian), [psis[:, 0]] raises an IndexError.  In
    both cases [setpHpg] has not been called: the model and the
    configuration are as they were, and one call has been made. *)
Theorem chiF_perturbation_fails (w : World) (H : list (list J2)) :
  Hmatrix (model w) = Some H ->
  (forall e, symeig (mvalues H) = Raise e ->
     chiF_perturbation w
     = (Raise e, mkWorld (model w) (lanczos w) (trace w ++ [EvSymeig]))) /\
  (forall Es psis, symeig (mvalues H) = Ok (Es, psis) -> ncols psis = 0%nat ->
     chiF_perturbation w
     = (Raise IndexError, mkWorld (model w) (lanczos w) (trace w ++ [EvSymeig]))).
Proof.
  intros HH. split.
  - intros e He. unfold chiF_perturbation. run. rewrite HH. run.
    rewrite He. reflexivity.
  - intros Es psis Hs Hc. unfold chiF_perturbation. run. rewrite HH. run.
    rewrite Hs. run. rewrite Hc. reflexivity.
Qed.

(** X5.  The other three evaluators catch nothing either.  When its
    primitive raises, [chiF_matrixAD] and [chiF_sparseAD] run no reverse
    pass and [chiF_geometric] returns nothing; the model is as it was.
    [chiF_sparseAD] has replaced the process-wide configuration all the
    same, the other two leave it. *)
Theorem primitives_fail (w : World) (k : nat) (E0 : J2) (psi0 : list J2) (e : Exn) :
  let m := model w in
  (forall H, Hmatrix m = Some H -> DominantSymeig_apply H k = Raise e ->
     chiF_matrixAD k w
     = (Raise e, mkWorld m (lanczos w) (trace w ++ [EvDominantSymeig k]))) /\
  (DominantSparseSymeig_apply (model_H m) (model_Hadjoint_to_gadjoint m)
                              (g m) k (dim m) = Raise e ->
     chiF_sparseAD k w
     = (Raise e,
        mkWorld m (Some (mkWiring model_H model_Hadjoint_to_gadjoint))
                (trace w ++ [EvSetDominantSparseSymeig;
                             EvDominantSparseSymeig k (dim m)]))) /\
  (CGSubspaceSparse_apply (configured w) (g m) (jv E0) (rhs m (map jv psi0))
                          (map jv psi0) = Raise e ->
     chiF_geometric E0 psi0 w
     = (Raise e, mkWorld m (lanczos w) (trace w ++ [EvCG]))).
Proof.
  intros m. split; [|split].
  - intros H HH Hp. unfold chiF_matrixAD. run. fold m. rewrite HH. run.
    rewrite Hp. reflexivity.
  - intros Hp.
    unfold chiF_sparseAD, setDominantSparseSymeig, dominant_sparse_symeig. run.
    fold m. rewrite Hp. run. rewrite <- app_assoc. reflexivity.
  - intros Hp. unfold chiF_geometric, cg. run.
    unfold rhs, configured in *. simpl in *. fold m. fold m in Hp.
    rewrite Hp. reflexivity.
Qed.

End Exceptions.

Lemma chiF_perturbation_fails_witness :
  @chiF_perturbation Failing.imports Toy.world
  = (Raise RuntimeError, mkWorld (model Toy.world) None [EvSymeig]) /\
  @chiF_perturbation Failing.empty Failing.world
  = (Raise IndexError, mkWorld (model Failing.world) None [EvSymeig]).
Proof.
  split.
  - destruct (@chiF_perturbation_fails Failing.imports Toy.world (Toy.H (leaf 0))
                eq_refl) as [Hraise _].
    apply (Hraise RuntimeError). reflexivity.
  - destruct (@chiF_perturbation_fails Failing.empty Failing.world [] eq_refl)
      as [_ Hempty].
    apply (Hempty [] []); reflexivity.
Defined.

Lemma primitives_fail_witness :
  @chiF_matrixAD Failing.imports 300 Toy.world
  = (Raise RuntimeError, mkWorld (model Toy.world) None [EvDominantSymeig 300]) /\
  @chiF_sparseAD Failing.imports 300 Toy.world
  = (Raise RuntimeError,
     mkWorld (model Toy.world)
             (Some (mkWiring (@model_H Failing.imports)
                             (@model_Hadjoint_to_gadjoint Failing.imports)))
             [EvSetDominantSparseSymeig; EvDominantSparseSymeig 300 2]) /\
  @chiF_geometric Failing.imports Toy.E0 Toy.psi0 Toy.world
  = (Raise RuntimeError, mkWorld (model Toy.world) None [EvCG]).
Proof.
  destruct (@primitives_fail Failing.imports Toy.world 300 Toy.E0 Toy.psi0
              RuntimeError) as (Hdense & Hsparse & Hcg).
  split; [|split].
  - apply (Hdense (Toy.H (leaf 0))); reflexivity.
  - apply Hsparse. reflexivity.
  - apply Hcg. reflexivity.
Defined.

(** ** The differentiated overlap and the projection *)

Section Gauge.

Context {L : Imports}.

Lemma chiF_AD_scale (c : R) (t : list J2) :
  c <> 0 -> dot (map jv t) (map jv t) <> 0 ->
  chiF_AD (map (jscale c) t) = chiF_AD t.
Proof.
  intros Hc HF. unfold chiF_AD. rewrite !overlap_components.
  rewrite (map_jscale jv c t), (map_jscale jd1 c t), (map_jscale jd2 c t)
    by reflexivity.
  rewrite !dot_vscale. simpl. unfold sqr. field. split; assumption.
Qed.

(** X6.  The two differentiated evaluators do not see the normalisation
    of the eigenvector: when the sparse primitive returns c times the
    eigenvector that the dense one returns, for a constant c that is not
    zero (the sign is the case c = -1), [chiF_sparseAD] computes the chi_F
    that [chiF_matrixAD] computes, because the logarithm of the overlap
    changes by a constant. *)
Theorem chiF_AD_rescale (w : World) (H : list (list J2)) (k : nat)
    (Ed Es : J2) (td : list J2) (c : R) :
  let m := model w in
  Hmatrix m = Some H ->
  DominantSymeig_apply H k = Ok (Ed, td) ->
  DominantSparseSymeig_apply (model_H m) (model_Hadjoint_to_gadjoint m)
                             (g m) k (dim m) = Ok (Es, map (jscale c) td) ->
  c <> 0 -> dot (map jv td) (map jv td) <> 0 ->
  exists x, fst (chiF_matrixAD k w) = Ok x /\
            fst (chiF_sparseAD k w) = Ok (Es, map (jscale c) td, x).
Proof.
  intros m HH Hd Hs Hc HF. exists (chiF_AD td).
  rewrite (@chiF_matrixAD_run L w H k Ed td HH Hd).
  rewrite (@chiF_sparseAD_run L w k Es (map (jscale c) td) Hs). simpl.
  split; [reflexivity|]. now rewrite (chiF_AD_scale c td Hc HF).
Qed.

Lemma project_length (psi0 b : Vec) :
  length b = length psi0 -> length (project psi0 b) = length psi0.
Proof.
  intros Hlen. unfold project, vsub.
  rewrite (@map2_length _ _ _ Rminus b (vscale (dot psi0 b) psi0));
    rewrite ?vscale_length; congruence.
Qed.

Lemma vsub_vscale_0 (p v : Vec) : length p = length v -> vsub p (vscale 0 v) = p.
Proof.
  unfold vsub, vscale. revert v; induction p as [|x p IH]; intros [|y v] E;
    simpl in *; try lia; [reflexivity|].
  rewrite IH by lia. f_equal. ring.
Qed.

Lemma dot_project (psi0 b : Vec) :
  length b = length psi0 ->
  dot psi0 (project psi0 b) = dot psi0 b * (1 - dot psi0 psi0).
Proof.
  intros Hlen. unfold project.
  rewrite dot_vsub_r by (now rewrite vscale_length).
  rewrite dot_vscale_r. ring.
Qed.

(** X7.  Line 62 of [chiF_geometric] removes from b its component along
    psi0 as if psi0 had norm 1: what it hands to the solver has the psi0
    component (psi0 . b) (1 - psi0 . psi0), which is zero for a psi0 of
    unit norm, and then projecting once more changes nothing.  The
    evaluator returns the squared norm of what the solver answers on that
    right-hand side. *)
Theorem chiF_geometric_projection (w : World) (E0 : J2) (psi0 : list J2) :
  let m := model w in
  let v := map jv psi0 in
  let b := vneg (model_pHpg m v) in
  length (model_pHpg m v) = length v ->
  dot v (project v b) = dot v b * (1 - dot v v) /\
  (dot v v = 1 -> project v (project v b) = project v b) /\
  (forall x, CGSubspaceSparse_apply (configured w) (g m) (jv E0) (project v b) v
             = Ok x ->
             fst (chiF_geometric E0 psi0 w) = Ok (dot x x)).
Proof.
  intros m v b Hlen.
  assert (Lb : length b = length v) by (unfold b, vneg; now rewrite length_map).
  split; [|split].
  - now apply dot_project.
  - intros Hn. unfold project at 1.
    rewrite (dot_project v b Lb), Hn, Rminus_diag, Rmult_0_r.
    apply vsub_vscale_0. now apply project_length.
  - intros x Hx. now rewrite (@chiF_geometric_run L w E0 psi0 x Hx).
Qed.

End Gauge.

Lemma chiF_AD_rescale_witness :
  exists x, fst (@chiF_matrixAD Toy.flipped 300 Toy.world) = Ok x /\
            fst (@chiF_sparseAD Toy.flipped 300 Toy.world)
            = Ok (Toy.E0, map (jscale (-1)) Toy.psi0, x).
Proof.
  apply (@chiF_AD_rescale Toy.flipped Toy.world (Toy.H (leaf 0)) 300
           Toy.E0 Toy.E0 Toy.psi0 (-1)).
  - reflexivity.
  - reflexivity.
  - reflexivity.
  - lra.
  - unfold dot. simpl. lra.
Defined.

Lemma chiF_geometric_projection_witness :
  fst (@chiF_geometric Toy.imports Toy.E0 Toy.psi0 Toy.world)
  = Ok (dot [0; - (1 / 2)] [0; - (1 / 2)]).
Proof.
  destruct (@chiF_geometric_projection Toy.imports Toy.world Toy.E0 Toy.psi0
              eq_refl) as (_ & _ & Hrun).
  apply Hrun. reflexivity.
Defined.

(** ** How the evaluators compose *)

Section Composition.

Context {L : Imports}.

Lemma console_quiet (evs : list Event) : forallb quiet evs = true -> console evs = [].
Proof.
  induction evs as [|e evs IH]; [reflexivity|]. simpl.
  intros [He Hevs]%andb_prop. destruct e; try discriminate He; now apply IH.
Qed.

(** X8.  No evaluator prints, plots or constructs a model, whatever its
    outcome: each one only appends to the calls made so far, and what it
    appends are calls into the collaborators; the console is as it was. *)
Theorem evaluators_quiet (w : World) (k : nat) (E0 : J2) (psi0 : list J2) :
  let quietly (w' : World) :=
    (exists evs, trace w' = trace w ++ evs /\ forallb quiet evs = true) /\
    console (trace w') = console (trace w) in
  quietly (snd (chiF_perturbation w)) /\
  quietly (snd (chiF_matrixAD k w)) /\
  quietly (snd (chiF_sparseAD k w)) /\
  quietly (snd (chiF_geometric E0 psi0 w)).
Proof.
  intros quietly.
  assert (Hq : forall w' evs, trace w' = trace w ++ evs -> forallb quiet evs = true ->
                              quietly w').
  { intros w' evs Ht Hevs. split; [now exists evs|].
    now rewrite Ht, console_app, (console_quiet evs Hevs), app_nil_r. }
  split; [|split; [|split]].
  - unfold chiF_perturbation. run.
    destruct (Hmatrix (model w)) as [H|]; run;
      [|apply (Hq _ []); [now rewrite app_nil_r | reflexivity]].
    destruct (symeig (mvalues H)) as [[Es psis]|e]; run;
      [|now apply (Hq _ [EvSymeig])].
    destruct (0 <? ncols psis)%nat; run; [|now apply (Hq _ [EvSymeig])].
    destruct Es as [|e Es]; run;
      apply (Hq _ [EvSymeig; EvSetpHpg]); simpl; now rewrite <- ?app_assoc.
  - unfold chiF_matrixAD, autograd_grad, autograd_grad_again. run.
    destruct (Hmatrix (model w)) as [H|]; run;
      [|apply (Hq _ []); [now rewrite app_nil_r | reflexivity]].
    destruct (DominantSymeig_apply H k) as [[E psi]|e]; run.
    + apply (Hq _ [EvDominantSymeig k; EvGrad true; EvGrad false]); simpl;
        now rewrite <- ?app_assoc.
    + now apply (Hq _ [EvDominantSymeig k]).
  - unfold chiF_sparseAD, setDominantSparseSymeig, dominant_sparse_symeig,
      autograd_grad, autograd_grad_again. run.
    destruct (DominantSparseSymeig_apply _ _ _ _ _) as [[E psi]|e]; run.
    + apply (Hq _ [EvSetDominantSparseSymeig; EvDominantSparseSymeig k (dim (model w));
                   EvGrad true; EvGrad false]); simpl; now rewrite <- ?app_assoc.
    + apply (Hq _ [EvSetDominantSparseSymeig; EvDominantSparseSymeig k (dim (model w))]);
        simpl; now rewrite <- ?app_assoc.
  - unfold chiF_geometric, cg. run.
    destruct (CGSubspaceSparse_apply _ _ _ _ _) as [x|e]; run;
      now apply (Hq _ [EvCG]).
Qed.

(** what each evaluator reads of the state *)
Lemma chiF_perturbation_reads (w1 w2 : World) :
  N (model w1) = N (model w2) -> dim (model w1) = dim (model w2) ->
  g (model w1) = g (model w2) -> Hmatrix (model w1) = Hmatrix (model w2) ->
  fst (chiF_perturbation w1) = fst (chiF_perturbation w2).
Proof.
  intros HN Hd Hg HH. unfold chiF_perturbation. run. rewrite HH.
  destruct (Hmatrix (model w2)) as [H|]; run; [|reflexivity].
  destruct (symeig (mvalues H)) as [[Es psis]|e]; run; [|reflexivity].
  destruct (0 <? ncols psis)%nat; run; [|reflexivity].
  rewrite HN, Hd, Hg. destruct Es as [|e Es]; reflexivity.
Qed.

Lemma chiF_matrixAD_reads (k : nat) (w1 w2 : World) :
  Hmatrix (model w1) = Hmatrix (model w2) ->
  fst (chiF_matrixAD k w1) = fst (chiF_matrixAD k w2).
Proof.
  intros HH. unfold chiF_matrixAD, autograd_grad, autograd_grad_again. run.
  rewrite HH. destruct (Hmatrix (model w2)) as [H|]; run; [|reflexivity].
  destruct (DominantSymeig_apply H k) as [[E psi]|e]; reflexivity.
Qed.

Lemma chiF_sparseAD_reads (k : nat) (w1 w2 : World) :
  N (model w1) = N (model w2) -> dim (model w1) = dim (model w2) ->
  g (model w1) = g (model w2) ->
  fst (chiF_sparseAD k w1) = fst (chiF_sparseAD k w2).
Proof.
  intros HN Hd Hg.
  unfold chiF_sparseAD, setDominantSparseSymeig, dominant_sparse_symeig,
    autograd_grad, autograd_grad_again, model_H, model_Hadjoint_to_gadjoint. run.
  rewrite HN, Hd, Hg.
  destruct (DominantSparseSymeig_apply _ _ _ _ _) as [[E psi]|e]; reflexivity.
Qed.

Lemma chiF_geometric_reads (E0 : J2) (psi0 : list J2) (w1 w2 : World) :
  N (model w1) = N (model w2) -> dim (model w1) = dim (model w2) ->
  g (model w1) = g (model w2) -> lanczos w1 = lanczos w2 ->
  (forall c, lanczos w2 = Some c -> wA c (model w1) = wA c (model w2) /\
                                    wAadjoint c (model w1) = wAadjoint c (model w2)) ->
  fst (chiF_geometric E0 psi0 w1) = fst (chiF_geometric E0 psi0 w2).
Proof.
  intros HN Hd Hg Hl Hc.
  unfold chiF_geometric, cg, configured, model_pHpg. run.
  rewrite HN, Hd, Hg, Hl.
  destruct (lanczos w2) as [c|]; run.
  - destruct (Hc c eq_refl) as [-> ->].
    destruct (CGSubspaceSparse_apply _ _ _ _ _) as [x|e]; reflexivity.
  - destruct (CGSubspaceSparse_apply _ _ _ _ _) as [x|e]; reflexivity.
Qed.

(** X9.  The value an evaluator returns (or the exception it raises) does
    not depend on which of the others has run before it on the same model:
    [chiF_perturbation] and [chiF_sparseAD] give what they would have given
    after any of the four, themselves included; [chiF_matrixAD] after any
    of the other three; [chiF_geometric] after [chiF_matrixAD] or itself,
    and, once [chiF_sparseAD] has configured the solver, after a
    [chiF_perturbation] in between.  (Nothing is said of [chiF_matrixAD]
    after itself, whose second reverse pass consumes the graph of the dense
    matrix, nor of [chiF_geometric] after [chiF_sparseAD], which replaces
    the configuration it reads.) *)
Theorem evaluators_order (w : World) (k k' : nat) (E0 E0' : J2)
    (psi0 psi0' : list J2) :
  let p := snd (chiF_perturbation w) in
  let d := snd (chiF_matrixAD k' w) in
  let s := snd (chiF_sparseAD k' w) in
  let c := snd (chiF_geometric E0' psi0' w) in
  (fst (chiF_perturbation p) = fst (chiF_perturbation w) /\
   fst (chiF_perturbation d) = fst (chiF_perturbation w) /\
   fst (chiF_perturbation s) = fst (chiF_perturbation w) /\
   fst (chiF_perturbation c) = fst (chiF_perturbation w)) /\
  (fst (chiF_matrixAD k p) = fst (chiF_matrixAD k w) /\
   fst (chiF_matrixAD k s) = fst (chiF_matrixAD k w) /\
   fst (chiF_matrixAD k c) = fst (chiF_matrixAD k w)) /\
  (fst (chiF_sparseAD k p) = fst (chiF_sparseAD k w) /\
   fst (chiF_sparseAD k d) = fst (chiF_sparseAD k w) /\
   fst (chiF_sparseAD k s) = fst (chiF_sparseAD k w) /\
   fst (chiF_sparseAD k c) = fst (chiF_sparseAD k w)) /\
  (fst (chiF_geometric E0 psi0 d) = fst (chiF_geometric E0 psi0 w) /\
   fst (chiF_geometric E0 psi0 c) = fst (chiF_geometric E0 psi0 w) /\
   fst (chiF_geometric E0 psi0 (snd (chiF_perturbation s)))
   = fst (chiF_geometric E0 psi0 s)).
Proof.
  intros p d s c.
  destruct (@chiF_perturbation_frame L w) as (pN & pd & pg & pH & pl & _).
  destruct (@chiF_matrixAD_frame L k' w) as (dm & dl).
  destruct (@chiF_sparseAD_frame L k' w) as (sm & sl).
  destruct (@chiF_geometric_frame L E0' psi0' w) as (cm & cl).
  cbv zeta in pN, pd, pg, pH, pl, dm, dl, sm, sl, cm, cl.
  fold p in pN, pd, pg, pH, pl. fold d in dm, dl. fold s in sm, sl. fold c in cm, cl.
  split; [|split; [|split]].
  - repeat split.
    + now apply chiF_perturbation_reads.
    + apply chiF_perturbation_reads; now rewrite dm.
    + apply chiF_perturbation_reads; now rewrite sm.
    + apply chiF_perturbation_reads; now rewrite cm.
  - repeat split.
    + now apply chiF_matrixAD_reads.
    + apply chiF_matrixAD_reads; now rewrite sm.
    + apply chiF_matrixAD_reads; now rewrite cm.
  - repeat split.
    + now apply chiF_sparseAD_reads.
    + apply chiF_sparseAD_reads; now rewrite dm.
    + apply chiF_sparseAD_reads; now rewrite sm.
    + apply chiF_sparseAD_reads; now rewrite cm.
  - repeat split.
    + apply chiF_geometric_reads; rewrite ?dm; auto.
    + apply chiF_geometric_reads; rewrite ?cm; auto.
    + destruct (@chiF_perturbation_frame L s) as (qN & qd & qg & _ & ql & _).
      cbv zeta in qN, qd, qg, ql.
      apply chiF_geometric_reads; auto.
      intros cfg Hcfg. rewrite sl in Hcfg. injection Hcfg as <-. simpl.
      unfold model_H, model_Hadjoint_to_gadjoint. now rewrite qN, qd, qg.
Qed.

(** X10.  [chiF_geometric] run on what [chiF_sparseAD] has just returned
    solves with the operator of the live model, [model.H] and
    [model.Hadjoint_to_gadjoint], whatever the solver was configured with
    before the two calls: [chiF_sparseAD] replaces the configuration before
    anything else.  The pair returns the chi_F of [chiF_sparseAD] and the
    squared norm of what the solver answers, and leaves the model as it was
    and the solver configured with the operator of the model. *)
Theorem sparse_then_geometric (w : World) (k : nat) (E0 : J2) (psi0 : list J2)
    (x : Vec) :
  let m := model w in
  let v := map jv psi0 in
  DominantSparseSymeig_apply (model_H m) (model_Hadjoint_to_gadjoint m)
                             (g m) k (dim m) = Ok (E0, psi0) ->
  CGSubspaceSparse_apply (Some (model_H m, model_Hadjoint_to_gadjoint m))
                         (g m) (jv E0) (rhs m v) v = Ok x ->
  let r := (' (E, psi, chiF) <- chiF_sparseAD k ;;
            c <- chiF_geometric E psi ;; ret (chiF, c)) w in
  fst r = Ok (chiF_AD psi0, dot x x) /\
  model (snd r) = m /\
  lanczos (snd r) = Some (mkWiring model_H model_Hadjoint_to_gadjoint).
Proof.
  intros m v Hs Hcg r.
  set (w1 := mkWorld m (Some (mkWiring model_H model_Hadjoint_to_gadjoint))
               (trace w ++ [EvSetDominantSparseSymeig; EvDominantSparseSymeig k (dim m);
                            EvGrad true; EvGrad false])).
  assert (Hrun : r = (Ok (chiF_AD psi0, dot x x),
                      mkWorld m (lanczos w1) (trace w1 ++ [EvCG]))).
  { unfold r. unfold bind at 1.
    rewrite (@chiF_sparseAD_run L w k E0 psi0 Hs). unfold bind.
    fold m. fold w1.
    rewrite (@chiF_geometric_run L w1 E0 psi0 x Hcg). reflexivity. }
  rewrite Hrun. split; [reflexivity|]. split; reflexivity.
Qed.

End Composition.

Lemma sparse_then_geometric_witness :
  fst ((' (E, psi, chiF) <- @chiF_sparseAD Toy.imports 300 ;;
        c <- @chiF_geometric Toy.imports E psi ;; ret (chiF, c))
         (mkWorld (model Toy.world)
                  (Some (mkWiring (fun _ v => v) (fun _ _ _ => 0))) []))
  = Ok (chiF_AD Toy.psi0, dot [0; - (1 / 2)] [0; - (1 / 2)]).
Proof.
  destruct (@sparse_then_geometric Toy.imports
              (mkWorld (model Toy.world)
                       (Some (mkWiring (fun _ v => v) (fun _ _ _ => 0))) [])
              300 Toy.E0 Toy.psi0 [0; - (1 / 2)] eq_refl eq_refl) as [Hr _].
  exact Hr.
Defined.

(** ** The sweep: outcome, abort, final state *)

Section SweepOutcome.

Context {L : Imports}.

Lemma for_range_app (body : nat -> Arrays -> Py Arrays) (l1 l2 : list nat) :
  forall (a : Arrays) (w : World),
    for_range body (l1 ++ l2) a w
    = (a' <- for_range body l1 a ;; for_range body l2 a') w.
Proof.
  induction l1 as [|i l1 IH]; intros a w; [reflexivity|].
  simpl. unfold bind in *.
  destruct (body i a w) as [[a1|e] w1]; [|reflexivity].
  apply IH.
Qed.

Lemma vals_of_ok (n d k : nat) (gs : list R) (i : nat)
    (c : float * float * float * float) :
  point_values n d k (nth i gs 0) = Ok c -> vals_of n d k gs i = c.
Proof. intros Hc. unfold vals_of. now rewrite Hc. Qed.

(** the outcome of the loop over a range of indices *)
Lemma for_range_outcome (n d k : nat) (gs : list R) (len : nat) :
  forall (lo : nat) (a : Arrays) (w : World),
    N (model w) = n -> dim (model w) = d ->
    (forall i, (lo <= i < lo + len)%nat ->
       nth_error gs i = Some (nth i gs 0) /\ in_bounds i a) ->
    fst (for_range (sweep_body k gs) (seq lo len) a w)
    = match first_error (map (fun i => point_values n d k (nth i gs 0)) (seq lo len)) with
      | Some e => Raise e
      | None => Ok (fold_left (fun a i => write_cells i (vals_of n d k gs i) a)
                              (seq lo len) a)
      end.
Proof.
  induction len as [|len IH]; intros lo a w Hn Hd Hpts; [reflexivity|].
  destruct (Hpts lo ltac:(lia)) as (Hx & Hb).
  cbn [seq map first_error for_range fold_left]. unfold bind.
  destruct (point_values n d k (nth lo gs 0)) as [c|e] eqn:Hc.
  - rewrite (vals_of_ok n d k gs lo c Hc).
    rewrite <- Hn, <- Hd in Hc.
    rewrite (@sweep_body_ok L k gs lo a w _ c Hx Hb Hc).
    apply IH; [exact Hn | exact Hd |].
    intros i Hi. destruct (Hpts i ltac:(lia)) as (Hx' & Hb').
    split; [exact Hx' | now apply write_cells_in_bounds].
  - rewrite <- Hn, <- Hd in Hc.
    pose proof (@sweep_body_raise L k gs lo a w _ e Hx Hb Hc) as Hr.
    destruct (sweep_body k gs lo a w) as [[a0|e0] w0]; simpl in Hr; [discriminate|].
    exact Hr.
Qed.

Lemma map_nth_seq (f : R -> Result (float * float * float * float)) (gs : list R) :
  map (fun i => f (nth i gs 0)) (seq 0 (length gs)) = map f gs.
Proof.
  apply (nth_ext _ _ (f 0) (f 0)).
  - now rewrite !length_map, length_seq.
  - intros i Hi. rewrite length_map, length_seq in Hi.
    rewrite (@nth_table _ (fun i => f (nth i gs 0)) (length gs) i (f 0) Hi).
    now rewrite map_nth.
Qed.

(** X11.  Whether the script comes to its end, and with which arrays, is
    a function of the grid: it raises the exception of the first grid
    point at which a collaborator raises, and otherwise returns the
    arrays that hold, in cell i, the four values of grid point i.  The
    state in which the script is started does not enter: the script
    constructs its own model, and the solver is configured before it is
    used. *)
Theorem script_outcome (n k Npoints : nat) (start stop : R) (w : World) :
  fst (script n k Npoints start stop w)
  = sweep_result (N (TFIM_new n)) (dim (TFIM_new n)) k (linspace start stop Npoints).
Proof.
  set (gs := linspace start stop Npoints).
  pose proof (@for_range_outcome (N (TFIM_new n)) (dim (TFIM_new n)) k gs Npoints 0
                (mkArrays (np_empty 0 Npoints) (np_empty 1 Npoints)
                          (np_empty 2 Npoints) (np_empty 3 Npoints))
                (mkWorld (TFIM_new n) (lanczos w) (trace w ++ [EvNewModel n]))
                eq_refl eq_refl) as Hloop.
  assert (Hlen : length gs = Npoints) by apply linspace_length.
  rewrite (@fold_write_cells_table L) in Hloop.
  unfold sweep_result. rewrite Hlen.
  rewrite <- (map_nth_seq (point_values (N (TFIM_new n)) (dim (TFIM_new n)) k) gs), Hlen.
  rewrite <- Hloop.
  - unfold script. run. fold gs.
    destruct (for_range _ _ _ _) as [[a|e] w']; reflexivity.
  - intros i Hi. split.
    + apply nth_error_nth_lt. rewrite Hlen. lia.
    + apply np_empty_in_bounds. lia.
Qed.

Lemma fold_write_cells_in_bounds (vals : nat -> float * float * float * float)
    (l : list nat) (j : nat) :
  forall a, in_bounds j a ->
            in_bounds j (fold_left (fun a i => write_cells i (vals i) a) l a).
Proof.
  induction l as [|i l IH]; intros a Hb; [exact Hb|].
  simpl. apply IH. now apply write_cells_in_bounds.
Qed.

(** a pass in which a collaborator raises: the exception leaves the body,
    after calls only, with the model at the grid value of the pass *)
Lemma sweep_body_abort (k : nat) (gs : list R) (i : nat) (a : Arrays) (w : World)
    (x : R) (e : Exn) :
  nth_error gs i = Some x ->
  in_bounds i a ->
  point_values (N (model w)) (dim (model w)) k x = Raise e ->
  exists evs w',
    sweep_body k gs i a w = (Raise e, w') /\
    trace w' = trace w ++ evs /\ forallb quiet evs = true /\
    g (model w') = leaf (float32 x).
Proof.
  intros Hx (B1 & B2 & B3 & B4) Hc.
  unfold point_values in Hc.
  unfold sweep_body, chiF_perturbation, chiF_matrixAD, chiF_sparseAD,
    chiF_geometric, cg, setDominantSparseSymeig, dominant_sparse_symeig,
    autograd_grad, autograd_grad_again, store. run.
  rewrite Hx. run.
  destruct (symeig _) as [[Es psis]|e'].
  2:{ injection Hc as ->. run. eexists; eexists. split; [reflexivity|].
      rewrite <- !app_assoc. simpl. split; [reflexivity|]. split; reflexivity. }
  run. destruct (0 <? ncols psis)%nat.
  2:{ injection Hc as <-. run. eexists; eexists. split; [reflexivity|].
      rewrite <- !app_assoc. simpl. split; [reflexivity|]. split; reflexivity. }
  run. destruct Es as [|E0 Es].
  { injection Hc as <-. run. eexists; eexists. split; [reflexivity|].
    rewrite <- !app_assoc. simpl. split; [reflexivity|]. split; reflexivity. }
  run. step_store. run.
  destruct (DominantSymeig_apply _ _) as [[E0d psi0d]|e'].
  2:{ injection Hc as ->. run. eexists; eexists. split; [reflexivity|].
      rewrite <- !app_assoc. simpl. split; [reflexivity|]. split; reflexivity. }
  run. step_store. run.
  unfold point_model in Hc. simpl in Hc.
  destruct (DominantSparseSymeig_apply _ _ _ _ _) as [[E0s psi0s]|e'].
  2:{ injection Hc as ->. run. eexists; eexists. split; [reflexivity|].
      rewrite <- !app_assoc. simpl. split; [reflexivity|]. split; reflexivity. }
  run. step_store. run.
  unfold configured. simpl. unfold rhs in Hc. simpl in Hc.
  destruct (CGSubspaceSparse_apply _ _ _ _ _) as [dpsi0|e'].
  { discriminate Hc. }
  injection Hc as ->. run. eexists; eexists. split; [reflexivity|].
  rewrite <- !app_assoc. simpl. split; [reflexivity|]. split; reflexivity.
Qed.

(** X12.  When grid point i is the first at which a collaborator raises,
    the script stops there with that exception: the passes before it have
    run in full and have printed their lines, the failing pass has made
    calls only, so that the console holds exactly i lines of the sweep, no
    figure is drawn, and the model is left at the grid value of the failing
    point. *)
Theorem script_abort (n k Npoints i : nat) (start stop : R) (w : World)
    (vals : nat -> float * float * float * float) (e : Exn) :
  let d := dim (TFIM_new n) in
  let gs := linspace start stop Npoints in
  (i < Npoints)%nat ->
  (forall j, (j < i)%nat ->
     point_values (N (TFIM_new n)) d k (nth j gs 0) = Ok (vals j)) ->
  point_values (N (TFIM_new n)) d k (nth i gs 0) = Raise e ->
  let r := script n k Npoints start stop w in
  fst r = Raise e /\
  (exists evs,
     trace (snd r) =
       trace w ++ EvNewModel n ::
       flat_map (fun j => point_events k d (nth j gs 0) (vals j)) (seq 0 i) ++ evs /\
     forallb quiet evs = true) /\
  console (trace (snd r)) =
    console (trace w) ++
    map (fun j => let '(c1, c2, c3, c4) := vals j in
                  print_line (nth j gs 0) c1 c2 c3 c4) (seq 0 i) /\
  g (model (snd r)) = leaf (float32 (nth i gs 0)).
Proof.
  intros d gs Hi Hbefore Hfail r.
  assert (Hlen : length gs = Npoints) by apply linspace_length.
  set (a0 := mkArrays (np_empty 0 Npoints) (np_empty 1 Npoints)
                      (np_empty 2 Npoints) (np_empty 3 Npoints)).
  set (w0 := mkWorld (TFIM_new n) (lanczos w) (trace w ++ [EvNewModel n])).
  destruct (@for_range_ok L (N (TFIM_new n)) d k gs vals i 0 a0 w0 eq_refl eq_refl)
    as (w1 & Hrun1 & HN1 & Hd1 & Ht1).
  { intros j Hj. split; [|split].
    - apply nth_error_nth_lt. rewrite Hlen. lia.
    - apply np_empty_in_bounds. lia.
    - apply Hbefore. lia. }
  set (a1 := fold_left (fun a j => write_cells j (vals j) a) (seq 0 i) a0) in Hrun1.
  assert (Hb : in_bounds i a1).
  { apply fold_write_cells_in_bounds. apply np_empty_in_bounds. exact Hi. }
  assert (Hx : nth_error gs i = Some (nth i gs 0)).
  { apply nth_error_nth_lt. rewrite Hlen. exact Hi. }
  rewrite <- HN1, <- Hd1 in Hfail.
  destruct (@sweep_body_abort k gs i a1 w1 (nth i gs 0) e Hx Hb Hfail)
    as (evs & w2 & Hrun2 & Ht2 & Hq & Hg).
  assert (Hscript : r = (Raise e, w2)).
  { unfold r, script. run. fold gs. fold a0. fold w0.
    replace (seq 0 Npoints) with (seq 0 i ++ i :: seq (S i) (Npoints - S i)).
    - rewrite for_range_app. unfold bind at 1. rewrite Hrun1.
      cbn [for_range]. unfold bind at 1. rewrite Hrun2. reflexivity.
    - change (i :: seq (S i) (Npoints - S i)) with (seq i (S (Npoints - S i))).
      replace i with (0 + i)%nat at 2 by reflexivity.
      rewrite <- seq_app. f_equal. lia. }
  rewrite Hscript. simpl.
  assert (Htrace : trace w2 =
            trace w ++ EvNewModel n ::
            flat_map (fun j => point_events k d (nth j gs 0) (vals j)) (seq 0 i) ++ evs).
  { rewrite Ht2, Ht1. unfold w0. simpl. now rewrite <- !app_assoc. }
  split; [reflexivity|]. split; [now exists evs|]. split; [|exact Hg].
  rewrite Htrace, console_app.
  change (EvNewModel n :: ?l) with ([EvNewModel n] ++ l).
  rewrite !console_app, console_points, (console_quiet evs Hq). simpl.
  now rewrite app_nil_r.
Qed.

(** X13.  When every grid point answers, the script leaves the model at
    the last grid value, which is [stop] as soon as there are two points:
    g is the leaf of that value, and the two dense matrices are the ones of
    that g; the solver is left configured with the operator of the
    model. *)
Theorem script_final_state (n k p : nat) (start stop : R) (w : World)
    (vals : nat -> float * float * float * float) :
  let d := dim (TFIM_new n) in
  let gs := linspace start stop (S p) in
  (forall i, (i <= p)%nat ->
     point_values (N (TFIM_new n)) d k (nth i gs 0) = Ok (vals i)) ->
  let r := script n k (S p) start stop w in
  model (snd r) = point_model (N (TFIM_new n)) d (nth p gs 0) /\
  lanczos (snd r) = Some point_wiring /\
  ((1 <= p)%nat -> nth p gs 0 = stop).
Proof.
  intros d gs Hpts r.
  assert (Hlen : length gs = S p) by apply linspace_length.
  set (a0 := mkArrays (np_empty 0 (S p)) (np_empty 1 (S p))
                      (np_empty 2 (S p)) (np_empty 3 (S p))).
  set (w0 := mkWorld (TFIM_new n) (lanczos w) (trace w ++ [EvNewModel n])).
  destruct (@for_range_ok L (N (TFIM_new n)) d k gs vals p 0 a0 w0 eq_refl eq_refl)
    as (w1 & Hrun1 & HN1 & Hd1 & Ht1).
  { intros j Hj. split; [|split].
    - apply nth_error_nth_lt. rewrite Hlen. lia.
    - apply np_empty_in_bounds. lia.
    - apply Hpts. lia. }
  set (a1 := fold_left (fun a j => write_cells j (vals j) a) (seq 0 p) a0) in Hrun1.
  assert (Hb : in_bounds p a1).
  { apply fold_write_cells_in_bounds. apply np_empty_in_bounds. lia. }
  assert (Hx : nth_error gs p = Some (nth p gs 0)).
  { apply nth_error_nth_lt. rewrite Hlen. lia. }
  pose proof (Hpts p (le_n p)) as Hlast.
  rewrite <- HN1, <- Hd1 in Hlast.
  pose proof (@sweep_body_ok L k gs p a1 w1 (nth p gs 0) (vals p) Hx Hb Hlast) as Hrun2.
  cbv zeta in Hrun2. rewrite HN1, Hd1 in Hrun2.
  assert (Hloop : for_range (sweep_body k gs) (seq 0 (S p)) a0 w0
                  = (Ok (write_cells p (vals p) a1),
                     mkWorld (point_model (N (TFIM_new n)) d (nth p gs 0))
                             (Some point_wiring)
                             (trace w1 ++ point_events k d (nth p gs 0) (vals p)))).
  { rewrite seq_S, for_range_app. unfold bind at 1. rewrite Hrun1.
    cbn [for_range Nat.add]. unfold bind at 1. rewrite Hrun2. reflexivity. }
  assert (Hfinal : model (snd r) = point_model (N (TFIM_new n)) d (nth p gs 0) /\
                   lanczos (snd r) = Some point_wiring).
  { unfold r, script. fold gs. fold a0.
    remember (seq 0 (S p)) as range eqn:Hrange. run. fold w0.
    rewrite Hloop. split; reflexivity. }
  destruct Hfinal as [Hm Hl].
  split; [exact Hm|]. split; [exact Hl|].
  - intros Hp. unfold gs. rewrite linspace_nth by lia.
    replace (S p - 1)%nat with p by lia.
    assert (HINR : INR p <> 0) by (apply not_0_INR; lia).
    field. exact HINR.
Qed.

(** X14.  A pass of the loop that comes to its end has written cell i of
    the four arrays and nothing else in them: their lengths are kept and
    every other cell holds what it held, so that no pass overwrites what an
    earlier one has recorded. *)
Theorem sweep_body_writes_one_cell (k : nat) (gs : list R) (i : nat)
    (a a' : Arrays) (w w' : World) :
  sweep_body k gs i a w = (Ok a', w') ->
  in_bounds i a ->
  (length (chiFs_perturbation a') = length (chiFs_perturbation a) /\
   length (chiFs_matrixAD a') = length (chiFs_matrixAD a) /\
   length (chiFs_sparseAD a') = length (chiFs_sparseAD a) /\
   length (chiFs_geometric a') = length (chiFs_geometric a)) /\
  (forall j, j <> i -> cells j a' = cells j a).
Proof.
  intros Hrun Hb.
  destruct (nth_error gs i) as [x|] eqn:Hx.
  2:{ unfold sweep_body in Hrun. unfold bind at 1, index in Hrun.
      rewrite Hx in Hrun. discriminate Hrun. }
  destruct (point_values (N (model w)) (dim (model w)) k x) as [c|e] eqn:Hc.
  - rewrite (@sweep_body_ok L k gs i a w x c Hx Hb Hc) in Hrun.
    injection Hrun as <- _. destruct c as [[[c1 c2] c3] c4].
    destruct Hb as (B1 & B2 & B3 & B4).
    split.
    + simpl. now rewrite !array_set_length.
    + intros j Hj. unfold cells. simpl.
      rewrite !nth_array_set by assumption.
      destruct (Nat.eqb_spec j i) as [E|_]; [contradiction | reflexivity].
  - pose proof (@sweep_body_raise L k gs i a w x e Hx Hb Hc) as Hr.
    rewrite Hrun in Hr. discriminate Hr.
Qed.

End SweepOutcome.

(** in the instance [Failing.late] a grid point at zero answers, any
    other raises *)
Lemma late_point_zero (n k : nat) (x : R) :
  x = 0 ->
  @point_values Failing.late n 2 k x
  = Ok (Real (1 / 4), Real (1 / 4), Real (1 / 4), Real (1 / 4)).
Proof.
  intros ->. rewrite <- (@toy_point n k 0).
  unfold point_values. simpl. unfold entry at 1. simpl.
  destruct (Req_dec_T 0 0) as [_|Hne]; [reflexivity | now contradiction Hne].
Qed.

Lemma late_point_nonzero (n k : nat) (x : R) :
  x <> 0 -> @point_values Failing.late n 2 k x = Raise RuntimeError.
Proof.
  intros Hx. unfold point_values. simpl. unfold entry at 1. simpl.
  destruct (Req_dec_T x 0) as [E|_]; [contradiction | reflexivity].
Qed.

Lemma script_abort_witness :
  fst (@script Failing.late 1 300 3 0 2 Toy.world) = Raise RuntimeError /\
  console (trace (snd (@script Failing.late 1 300 3 0 2 Toy.world)))
  = [print_line (nth 0 (linspace 0 2 3) 0)
       (Real (1 / 4)) (Real (1 / 4)) (Real (1 / 4)) (Real (1 / 4))].
Proof.
  destruct (@script_abort Failing.late 1 300 3 1 0 2 Toy.world
              (fun _ => (Real (1 / 4), Real (1 / 4), Real (1 / 4), Real (1 / 4)))
              RuntimeError) as (Hr & _ & Hconsole & _).
  - lia.
  - intros j Hj. apply late_point_zero.
    assert (j = 0%nat) as -> by lia. unfold linspace. simpl. lra.
  - apply late_point_nonzero. unfold linspace. simpl. lra.
  - split; [exact Hr | exact Hconsole].
Defined.

Lemma script_final_state_witness :
  model (snd (@script Toy.imports 1 300 2 0 1 Toy.world))
  = @point_model Toy.imports 1 2 (nth 1 (linspace 0 1 2) 0) /\
  lanczos (snd (@script Toy.imports 1 300 2 0 1 Toy.world))
  = Some (@point_wiring Toy.imports) /\
  nth 1 (linspace 0 1 2) 0 = 1.
Proof.
  destruct (@script_final_state Toy.imports 1 300 1 0 1 Toy.world
              (fun _ => (Real (1 / 4), Real (1 / 4), Real (1 / 4), Real (1 / 4))))
    as (Hm & Hl & Hstop).
  - intros i Hi. apply toy_point.
  - split; [exact Hm|]. split; [exact Hl|]. apply Hstop. lia.
Defined.

Lemma sweep_body_writes_one_cell_witness :
  cells 0 (write_cells 1 (Real (1 / 4), Real (1 / 4), Real (1 / 4), Real (1 / 4))
             (mkArrays [Real 1; Real 2] [Real 3; Real 4] [Real 5; Real 6]
                       [Real 7; Real 8]))
  = cells 0 (mkArrays [Real 1; Real 2] [Real 3; Real 4] [Real 5; Real 6]
                      [Real 7; Real 8]).
Proof.
  destruct (@sweep_body_writes_one_cell Toy.imports 300 [5; 0] 1
           (mkArrays [Real 1; Real 2] [Real 3; Real 4] [Real 5; Real 6] [Real 7; Real 8])
           (write_cells 1 (Real (1 / 4), Real (1 / 4), Real (1 / 4), Real (1 / 4))
              (mkArrays [Real 1; Real 2] [Real 3; Real 4] [Real 5; Real 6]
                        [Real 7; Real 8]))
           Toy.world
           (mkWorld (@point_model Toy.imports 1 2 0) (Some (@point_wiring Toy.imports))
                    (trace Toy.world ++
                     @point_events Toy.imports 300 2 0
                       (Real (1 / 4), Real (1 / 4), Real (1 / 4), Real (1 / 4)))))
    as [_ Hcells].
  - apply (@sweep_body_ok Toy.imports 300 [5; 0] 1 _ Toy.world 0).
    + reflexivity.
    + unfold in_bounds. simpl. lia.
    + apply toy_point.
  - unfold in_bounds. simpl. lia.
  - apply (Hcells 0%nat). lia.
Defined.

(** ** The narrowing of the grid value *)

Section Grid.

Context {L : Imports}.

(** X16.  The grid value enters a pass only through its narrowing to
    float32: two passes whose grid values have the same float32 record the
    same four values (or raise the same exception), in whatever states
    they start. *)
Theorem float32_narrowing (k : nat) (gs1 gs2 : list R) (i j : nat) (x y : R)
    (a1 a2 : Arrays) (w1 w2 : World) :
  N (model w1) = N (model w2) -> dim (model w1) = dim (model w2) ->
  nth_error gs1 i = Some x -> nth_error gs2 j = Some y ->
  float32 x = float32 y ->
  in_bounds i a1 -> in_bounds j a2 ->
  values i (sweep_body k gs1 i a1 w1) = values j (sweep_body k gs2 j a2 w2).
Proof.
  intros HN Hd Hx Hy Hxy Hb1 Hb2.
  rewrite (@sweep_body_values L k gs1 i a1 w1 x Hx Hb1).
  rewrite (@sweep_body_values L k gs2 j a2 w2 y Hy Hb2).
  rewrite HN, Hd. unfold point_values, point_model. now rewrite Hxy.
Qed.

End Grid.

Lemma float32_narrowing_witness :
  values 0 (@sweep_body Coarse.imports 300 [1] 0
              (mkArrays [NotReal] [NotReal] [NotReal] [NotReal]) Toy.world)
  = values 1 (@sweep_body Coarse.imports 300 [5; 2] 1
                (mkArrays [Real 1; Real 2] [Real 3; Real 4] [Real 5; Real 6]
                          [Real 7; Real 8])
                (mkWorld (mkModel 1 2 (leaf 7) None (Some Toy.identity))
                         (Some (mkWiring (fun _ v => v) (fun _ _ _ => 0)))
                         [EvShow])).
Proof.
  apply (@float32_narrowing Coarse.imports 300 [1] [5; 2] 0%nat 1%nat 1 2).
  - reflexivity.
  - reflexivity.
  - reflexivity.
  - reflexivity.
  - reflexivity.
  - unfold in_bounds. simpl. lia.
  - unfold in_bounds. simpl. lia.
Defined.
